(** * Four in a Row: board engine, game state machine and relay server

    A shallow embedding of the game logic (board engine and [GameState]
    class) and of the registry part of the multiplayer server, followed by
    the properties established about them.

    Conventions.
    - JS numbers that hold indices, players and cell values are integers
      here ([Z]); a column argument may be negative or too large.
    - A board is an array of row arrays: [list (list Z)], row 0 on top.
    - [board[row][col]] on an index that does not exist is [undefined] in
      JS; it is [None] here.  A well-formed board has 6 rows of 7 cells. *)

From Stdlib Require Import ZArith QArith Qround Lia.
From stdpp Require Import base option list gmap strings.

Local Open Scope Z_scope.

#[local] Set Warnings "-clear-no-such-hyp".

(** ** Constants *)

Definition ROWS : Z := 6.
Definition COLS : Z := 7.
Definition EMPTY : Z := 0.
Definition PLAYER_RED : Z := 1.
Definition PLAYER_YELLOW : Z := 2.

(** ** Arrays and boards *)

Abbreviation Board := (list (list Z)).

(** [arr[i]] for an integer [i]: [None] stands for [undefined]. *)
Definition at_ {A : Type} (arr : list A) (i : Z) : option A :=
  if i <? 0 then None else arr !! Z.to_nat i.

(** [board[row][col]]. *)
Definition cell (board : Board) (row col : Z) : option Z :=
  at_ board row ≫= λ r, at_ r col.

(** [x === v] where [x] may be [undefined] and [v] is a number. *)
Definition is_val (x : option Z) (v : Z) : bool :=
  match x with
  | Some y => y =? v
  | None => false
  end.

(** [arr[row][col] = v].  Every write the engine performs targets a cell
    that was just read, so the index exists (see [getLowestEmptyRow_cell]);
    the growth of a JS array on a missing index is not modelled. *)
Definition set_cell (board : Board) (row col : Z) (v : Z) : Board :=
  alter (λ r, <[Z.to_nat col := v]> r) (Z.to_nat row) board.

Definition createBoard : Board :=
  replicate (Z.to_nat ROWS) (replicate (Z.to_nat COLS) EMPTY).

(** [board.map(row => [...row])]: on values, a copy of every row. *)
Definition cloneBoard (board : Board) : Board :=
  (λ row, row) <$> board.

(** The loop [for (row = n - 1; row >= 0; row--)] of [getLowestEmptyRow]. *)
Fixpoint getLowestEmptyRow_from (board : Board) (col : Z) (n : nat) : Z :=
  match n with
  | O => -1
  | S k =>
      if is_val (cell board (Z.of_nat k) col) EMPTY then Z.of_nat k
      else getLowestEmptyRow_from board col k
  end.

Definition getLowestEmptyRow (board : Board) (col : Z) : Z :=
  getLowestEmptyRow_from board col (Z.to_nat ROWS).

Definition isColumnFull (board : Board) (col : Z) : bool :=
  negb (is_val (cell board 0 col) EMPTY).

(** [board[0].every(cell => cell !== EMPTY)]; a board without a row 0 makes
    the JS code throw, which no well-formed board does. *)
Definition isBoardFull (board : Board) : bool :=
  match at_ board 0 with
  | Some row0 => forallb (λ c, negb (c =? EMPTY)) row0
  | None => false
  end.

Record DropResult := mkDrop {
  drop_success : bool;
  drop_row : Z;
  drop_board : Board
}.

Definition dropPiece (board : Board) (col player : Z) : DropResult :=
  if (col <? 0) || (col >=? COLS) then
    {| drop_success := false; drop_row := -1; drop_board := board |}
  else
    let row := getLowestEmptyRow board col in
    if row =? -1 then
      {| drop_success := false; drop_row := -1; drop_board := board |}
    else
      let newBoard := cloneBoard board in
      let newBoard := set_cell newBoard row col player in
      {| drop_success := true; drop_row := row; drop_board := newBoard |}.

(** ** Win detection *)

Record Cell := mkCell { cell_row : Z; cell_col : Z }.

Record WinResult := mkWin { won : bool; cells : list Cell }.

(** [for (i = lo; i < hi; i++) body(i)] where the body may [return]:
    the first [Some] ends the loop, [None] means it ran to its end. *)
Fixpoint for_from {A : Type} (n : nat) (i : Z) (body : Z → option A) : option A :=
  match n with
  | O => None
  | S k =>
      match body i with
      | Some r => Some r
      | None => for_from k (i + 1) body
      end
  end.

Definition for_range {A : Type} (lo hi : Z) (body : Z → option A) : option A :=
  for_from (Z.to_nat (hi - lo)) lo body.

(** [board[row][col] === player]. *)
Definition owns (board : Board) (player row col : Z) : bool :=
  is_val (cell board row col) player.

Definition checkHorizontal (board : Board) (player : Z) : option WinResult :=
  for_range 0 ROWS (λ row,
    for_range 0 (COLS - 4 + 1) (λ col,
      if owns board player row col
         && owns board player row (col + 1)
         && owns board player row (col + 2)
         && owns board player row (col + 3)
      then Some {| won := true;
                   cells := [ mkCell row col; mkCell row (col + 1);
                              mkCell row (col + 2); mkCell row (col + 3) ] |}
      else None)).

Definition checkVertical (board : Board) (player : Z) : option WinResult :=
  for_range 0 (ROWS - 4 + 1) (λ row,
    for_range 0 COLS (λ col,
      if owns board player row col
         && owns board player (row + 1) col
         && owns board player (row + 2) col
         && owns board player (row + 3) col
      then Some {| won := true;
                   cells := [ mkCell row col; mkCell (row + 1) col;
                              mkCell (row + 2) col; mkCell (row + 3) col ] |}
      else None)).

(** Bottom-left to top-right. *)
Definition checkDiagonalUp (board : Board) (player : Z) : option WinResult :=
  for_range 3 ROWS (λ row,
    for_range 0 (COLS - 4 + 1) (λ col,
      if owns board player row col
         && owns board player (row - 1) (col + 1)
         && owns board player (row - 2) (col + 2)
         && owns board player (row - 3) (col + 3)
      then Some {| won := true;
                   cells := [ mkCell row col; mkCell (row - 1) (col + 1);
                              mkCell (row - 2) (col + 2); mkCell (row - 3) (col + 3) ] |}
      else None)).

(** Top-left to bottom-right. *)
Definition checkDiagonalDown (board : Board) (player : Z) : option WinResult :=
  for_range 0 (ROWS - 4 + 1) (λ row,
    for_range 0 (COLS - 4 + 1) (λ col,
      if owns board player row col
         && owns board player (row + 1) (col + 1)
         && owns board player (row + 2) (col + 2)
         && owns board player (row + 3) (col + 3)
      then Some {| won := true;
                   cells := [ mkCell row col; mkCell (row + 1) (col + 1);
                              mkCell (row + 2) (col + 2); mkCell (row + 3) (col + 3) ] |}
      else None)).

Definition checkWin (board : Board) (player : Z) : WinResult :=
  match checkHorizontal board player with
  | Some r => r
  | None =>
  match checkVertical board player with
  | Some r => r
  | None =>
  match checkDiagonalUp board player with
  | Some r => r
  | None =>
  match checkDiagonalDown board player with
  | Some r => r
  | None => {| won := false; cells := [] |}
  end end end end.

Definition getOtherPlayer (player : Z) : Z :=
  if player =? PLAYER_RED then PLAYER_YELLOW else PLAYER_RED.

(** ** Game state *)

Record Move := mkMove { move_col : Z; move_row : Z; move_player : Z }.

Record GameState := mkState {
  board : Board;
  currentPlayer : Z;
  winner : option Z;
  winningCells : list Cell;
  isDraw : bool;
  moveHistory : list Move;
  gameOver : bool
}.

Record MoveResult := mkResult {
  res_success : bool;
  res_row : Z;
  res_winner : option Z;
  res_winningCells : list Cell;
  res_isDraw : bool
}.

(** [reset()] assigns every field, whatever the state was. *)
Definition reset (this : GameState) : GameState :=
  {| board := createBoard;
     currentPlayer := PLAYER_RED;
     winner := None;
     winningCells := [];
     isDraw := false;
     moveHistory := [];
     gameOver := false |}.

(** [new GameState()]: the constructor only calls [reset]. *)
Definition newGameState : GameState :=
  reset (mkState [] 0 None [] false [] false).

Definition set_board (b : Board) (s : GameState) : GameState :=
  mkState b (currentPlayer s) (winner s) (winningCells s) (isDraw s) (moveHistory s) (gameOver s).
Definition set_currentPlayer (p : Z) (s : GameState) : GameState :=
  mkState (board s) p (winner s) (winningCells s) (isDraw s) (moveHistory s) (gameOver s).
Definition set_winner (w : option Z) (s : GameState) : GameState :=
  mkState (board s) (currentPlayer s) w (winningCells s) (isDraw s) (moveHistory s) (gameOver s).
Definition set_winningCells (c : list Cell) (s : GameState) : GameState :=
  mkState (board s) (currentPlayer s) (winner s) c (isDraw s) (moveHistory s) (gameOver s).
Definition set_isDraw (d : bool) (s : GameState) : GameState :=
  mkState (board s) (currentPlayer s) (winner s) (winningCells s) d (moveHistory s) (gameOver s).
(** [this.moveHistory.push(m)]. *)
Definition push_moveHistory (m : Move) (s : GameState) : GameState :=
  mkState (board s) (currentPlayer s) (winner s) (winningCells s) (isDraw s) (moveHistory s ++ [m]) (gameOver s).
Definition set_moveHistory (h : list Move) (s : GameState) : GameState :=
  mkState (board s) (currentPlayer s) (winner s) (winningCells s) (isDraw s) h (gameOver s).
Definition set_gameOver (g : bool) (s : GameState) : GameState :=
  mkState (board s) (currentPlayer s) (winner s) (winningCells s) (isDraw s) (moveHistory s) g.

Definition move_failed : MoveResult :=
  {| res_success := false; res_row := -1; res_winner := None;
     res_winningCells := []; res_isDraw := false |}.

(** [makeMove(col)]: the state after the call and the returned object. *)
Definition makeMove (this : GameState) (col : Z) : GameState * MoveResult :=
  if gameOver this then (this, move_failed)
  else
    let result := dropPiece (board this) col (currentPlayer this) in
    if negb (drop_success result) then (this, move_failed)
    else
      let this := set_board (drop_board result) this in
      let this := push_moveHistory (mkMove col (drop_row result) (currentPlayer this)) this in
      let winResult := checkWin (board this) (currentPlayer this) in
      if won winResult then
        let this := set_winner (Some (currentPlayer this)) this in
        let this := set_winningCells (cells winResult) this in
        let this := set_gameOver true this in
        (this, {| res_success := true; res_row := drop_row result;
                  res_winner := winner this;
                  res_winningCells := winningCells this;
                  res_isDraw := false |})
      else if isBoardFull (board this) then
        let this := set_isDraw true this in
        let this := set_gameOver true this in
        (this, {| res_success := true; res_row := drop_row result;
                  res_winner := None; res_winningCells := [];
                  res_isDraw := true |})
      else
        let this := set_currentPlayer (getOtherPlayer (currentPlayer this)) this in
        (this, {| res_success := true; res_row := drop_row result;
                  res_winner := None; res_winningCells := [];
                  res_isDraw := false |}).

(** [getValidColumns()]: the loop pushes, in increasing order, every column
    of [0 .. COLS-1] that is not full. *)
Definition getValidColumns (this : GameState) : list Z :=
  filter (λ col, isColumnFull (board this) col = false) (seqZ 0 COLS).

(** The plain object [serialize()] returns. *)
Record Serialized := mkSerialized {
  ser_board : Board;
  ser_currentPlayer : Z;
  ser_winner : option Z;
  ser_winningCells : list Cell;
  ser_isDraw : bool;
  ser_moveHistory : list Move;
  ser_gameOver : bool
}.

Definition serialize (this : GameState) : Serialized :=
  {| ser_board := board this;
     ser_currentPlayer := currentPlayer this;
     ser_winner := winner this;
     ser_winningCells := winningCells this;
     ser_isDraw := isDraw this;
     ser_moveHistory := moveHistory this;
     ser_gameOver := gameOver this |}.

(** [deserialize(data)] overwrites the seven fields of [this] one by one. *)
Definition deserialize (this : GameState) (data : Serialized) : GameState :=
  let this := set_board (ser_board data) this in
  let this := set_currentPlayer (ser_currentPlayer data) this in
  let this := set_winner (ser_winner data) this in
  let this := set_winningCells (ser_winningCells data) this in
  let this := set_isDraw (ser_isDraw data) this in
  let this := set_moveHistory (ser_moveHistory data) this in
  set_gameOver (ser_gameOver data) this.

(** States produced by the constructor or [reset()] followed by any calls
    of [makeMove]. *)
Inductive reachable : GameState → Prop :=
  | reachable_reset : reachable newGameState
  | reachable_move s col : reachable s → reachable (makeMove s col).1.

(** Replays a list of column arguments from a fresh game. *)
Definition play (cols : list Z) : GameState :=
  foldl (λ s col, (makeMove s col).1) newGameState cols.

(** ** Lines of four and the scanning order, as the specification words them

    Independent of the loops of [checkWin]: a line is given by its first
    cell and an orientation; the lines of an orientation are those that fit
    the grid, their first cells taken rows top to bottom and, within a row,
    columns left to right. *)

Inductive Orientation := Horizontal | Vertical | DiagonalUp | DiagonalDown.

(** The step (rows, columns) from one cell of a line to the next. *)
Definition step (o : Orientation) : Z * Z :=
  match o with
  | Horizontal => (0, 1)
  | Vertical => (1, 0)
  | DiagonalUp => (-1, 1)
  | DiagonalDown => (1, 1)
  end.

Definition line_from (o : Orientation) (row col : Z) : list Cell :=
  (λ k, mkCell (row + k * (step o).1) (col + k * (step o).2)) <$> [0; 1; 2; 3].

Definition on_grid (c : Cell) : bool :=
  (0 <=? cell_row c) && (cell_row c <? ROWS) &&
  (0 <=? cell_col c) && (cell_col c <? COLS).

Definition lines_of (o : Orientation) : list (list Cell) :=
  row ← seqZ 0 ROWS;
  col ← seqZ 0 COLS;
  if forallb on_grid (line_from o row col) then [line_from o row col] else [].

Definition scan_order : list (list Cell) :=
  lines_of Horizontal ++ lines_of Vertical ++
  lines_of DiagonalUp ++ lines_of DiagonalDown.

(** Every cell of the line holds the player. *)
Definition line_owned (board : Board) (player : Z) (l : list Cell) : bool :=
  forallb (λ c, owns board player (cell_row c) (cell_col c)) l.

(** Four consecutive cells of the player in one of the four orientations. *)
Definition four_in_a_row (board : Board) (player : Z) : Prop :=
  ∃ o row col, ∀ c, c ∈ line_from o row col →
    cell board (cell_row c) (cell_col c) = Some player.

(** ** Boards: shape, gravity, piece counts *)

Definition wf_board (board : Board) : Prop :=
  length board = Z.to_nat ROWS ∧ Forall (λ r, length r = Z.to_nat COLS) board.

(** A cell that exists and is not [EMPTY]. *)
Definition occupied (board : Board) (row col : Z) : Prop :=
  ∃ v, cell board row col = Some v ∧ v ≠ EMPTY.

(** No cell below an occupied cell of the same column is [EMPTY]. *)
Definition gravity (board : Board) : Prop :=
  ∀ row row' col, row < row' → occupied board row col →
    cell board row' col ≠ Some EMPTY.

(** The cells of a column, top to bottom, and the pieces it holds. *)
Definition column (board : Board) (col : Z) : list Z :=
  omap (λ r, at_ r col) board.

Definition pieces (board : Board) (col : Z) : Z :=
  Z.of_nat (length (filter (λ v, v ≠ EMPTY) (column board col))).

(** Executable check of the gravity rule over the cells of a 6 x 7 grid. *)
Definition occupied_b (board : Board) (row col : Z) : bool :=
  match cell board row col with
  | Some v => negb (v =? EMPTY)
  | None => false
  end.

Definition gravity_check (board : Board) : bool :=
  forallb (λ col,
    forallb (λ row,
      forallb (λ row',
        implb (row <? row')
          (implb (occupied_b board row col)
                 (negb (is_val (cell board row' col) EMPTY))))
        (seqZ 0 ROWS))
      (seqZ 0 ROWS))
    (seqZ 0 COLS).

(** ** The engine on a store of arrays

    JS arrays are objects: a board is a reference to an array of references
    to row arrays.  This second embedding of [cloneBoard] and [dropPiece]
    keeps the references, so that what a call writes, and where, can be
    stated.  An address is an index of the store; allocation appends. *)

Inductive Obj :=
  | Row (cs : list Z)
  | Grid (rows : list nat).

Abbreviation Store := (list Obj).

Definition alloc (σ : Store) (o : Obj) : Store * nat :=
  (σ ++ [o], length σ).

Definition load_row (σ : Store) (l : nat) : option (list Z) :=
  match σ !! l with
  | Some (Row cs) => Some cs
  | _ => None
  end.

Definition load_grid (σ : Store) (b : nat) : option (list nat) :=
  match σ !! b with
  | Some (Grid rows) => Some rows
  | _ => None
  end.

(** The board value a reference denotes, when it denotes one. *)
Definition read_board (σ : Store) (b : nat) : option Board :=
  load_grid σ b ≫= λ rows, mapM (load_row σ) rows.

(** [board[row][col]] through the store. *)
Definition load_cell (σ : Store) (b : nat) (row col : Z) : option Z :=
  load_grid σ b ≫= λ rows, at_ rows row ≫= λ l, load_row σ l ≫= λ cs, at_ cs col.

(** [board[row][col] = v] through the store: only the row array changes. *)
Definition store_cell (σ : Store) (b : nat) (row col v : Z) : Store :=
  match load_grid σ b ≫= λ rows, at_ rows row with
  | Some l =>
      match load_row σ l with
      | Some cs => <[l := Row (<[Z.to_nat col := v]> cs)]> σ
      | None => σ
      end
  | None => σ
  end.

(** [rows.map(row => [...row])]: a fresh array per row, in order. *)
Fixpoint clone_rows (σ : Store) (rows : list nat) : Store * list nat :=
  match rows with
  | [] => (σ, [])
  | l :: rest =>
      let '(σ1, l') := alloc σ (Row (default [] (load_row σ l))) in
      let '(σ2, rest') := clone_rows σ1 rest in
      (σ2, l' :: rest')
  end.

Definition cloneBoard_st (σ : Store) (b : nat) : Store * nat :=
  let '(σ1, rows') := clone_rows σ (default [] (load_grid σ b)) in
  alloc σ1 (Grid rows').

Fixpoint getLowestEmptyRow_st_from (σ : Store) (b : nat) (col : Z) (n : nat) : Z :=
  match n with
  | O => -1
  | S k =>
      if is_val (load_cell σ b (Z.of_nat k) col) EMPTY then Z.of_nat k
      else getLowestEmptyRow_st_from σ b col k
  end.

Definition getLowestEmptyRow_st (σ : Store) (b : nat) (col : Z) : Z :=
  getLowestEmptyRow_st_from σ b col (Z.to_nat ROWS).

Record DropResultRef := mkDropRef {
  dropref_success : bool;
  dropref_row : Z;
  dropref_board : nat
}.

Definition dropPiece_st (σ : Store) (b : nat) (col player : Z) : Store * DropResultRef :=
  if (col <? 0) || (col >=? COLS) then
    (σ, {| dropref_success := false; dropref_row := -1; dropref_board := b |})
  else
    let row := getLowestEmptyRow_st σ b col in
    if row =? -1 then
      (σ, {| dropref_success := false; dropref_row := -1; dropref_board := b |})
    else
      let '(σ1, newBoard) := cloneBoard_st σ b in
      let σ2 := store_cell σ1 newBoard row col player in
      (σ2, {| dropref_success := true; dropref_row := row; dropref_board := newBoard |}).

(** ** Relay server: room registry and rematch handler *)

Abbreviation SocketId := string.

Definition chars : string := "ABCDEFGHJKLMNPQRSTUVWXYZ23456789".

(** [Math.random()] is an input: the stream of its successive results,
    each a rational of [0, 1) (see [fair]). *)
Abbreviation Random := (nat → Q).

Definition fair (rand : Random) : Prop :=
  ∀ i, (0 <= rand i)%Q ∧ (rand i < 1)%Q.

(** [Math.floor(r * chars.length)]. *)
Definition random_index (r : Q) : Z :=
  Qfloor (r * inject_Z (Z.of_nat (String.length chars))).

(** [chars[i]] as appended by [+=]: a one-character string, or the text
    of [undefined] on a missing index. *)
Definition char_at (s : string) (i : Z) : string :=
  match (if i <? 0 then None else String.get (Z.to_nat i) s) with
  | Some c => String c EmptyString
  | None => "undefined"
  end.

(** The inner loop: [n] draws from position [pos] appended to [code]. *)
Fixpoint draw_code (rand : Random) (pos : nat) (n : nat) (code : string) : string :=
  match n with
  | O => code
  | S k => draw_code rand (S pos) k (code +:+ char_at chars (random_index (rand pos)))
  end.

Record Game := mkGame {
  game_code : string;
  hostId : SocketId;
  players : list SocketId;
  gameState : option Serialized;
  game_currentPlayer : Z;
  createdAt : Z;
  rematchRequests : gset SocketId
}.

(** The [do ... while (games.has(code))] loop.  It has no bound of its
    own: [fuel] counts the attempts allowed here, and [None] means that all
    of them collided and the loop is still running.  The result carries the
    position reached in the random stream. *)
Fixpoint generateGameCode (fuel : nat) (games : gmap string Game)
    (rand : Random) (pos : nat) : option (string * nat) :=
  match fuel with
  | O => None
  | S k =>
      let code := draw_code rand pos 6 "" in
      if bool_decide (is_Some (games !! code))
      then generateGameCode k games rand (pos + 6)
      else Some (code, (pos + 6)%nat)
  end.

(** The code drawn at the [k]-th attempt (counting from 0). *)
Definition attempt (rand : Random) (pos : nat) (k : nat) : string :=
  draw_code rand (6 * k + pos) 6 "".

(** [createGame(hostId)] with [Date.now()] given as [now]. *)
Definition createGame (fuel : nat) (games : gmap string Game) (rand : Random)
    (pos : nat) (host : SocketId) (now : Z)
    : option (gmap string Game * Game * nat) :=
  match generateGameCode fuel games rand pos with
  | None => None
  | Some (code, pos') =>
      let game := {| game_code := code; hostId := host; players := [host];
                     gameState := None; game_currentPlayer := 1;
                     createdAt := now; rematchRequests := ∅ |} in
      Some (<[code := game]> games, game, pos')
  end.

(** The server: the registry and, per channel name, the sockets that
    joined it ([socket.join] / [socket.leave] of the transport). *)
Record Server := mkServer {
  games : gmap string Game;
  channels : gmap string (gset SocketId)
}.

Inductive Event :=
  | EvCreated (gameCode : string) (playerNumber : Z)
  | EvJoined (gameCode : string) (playerNumber : Z)
  | EvOpponentJoined (playerId : SocketId)
  | EvOpponentLeft (playerId : SocketId)
  | EvMove (column row : Z) (state : option Serialized)
  | EvRematch (state : option Serialized)
  | EvRematchRequested (playerId : SocketId).

(** What an acknowledgement callback is called with. *)
Inductive Reply :=
  | ReplyCreated (gameCode : string)
  | ReplyJoined (gameCode : string) (playerNumber : Z)
  | ReplyError (message : string).

Inductive Emit :=
  | Ack (socket : SocketId) (reply : Reply)
  | ToSocket (socket : SocketId) (ev : Event)
  | ToRoom (room : string) (ev : Event)
  | ToOthers (sender : SocketId) (room : string) (ev : Event).

Definition channel (srv : Server) (room : string) : gset SocketId :=
  default ∅ (channels srv !! room).

(** Who receives an emission: the callback and [socket.emit] reach the
    socket itself, [io.to(room)] every socket of the channel,
    [socket.to(room)] every one but the sender. *)
Definition recipients (srv : Server) (e : Emit) : gset SocketId :=
  match e with
  | Ack socket _ => {[socket]}
  | ToSocket socket _ => {[socket]}
  | ToRoom room _ => channel srv room
  | ToOthers sender room _ => channel srv room ∖ {[sender]}
  end.

Definition set_players (p : list SocketId) (g : Game) : Game :=
  mkGame (game_code g) (hostId g) p (gameState g)
         (game_currentPlayer g) (createdAt g) (rematchRequests g).
Definition set_rematchRequests (r : gset SocketId) (g : Game) : Game :=
  mkGame (game_code g) (hostId g) (players g) (gameState g)
         (game_currentPlayer g) (createdAt g) r.
Definition set_gameState (st : option Serialized) (g : Game) : Game :=
  mkGame (game_code g) (hostId g) (players g) st
         (game_currentPlayer g) (createdAt g) (rematchRequests g).
Definition set_game_currentPlayer (p : Z) (g : Game) : Game :=
  mkGame (game_code g) (hostId g) (players g) (gameState g)
         p (createdAt g) (rematchRequests g).

(** [socket.join(room)] and [socket.leave(room)] on the channels. *)
Definition channel_join (srv : Server) (socket : SocketId) (room : string)
    : gmap string (gset SocketId) :=
  <[room := {[socket]} ∪ channel srv room]> (channels srv).

Definition channel_leave (srv : Server) (socket : SocketId) (room : string)
    : gmap string (gset SocketId) :=
  <[room := channel srv room ∖ {[socket]}]> (channels srv).

(** [socket.on('game:create', ...)].  The connection's own variable
    [currentGameCode], which only the disconnect handler reads, is left out. *)
Definition on_create (fuel : nat) (srv : Server) (rand : Random) (pos : nat)
    (socket : SocketId) (now : Z) : option (Server * list Emit * nat) :=
  match createGame fuel (games srv) rand pos socket now with
  | None => None
  | Some (games', game, pos') =>
      Some (mkServer games' (channel_join srv socket (game_code game)),
            [Ack socket (ReplyCreated (game_code game));
             ToSocket socket (EvCreated (game_code game) 1)],
            pos')
  end.

(** [socket.on('game:join', ...)]. *)
Definition on_join (srv : Server) (socket : SocketId) (gameCode : string)
    : Server * list Emit :=
  match games srv !! gameCode with
  | None => (srv, [Ack socket (ReplyError "Game not found")])
  | Some game =>
      if bool_decide (2 ≤ length (players game))%nat then
        (srv, [Ack socket (ReplyError "Game is full")])
      else
        let game := set_players (players game ++ [socket]) game in
        (mkServer (<[gameCode := game]> (games srv)) (channel_join srv socket gameCode),
         [Ack socket (ReplyJoined gameCode 2);
          ToSocket socket (EvJoined gameCode 2);
          ToOthers socket gameCode (EvOpponentJoined socket)])
  end.

(** [leaveGame(socket, gameCode)], called by [game:leave] and on disconnect. *)
Definition leaveGame (srv : Server) (socket : SocketId) (gameCode : string)
    : Server * list Emit :=
  match games srv !! gameCode with
  | None => (srv, [])
  | Some game =>
      let game := set_players (filter (λ id, id ≠ socket) (players game)) game in
      let out := [ToOthers socket gameCode (EvOpponentLeft socket)] in
      if bool_decide (length (players game) = 0%nat) then
        (mkServer (delete gameCode (games srv)) (channel_leave srv socket gameCode), out)
      else
        (mkServer (<[gameCode := game]> (games srv)) (channel_leave srv socket gameCode), out)
  end.

(** [socket.on('game:move', ...)]: the state sent along is cached as it is. *)
Definition on_move (srv : Server) (socket : SocketId) (gameCode : string)
    (column row : Z) (state : option Serialized) : Server * list Emit :=
  match games srv !! gameCode with
  | None => (srv, [])
  | Some game =>
      let game := set_gameState state game in
      (mkServer (<[gameCode := game]> (games srv)) (channels srv),
       [ToOthers socket gameCode (EvMove column row state)])
  end.

(** [socket.on('game:rematch', ...)] for the socket [socket]. *)
Definition on_rematch (srv : Server) (socket : SocketId) (gameCode : string)
    : Server * list Emit :=
  match games srv !! gameCode with
  | None => (srv, [])
  | Some game =>
      let game := set_rematchRequests ({[socket]} ∪ rematchRequests game) game in
      if bool_decide (2 ≤ size (rematchRequests game))%nat then
        let game := set_gameState None game in
        let game := set_game_currentPlayer 1 game in
        let game := set_rematchRequests ∅ game in
        (mkServer (<[gameCode := game]> (games srv)) (channels srv),
         [ToRoom gameCode (EvRematch None)])
      else
        (mkServer (<[gameCode := game]> (games srv)) (channels srv),
         [ToOthers socket gameCode (EvRematchRequested socket)])
  end.

(** ** Auxiliary notions used in the statements *)

Definition is_player (p : Z) : Prop := p = PLAYER_RED ∨ p = PLAYER_YELLOW.

Definition win_with (l : list Cell) : WinResult := {| won := true; cells := l |}.

(** The store after a clone of [board]: the old store, then one fresh row
    array per row, then the fresh outer array. *)
Definition cloned (σ : Store) (board : Board) : Store :=
  σ ++ (Row <$> board) ++ [Grid (seq (length σ) (length board))].

Definition alphabet : list Ascii.ascii := String.list_ascii_of_string chars.

(** Every character of the string is one of the alphabet. *)
Definition over_alphabet (s : string) : Prop :=
  Forall (λ c, c ∈ alphabet) (String.list_ascii_of_string s).

(** ** Sample boards, stores, random streams and rooms *)

(** Red owns both the bottom row's first four cells and the first column's
    last four: the horizontal line is reported. *)
Definition two_lines_board : Board :=
  [ [0; 0; 0; 0; 0; 0; 0];
    [0; 0; 0; 0; 0; 0; 0];
    [1; 0; 0; 0; 0; 0; 0];
    [1; 0; 0; 0; 0; 0; 0];
    [1; 2; 2; 2; 0; 0; 0];
    [1; 1; 1; 1; 2; 0; 0] ].

(** A store holding the board after three moves in column 3. *)
Definition sample_store : Store := cloned [] (board (play [3; 3; 3])).

(** A registry with one room and two random streams to try the loop on. *)
Definition lone_game (code : string) : Game :=
  {| game_code := code; hostId := "host"; players := ["host"];
     gameState := None; game_currentPlayer := 1; createdAt := 0;
     rematchRequests := ∅ |}.

(** Draws 0/32, 1/32, ..., 31/32, 0/32, ...: the codes ABCDEF, GHJKLM, ... *)
Definition cycling : Random := λ i, Z.of_nat (i mod 32) # 32.

(** Every draw is 0: every attempt is AAAAAA. *)
Definition stuck : Random := λ _, 0%Q.

(** Room ROOM42 with occupants a and b, a game state cached, and the
    request of b recorded. *)
Definition rematch_room : Game :=
  {| game_code := "ROOM42"; hostId := "a"; players := ["a"; "b"];
     gameState := Some (serialize (play [0; 0; 1; 1; 2; 2; 3]));
     game_currentPlayer := 1; createdAt := 0;
     rematchRequests := {["b"]} |}.

Definition rematch_server : Server :=
  {| games := {[ "ROOM42" := rematch_room ]};
     channels := {[ "ROOM42" := {["a"; "b"]} ]} |}.

(** The server after socket a created a room (code ABCDEF under the
    [cycling] draws) and socket b joined it. *)
Definition empty_server : Server := {| games := ∅; channels := ∅ |}.

Definition server_a : Server :=
  match on_create 1 empty_server cycling 0 "a" 0 with
  | Some (srv, _, _) => srv
  | None => empty_server
  end.

Definition server_ab : Server := (on_join server_a "b" "ABCDEF").1.

(** ... and a played a first move, whose state the server cached. *)
Definition server_playing : Server :=
  (on_move server_ab "a" "ABCDEF" 3 5 (Some (serialize (play [3])))).1.

(** ** Further functions of the sources

    The rest of the game logic, the client-side turn helpers, the
    remaining server functions and the per-connection state of the
    server's handlers. *)

Definition getPlayerColor (player : Z) : string :=
  if player =? PLAYER_RED then "red" else "yellow".

(** The colour the client passes to its drop animation right after a
    successful [makeMove], in [handleMove] and in [handleOpponentMove]:
    [getPlayerColor(currentPlayer === PLAYER_RED ? PLAYER_YELLOW : PLAYER_RED)]. *)
Definition dropColor (this : GameState) : string :=
  getPlayerColor
    (if currentPlayer this =? PLAYER_RED then PLAYER_YELLOW else PLAYER_RED).

(** The pieces on the whole board, column by column. *)
Definition total_pieces (board : Board) : Z :=
  foldr (λ col acc, pieces board col + acc) 0 (seqZ 0 COLS).

(** The player of the move number [i] (from 0) when turns alternate from red. *)
Definition mover_at (i : nat) : Z :=
  if Nat.even i then PLAYER_RED else PLAYER_YELLOW.

(** [NetworkManager]: [playerNumber] is [null] until a room is entered. *)
Definition isMyTurn (playerNumber : option Z) (currentPlayer : Z) : bool :=
  is_val playerNumber currentPlayer.

Definition getOpponentNumber (playerNumber : option Z) : Z :=
  if is_val playerNumber 1 then 2 else 1.

(** [LocalMultiplayer.switchPlayer()], as the new [playerNumber]. *)
Definition switchPlayer (playerNumber : Z) : Z :=
  if playerNumber =? 1 then 2 else 1.

(** The client-side [generateGameCode()]: one round of six draws, no
    registry to compare with. *)
Definition generateGameCode_client (rand : Random) (pos : nat) : string * nat :=
  (draw_code rand pos 6 "", (pos + 6)%nat).

(** [Array(ROWS).fill(null).map(() => Array(COLS).fill(EMPTY))] on the
    store: the callback allocates one new row per index, then [map] its
    result array.  (The array of nulls that [map] reads is dropped.) *)
Fixpoint new_rows (σ : Store) (n : nat) : Store * list nat :=
  match n with
  | O => (σ, [])
  | S k =>
      let '(σ1, l) := alloc σ (Row (replicate (Z.to_nat COLS) EMPTY)) in
      let '(σ2, rest) := new_rows σ1 k in
      (σ2, l :: rest)
  end.

Definition createBoard_st (σ : Store) : Store * nat :=
  let '(σ1, rows) := new_rows σ (Z.to_nat ROWS) in
  alloc σ1 (Grid rows).

(** [getGame(code)]: [games.get(code) || null]. *)
Definition getGame (srv : Server) (code : string) : option Game :=
  games srv !! code.

(** [deleteGame(code)]. *)
Definition deleteGame (srv : Server) (code : string) : Server :=
  mkServer (delete code (games srv)) (channels srv).

(** [cleanupOldGames()] with [Date.now()] given as [now]: every room
    created before [now - 60 * 60 * 1000] is deleted from the registry.
    Nothing else is touched: no socket leaves a channel. *)
Definition cleanupOldGames (srv : Server) (now : Z) : Server :=
  let oneHourAgo := now - 60 * 60 * 1000 in
  mkServer (filter (λ kv, ¬ createdAt kv.2 < oneHourAgo) (games srv))
           (channels srv).

(** What the transport does when a connection closes, before the
    [disconnect] handler runs: the socket leaves every channel. *)
Definition drop_socket (srv : Server) (socket : SocketId) : Server :=
  mkServer (games srv) ((λ members, members ∖ {[socket]}) <$> channels srv).

(** The server with the variable [currentGameCode] of each connection
    (absent: [null]). *)
Record Relay := mkRelay {
  server : Server;
  current : gmap SocketId string
}.

(** Whether [game:join] gets past its two checks. *)
Definition join_accepted (srv : Server) (gameCode : string) : bool :=
  match games srv !! gameCode with
  | Some game => negb (bool_decide (2 ≤ length (players game))%nat)
  | None => false
  end.


(** [game:join] with [currentGameCode = gameCode] on success. *)
Definition conn_join (r : Relay) (socket : SocketId) (gameCode : string)
    : Relay * list Emit :=
  let '(srv, out) := on_join (server r) socket gameCode in
  (mkRelay srv (if join_accepted (server r) gameCode
                then <[socket := gameCode]> (current r) else current r),
   out).

(** [game:leave]: [leaveGame] on the code sent; [currentGameCode] stays. *)
Definition conn_leave (r : Relay) (socket : SocketId) (gameCode : string)
    : Relay * list Emit :=
  let '(srv, out) := leaveGame (server r) socket gameCode in
  (mkRelay srv (current r), out).

(** [disconnect]: [leaveGame] on [currentGameCode] when it is set (neither
    [null] nor the empty string, which [if (currentGameCode)] takes for
    false); the connection and its variable are gone afterwards. *)
Definition conn_disconnect (r : Relay) (socket : SocketId) : Relay * list Emit :=
  let srv := drop_socket (server r) socket in
  match current r !! socket with
  | Some gameCode =>
      if bool_decide (gameCode = EmptyString) then
        (mkRelay srv (delete socket (current r)), [])
      else
        let '(srv', out) := leaveGame srv socket gameCode in
        (mkRelay srv' (delete socket (current r)), out)
  | None => (mkRelay srv (delete socket (current r)), [])
  end.

(** Server states after any sequence of handler calls from the empty
    registry.  With [rough = false] only the handlers of create, join,
    leave, move and rematch run; with [rough = true] rooms may also expire
    and connections close. *)
Inductive runs (rough : bool) : Server → Prop :=
  | runs_start : runs rough empty_server
  | runs_create srv fuel rand pos socket now srv' out pos' :
      runs rough srv →
      on_create fuel srv rand pos socket now = Some (srv', out, pos') →
      runs rough srv'
  | runs_join srv socket gameCode :
      runs rough srv → runs rough (on_join srv socket gameCode).1
  | runs_leave srv socket gameCode :
      runs rough srv → runs rough (leaveGame srv socket gameCode).1
  | runs_move srv socket gameCode column row state :
      runs rough srv → runs rough (on_move srv socket gameCode column row state).1
  | runs_rematch srv socket gameCode :
      runs rough srv → runs rough (on_rematch srv socket gameCode).1
  | runs_cleanup srv now :
      rough = true → runs rough srv → runs rough (cleanupOldGames srv now)
  | runs_drop srv socket :
      rough = true → runs rough srv → runs rough (drop_socket srv socket).

(** ** What holds of every state of a game

    The three parts of the invariant proved of the states reached from a
    fresh game by calls of [makeMove]. *)

(** The history lists the pieces on the board: as many entries as pieces,
    players alternating from red, each entry's cell holding its player. *)
Definition history_ok (s : GameState) : Prop :=
  Z.of_nat (length (moveHistory s)) = total_pieces (board s) ∧
  ∀ i m, moveHistory s !! i = Some m →
    move_player m = mover_at i ∧
    cell (board s) (move_row m) (move_col m) = Some (move_player m).

(** The flags agree with each other and with whose turn it is. *)
Definition status_ok (s : GameState) : Prop :=
  if gameOver s then
    (∃ n, length (moveHistory s) = S n ∧ currentPlayer s = mover_at n) ∧
    ((winner s = Some (currentPlayer s) ∧ isDraw s = false ∧
      won (checkWin (board s) (currentPlayer s)) = true ∧
      winningCells s = cells (checkWin (board s) (currentPlayer s))) ∨
     (winner s = None ∧ isDraw s = true ∧ winningCells s = [] ∧
      isBoardFull (board s) = true))
  else
    currentPlayer s = mover_at (length (moveHistory s)) ∧
    winner s = None ∧ isDraw s = false ∧ winningCells s = [].

(** Only the recorded winner has four in a row. *)
Definition lines_ok (s : GameState) : Prop :=
  ∀ p, is_player p → four_in_a_row (board s) p → winner s = Some p.

(** ** What holds of every state of the server *)

(** A room is filed under its own code, has one or two players and at
    most one rematch request on record. *)
Definition room_ok (code : string) (g : Game) : Prop :=
  game_code g = code ∧
  (1 ≤ length (players g) ≤ 2)%nat ∧
  (size (rematchRequests g) ≤ 1)%nat.

Definition registry_ok (srv : Server) : Prop :=
  ∀ code g, games srv !! code = Some g → room_ok code g.

(** The channel of a room holds exactly its players, and the channel of a
    code without a room is empty. *)
Definition channels_ok (srv : Server) : Prop :=
  ∀ code, channel srv code =
          match games srv !! code with
          | Some g => list_to_set (players g)
          | None => ∅
          end.



(** Sockets a and b in the room ABCDEF, each with it as [currentGameCode]. *)
Definition relay_playing : Relay :=
  {| server := server_playing;
     current := {[ "a" := "ABCDEF"; "b" := "ABCDEF" ]} |}.

(** A room with its cached game state and its [currentPlayer] field
    blanked, and the server with every room so treated. *)
Definition blank (game : Game) : Game :=
  set_game_currentPlayer 1 (set_gameState None game).

Definition blank_server (srv : Server) : Server :=
  mkServer (blank <$> games srv) (channels srv).

(** * Properties *)

Example play_red_wins_bottom_row :
  let s := play [0; 0; 1; 1; 2; 2; 3] in
  winner s = Some PLAYER_RED ∧ gameOver s = true ∧
  winningCells s = [mkCell 5 0; mkCell 5 1; mkCell 5 2; mkCell 5 3].
Proof. vm_compute. done. Qed.

(** ** Arrays and cells *)

Section arrays.
Context {A : Type}.
Implicit Types (arr : list A) (i : Z).

Lemma at_Some arr i x :
  at_ arr i = Some x ↔ 0 ≤ i ∧ arr !! Z.to_nat i = Some x.
Proof.
  unfold at_. destruct (Z.ltb_spec i 0).
  - split; [done | lia].
  - split; [done | by intros [_ ?]].
Qed.

Lemma at_is_Some arr i :
  is_Some (at_ arr i) ↔ 0 ≤ i < Z.of_nat (length arr).
Proof.
  unfold at_. destruct (Z.ltb_spec i 0).
  - split; [by intros [? ?] | lia].
  - rewrite lookup_lt_is_Some. lia.
Qed.

Lemma at_of_nat arr (n : nat) : at_ arr (Z.of_nat n) = arr !! n.
Proof.
  unfold at_. destruct (Z.ltb_spec (Z.of_nat n) 0); [lia |].
  by rewrite Nat2Z.id.
Qed.

Lemma at_None_neg arr i : i < 0 → at_ arr i = None.
Proof. unfold at_. by destruct (Z.ltb_spec i 0); [| lia]. Qed.
End arrays.

Lemma is_val_true x v : is_val x v = true ↔ x = Some v.
Proof.
  destruct x as [y|]; simpl; [| done].
  rewrite Z.eqb_eq. split; congruence.
Qed.

Lemma is_val_false x v : is_val x v = false ↔ x ≠ Some v.
Proof. rewrite <- is_val_true. by destruct (is_val x v). Qed.

Lemma cell_Some board row col v :
  cell board row col = Some v ↔
  ∃ r, at_ board row = Some r ∧ at_ r col = Some v.
Proof.
  unfold cell. destruct (at_ board row) as [r|]; simpl.
  - split; [eauto | by intros (? & [= <-] & ?)].
  - split; [done | by intros (? & ? & ?)].
Qed.

Lemma wf_cell_is_Some board row col :
  wf_board board →
  is_Some (cell board row col) ↔ (0 ≤ row < ROWS ∧ 0 ≤ col < COLS).
Proof.
  intros [Hlen Hrows]. unfold cell. split.
  - intros [v Hv]. destruct (at_ board row) as [r|] eqn:Hr; [| done].
    simpl in Hv. assert (is_Some (at_ board row)) as Hr' by eauto.
    apply at_is_Some in Hr'. apply at_Some in Hr as [_ Hr].
    rewrite Forall_lookup in Hrows. specialize (Hrows _ _ Hr).
    assert (is_Some (at_ r col)) as Hc by eauto.
    apply at_is_Some in Hc. unfold ROWS, COLS in *. lia.
  - intros [Hr Hc].
    destruct (proj2 (at_is_Some board row)) as [r Hrow].
    { unfold ROWS in *. lia. }
    rewrite Hrow. simpl. apply at_is_Some.
    apply at_Some in Hrow as [_ Hrow].
    rewrite Forall_lookup in Hrows. rewrite (Hrows _ _ Hrow).
    unfold COLS in *. lia.
Qed.

Lemma wf_createBoard : wf_board createBoard.
Proof. split; [done | by repeat constructor]. Qed.

Lemma cloneBoard_id board : cloneBoard board = board.
Proof.
  unfold cloneBoard. induction board as [|r b IH]; [done |].
  by rewrite fmap_cons, IH.
Qed.

Lemma wf_set_cell board row col v : wf_board board → wf_board (set_cell board row col v).
Proof.
  intros [Hlen Hrows]. unfold set_cell. split.
  - by rewrite length_alter.
  - rewrite Forall_lookup in Hrows. apply Forall_lookup. intros i r.
    rewrite list_lookup_alter. case_decide; [subst | by apply Hrows].
    destruct (board !! Z.to_nat row) as [r0|] eqn:Hr0; [| done].
    intros [= <-]. rewrite length_insert. eauto.
Qed.

(** Reading a board after a write to an existing cell. *)
Lemma cell_set_cell board row col v row' col' :
  is_Some (cell board row col) →
  cell (set_cell board row col v) row' col' =
  if bool_decide (row' = row ∧ col' = col) then Some v else cell board row' col'.
Proof.
  intros [w Hw]. apply cell_Some in Hw as (r & Hr & Hc).
  apply at_Some in Hr as [Hrow Hr]. apply at_Some in Hc as [Hcol Hc].
  unfold cell, set_cell, at_.
  destruct (Z.ltb_spec row' 0) as [|Hrow'].
  { rewrite bool_decide_eq_false_2; [done | lia]. }
  rewrite list_lookup_alter.
  destruct (decide (Z.to_nat row = Z.to_nat row')) as [Heq|Hne].
  - assert (row' = row) as -> by lia. rewrite Hr. simpl.
    destruct (Z.ltb_spec col' 0) as [|Hcol'].
    { rewrite bool_decide_eq_false_2; [done | lia]. }
    destruct (decide (col' = col)) as [->|Hcne].
    + rewrite bool_decide_eq_true_2 by done.
      apply list_lookup_insert_eq. by eapply lookup_lt_Some.
    + rewrite bool_decide_eq_false_2 by tauto.
      apply list_lookup_insert_ne. lia.
  - rewrite bool_decide_eq_false_2; [done | lia].
Qed.

(** ** The bottom-up scan *)

Lemma getLowestEmptyRow_from_spec board col n :
  let r := getLowestEmptyRow_from board col n in
  (r = -1 ∧ ∀ k, 0 ≤ k < Z.of_nat n → cell board k col ≠ Some EMPTY) ∨
  (0 ≤ r < Z.of_nat n ∧ cell board r col = Some EMPTY ∧
   ∀ k, r < k < Z.of_nat n → cell board k col ≠ Some EMPTY).
Proof.
  induction n as [|n IH]; simpl.
  - left. split; [done | lia].
  - destruct (is_val (cell board (Z.of_nat n) col) EMPTY) eqn:Hv.
    + right. apply is_val_true in Hv. split_and!; [lia | lia | done | lia].
    + apply is_val_false in Hv.
      assert (∀ k, k = Z.of_nat n → cell board k col ≠ Some EMPTY) as Hn
        by (by intros ? ->).
      destruct IH as [[-> Hall] | (Hr & Hcell & Habove)].
      * left. split; [done |]. intros k Hk.
        destruct (decide (k = Z.of_nat n)); [by apply Hn | apply Hall; lia].
      * right. split_and!; [lia | lia | done |]. intros k Hk.
        destruct (decide (k = Z.of_nat n)); [by apply Hn | apply Habove; lia].
Qed.

Lemma getLowestEmptyRow_spec board col :
  let r := getLowestEmptyRow board col in
  (r = -1 ∧ ∀ k, 0 ≤ k < ROWS → cell board k col ≠ Some EMPTY) ∨
  (0 ≤ r < ROWS ∧ cell board r col = Some EMPTY ∧
   ∀ k, r < k < ROWS → cell board k col ≠ Some EMPTY).
Proof. apply (getLowestEmptyRow_from_spec board col (Z.to_nat ROWS)). Qed.

(** The cell found by the scan exists: the write of [dropPiece] is in range. *)
Lemma getLowestEmptyRow_cell board col :
  getLowestEmptyRow board col ≠ -1 →
  cell board (getLowestEmptyRow board col) col = Some EMPTY.
Proof.
  intros Hne. destruct (getLowestEmptyRow_spec board col) as [[? _] | (_ & ? & _)]; done.
Qed.

(** ** Columns and piece counts *)

Lemma omap_cons {A B : Type} (f : A → option B) (x : A) (l : list A) :
  omap f (x :: l) = match f x with Some y => y :: omap f l | None => omap f l end.
Proof. done. Qed.

Lemma omap_all_lookup {A B : Type} (f : A → option B) (l : list A) (k : nat) :
  Forall (λ x, is_Some (f x)) l → omap f l !! k = l !! k ≫= f.
Proof.
  intros Hall. revert k. induction Hall as [|x l [y Hy] _ IH]; intros k; [done |].
  simpl. rewrite Hy. destruct k as [|k]; simpl; [done | apply IH].
Qed.

Lemma omap_all_length {A B : Type} (f : A → option B) (l : list A) :
  Forall (λ x, is_Some (f x)) l → length (omap f l) = length l.
Proof.
  induction 1 as [|x l [y Hy] _ IH]; [done |].
  simpl. rewrite Hy. simpl. f_equal. apply IH.
Qed.

Lemma wf_rows_have_col board col :
  wf_board board → 0 ≤ col < COLS →
  Forall (λ r, is_Some (at_ r col)) board.
Proof.
  intros [_ Hrows] Hcol. eapply Forall_impl; [exact Hrows |].
  intros r Hr. apply at_is_Some. simpl in Hr. rewrite Hr. unfold COLS in *. lia.
Qed.

Lemma column_lookup board col (k : nat) :
  wf_board board → 0 ≤ col < COLS →
  column board col !! k = cell board (Z.of_nat k) col.
Proof.
  intros Hwf Hcol. unfold column, cell.
  rewrite omap_all_lookup by by apply wf_rows_have_col.
  by rewrite at_of_nat.
Qed.

Lemma column_length board col :
  wf_board board → 0 ≤ col < COLS →
  length (column board col) = Z.to_nat ROWS.
Proof.
  intros Hwf Hcol. unfold column.
  rewrite omap_all_length by by apply wf_rows_have_col.
  apply Hwf.
Qed.

(** A list that is [EMPTY] on its first [n] positions and nowhere else. *)
Lemma count_below (l : list Z) (n : nat) :
  (n ≤ length l)%nat →
  (∀ k v, (k < n)%nat → l !! k = Some v → v = EMPTY) →
  (∀ k v, (n ≤ k)%nat → l !! k = Some v → v ≠ EMPTY) →
  length (filter (λ v, v ≠ EMPTY) l) = (length l - n)%nat.
Proof.
  revert n. induction l as [|x l IH]; intros n Hn Hlow Hhigh; [done |].
  destruct n as [|n].
  - rewrite filter_cons_True by (by apply (Hhigh 0%nat); [lia |]).
    simpl. rewrite (IH 0%nat); [lia | lia | intros; lia |].
    intros k v _ Hk. apply (Hhigh (S k)); [lia | done].
  - rewrite filter_cons_False by (intros Hx; apply Hx; by apply (Hlow 0%nat); [lia |]).
    simpl in *. apply IH; [lia | |].
    + intros k v Hk Hv. apply (Hlow (S k)); [lia | done].
    + intros k v Hk Hv. apply (Hhigh (S k)); [lia | done].
Qed.

(** On a board that obeys gravity the scan lands just above the pieces. *)
Lemma getLowestEmptyRow_pieces board col :
  wf_board board → gravity board → 0 ≤ col < COLS →
  getLowestEmptyRow board col = ROWS - 1 - pieces board col.
Proof.
  intros Hwf Hgrav Hcol.
  pose proof (column_length board col Hwf Hcol) as Hlen.
  unfold pieces.
  destruct (getLowestEmptyRow_spec board col) as [[-> Hall] | (Hr & Hcell & Habove)].
  - rewrite (count_below _ 0%nat); [rewrite Hlen; unfold ROWS; lia | lia | intros; lia |].
    intros k v _ Hk. rewrite column_lookup in Hk by done.
    intros ->. eapply Hall; [| exact Hk].
    assert (is_Some (cell board (Z.of_nat k) col)) as Hs by eauto.
    apply wf_cell_is_Some in Hs; [lia | done].
  - set (r := getLowestEmptyRow board col) in *.
    rewrite (count_below _ (Z.to_nat (r + 1))).
    + rewrite Hlen. unfold ROWS in *. lia.
    + rewrite Hlen. unfold ROWS in *. lia.
    + intros k v Hk Hv. rewrite column_lookup in Hv by done.
      destruct (decide (v = EMPTY)) as [|Hne]; [done | exfalso].
      destruct (decide (Z.of_nat k = r)) as [Heq|Hlt].
      * rewrite Heq in Hv. congruence.
      * apply (Hgrav (Z.of_nat k) r col); [lia | by exists v | done].
    + intros k v Hk Hv.
      apply lookup_lt_Some in Hv as Hlt. rewrite Hlen in Hlt.
      rewrite column_lookup in Hv by done.
      intros ->. eapply (Habove (Z.of_nat k)); [| exact Hv].
      unfold ROWS in *. lia.
Qed.

Lemma pieces_range board col :
  wf_board board → 0 ≤ col < COLS → 0 ≤ pieces board col ≤ ROWS.
Proof.
  intros Hwf Hcol. unfold pieces.
  pose proof (length_filter (λ v, v ≠ EMPTY) (column board col)) as Hle.
  rewrite column_length in Hle by done. unfold ROWS in *. lia.
Qed.

(** A column out of range holds no cell at all. *)
Lemma pieces_out_of_range board col :
  wf_board board → col < 0 ∨ COLS ≤ col → pieces board col = 0.
Proof.
  intros [_ Hrows] Hcol. unfold pieces, column.
  assert (omap (λ r, at_ r col) board = []) as ->; [| done].
  induction Hrows as [|r b Hr _ IH]; [done |].
  rewrite omap_cons, IH.
  destruct (at_ r col) as [v|] eqn:Hv; [| done].
  assert (is_Some (at_ r col)) as Hs by eauto.
  apply at_is_Some in Hs. rewrite Hr in Hs. unfold COLS in *. lia.
Qed.

(** Without gravity: a column of [ROWS] pieces has no [EMPTY] cell. *)
Lemma pieces_full_scan board col :
  wf_board board → 0 ≤ col < COLS → pieces board col = ROWS →
  getLowestEmptyRow board col = -1.
Proof.
  intros Hwf Hcol Hfull.
  destruct (getLowestEmptyRow_spec board col) as [[? _] | (Hr & Hcell & _)]; [done |].
  exfalso. set (r := getLowestEmptyRow board col) in *.
  unfold pieces in Hfull.
  pose proof (column_length board col Hwf Hcol) as Hlen.
  assert (column board col !! Z.to_nat r = Some EMPTY) as Hk.
  { rewrite column_lookup by done. by rewrite Z2Nat.id by lia. }
  apply take_drop_middle in Hk. rewrite <- Hk in Hfull, Hlen.
  rewrite filter_app, filter_cons_False in Hfull by (by intros ?).
  rewrite length_app in Hfull, Hlen. simpl in Hlen.
  pose proof (length_filter (λ v, v ≠ EMPTY) (take (Z.to_nat r) (column board col))).
  pose proof (length_filter (λ v, v ≠ EMPTY) (drop (S (Z.to_nat r)) (column board col))).
  unfold ROWS in *. lia.
Qed.

(** ** [dropPiece] on board values *)

Lemma dropPiece_out_of_range board col player :
  col < 0 ∨ COLS ≤ col →
  dropPiece board col player = mkDrop false (-1) board.
Proof.
  intros Hcol. unfold dropPiece.
  destruct (Z.ltb_spec col 0), (Z.geb_spec col COLS); simpl; done || lia.
Qed.

Lemma dropPiece_in_range board col player :
  0 ≤ col < COLS →
  dropPiece board col player =
    let row := getLowestEmptyRow board col in
    if row =? -1 then mkDrop false (-1) board
    else mkDrop true row (set_cell board row col player).
Proof.
  intros Hcol. unfold dropPiece.
  destruct (Z.ltb_spec col 0), (Z.geb_spec col COLS); simpl; try lia.
  by rewrite cloneBoard_id.
Qed.

Lemma dropPiece_failure board col player :
  drop_success (dropPiece board col player) = false →
  dropPiece board col player = mkDrop false (-1) board.
Proof.
  destruct (decide (0 ≤ col < COLS)) as [Hcol|Hcol].
  - rewrite dropPiece_in_range by done. simpl.
    by destruct (getLowestEmptyRow board col =? -1).
  - intros _. apply dropPiece_out_of_range. lia.
Qed.

Lemma dropPiece_success board col player :
  drop_success (dropPiece board col player) = true →
  0 ≤ col < COLS ∧
  cell board (getLowestEmptyRow board col) col = Some EMPTY ∧
  dropPiece board col player =
    mkDrop true (getLowestEmptyRow board col)
      (set_cell board (getLowestEmptyRow board col) col player).
Proof.
  destruct (decide (0 ≤ col < COLS)) as [Hcol|Hcol].
  - rewrite dropPiece_in_range by done. simpl.
    destruct (Z.eqb_spec (getLowestEmptyRow board col) (-1)) as [|Hne]; [done |].
    intros _. split_and!; [lia | lia | by apply getLowestEmptyRow_cell | done].
  - rewrite dropPiece_out_of_range by lia. done.
Qed.

(** ** [makeMove]: the four ways a call can end *)

Lemma makeMove_cases this col :
  let d := dropPiece (board this) col (currentPlayer this) in
  let cur := currentPlayer this in
  let hist := moveHistory this ++ [mkMove col (drop_row d) cur] in
  let w := checkWin (drop_board d) cur in
  ((gameOver this = true ∨ drop_success d = false) ∧
   makeMove this col = (this, move_failed)) ∨
  (gameOver this = false ∧ drop_success d = true ∧ won w = true ∧
   makeMove this col =
     (mkState (drop_board d) cur (Some cur) (cells w) (isDraw this) hist true,
      mkResult true (drop_row d) (Some cur) (cells w) false)) ∨
  (gameOver this = false ∧ drop_success d = true ∧ won w = false ∧
   isBoardFull (drop_board d) = true ∧
   makeMove this col =
     (mkState (drop_board d) cur (winner this) (winningCells this) true hist true,
      mkResult true (drop_row d) None [] true)) ∨
  (gameOver this = false ∧ drop_success d = true ∧ won w = false ∧
   isBoardFull (drop_board d) = false ∧
   makeMove this col =
     (mkState (drop_board d) (getOtherPlayer cur) (winner this) (winningCells this)
        (isDraw this) hist false,
      mkResult true (drop_row d) None [] false)).
Proof.
  intros d cur hist w. unfold makeMove.
  destruct (gameOver this) eqn:Hover; [left; auto |].
  fold d. destruct (drop_success d) eqn:Hd; simpl; [| left; auto].
  right. fold cur hist w.
  destruct (won w) eqn:Hw; [left; auto |].
  right. destruct (isBoardFull (drop_board d)) eqn:Hfull; [left; auto | right].
  split_and!; try done. unfold set_currentPlayer, push_moveHistory, set_board. simpl.
  by rewrite Hover.
Qed.

Lemma makeMove_failed_state this col :
  res_success (makeMove this col).2 = false → makeMove this col = (this, move_failed).
Proof.
  destruct (makeMove_cases this col)
    as [[_ ->] | [(_ & _ & _ & ->) | [(_ & _ & _ & _ & ->) | (_ & _ & _ & _ & ->)]]];
    done.
Qed.

Lemma makeMove_board this col :
  res_success (makeMove this col).2 = true →
  drop_success (dropPiece (board this) col (currentPlayer this)) = true ∧
  board (makeMove this col).1 =
    drop_board (dropPiece (board this) col (currentPlayer this)).
Proof.
  destruct (makeMove_cases this col)
    as [[_ ->] | [(_ & ? & _ & ->) | [(_ & ? & _ & _ & ->) | (_ & ? & _ & _ & ->)]]];
    done.
Qed.

(** A failed call changes no cell; a successful one writes the mover's
    piece on the cell the scan found and nothing else. *)
Lemma makeMove_board_cells this col :
  board (makeMove this col).1 = board this ∨
  (res_success (makeMove this col).2 = true ∧
   0 ≤ col < COLS ∧
   cell (board this) (getLowestEmptyRow (board this) col) col = Some EMPTY ∧
   board (makeMove this col).1 =
     set_cell (board this) (getLowestEmptyRow (board this) col) col (currentPlayer this)).
Proof.
  destruct (res_success (makeMove this col).2) eqn:Hres.
  - right. apply makeMove_board in Hres as [Hd ->].
    apply dropPiece_success in Hd as (? & ? & ->). done.
  - left. by rewrite makeMove_failed_state.
Qed.

Lemma makeMove_currentPlayer this col :
  currentPlayer (makeMove this col).1 = currentPlayer this ∨
  currentPlayer (makeMove this col).1 = getOtherPlayer (currentPlayer this).
Proof.
  destruct (makeMove_cases this col)
    as [[_ ->] | [(_ & _ & _ & ->) | [(_ & _ & _ & _ & ->) | (_ & _ & _ & _ & ->)]]];
    auto.
Qed.

(** ** Reachable states *)

Lemma getOtherPlayer_player p : is_player (getOtherPlayer p).
Proof. unfold getOtherPlayer. destruct (p =? PLAYER_RED); [by right | by left]. Qed.

Lemma getOtherPlayer_differs p : getOtherPlayer p ≠ p.
Proof.
  unfold getOtherPlayer. destruct (Z.eqb_spec p PLAYER_RED) as [->|]; [done | congruence].
Qed.

Lemma gravity_createBoard : gravity createBoard.
Proof.
  intros row row' col _ (v & Hv & Hne). exfalso. apply Hne.
  apply cell_Some in Hv as (r & Hr & Hc).
  apply at_Some in Hr as [_ Hr]. apply at_Some in Hc as [_ Hc].
  unfold createBoard in Hr. apply lookup_replicate in Hr as [-> _].
  by apply lookup_replicate in Hc as [-> _].
Qed.

(** Dropping a piece where the scan says keeps the pieces stacked. *)
Lemma gravity_set_cell board col player :
  wf_board board → gravity board → player ≠ EMPTY →
  cell board (getLowestEmptyRow board col) col = Some EMPTY →
  gravity (set_cell board (getLowestEmptyRow board col) col player).
Proof.
  intros Hwf Hgrav Hp Hcell row row' c Hlt (v & Hv & Hne).
  set (r0 := getLowestEmptyRow board col) in *.
  assert (is_Some (cell board r0 col)) as Hs by eauto.
  rewrite cell_set_cell in Hv |- * by done.
  destruct (decide (row' = r0 ∧ c = col)) as [Hnew'|Hnew'].
  { rewrite bool_decide_eq_true_2 by done. congruence. }
  rewrite bool_decide_eq_false_2 by done.
  destruct (decide (row = r0 ∧ c = col)) as [Hnew|Hnew].
  - clear Hv. destruct Hnew as [-> ->].
    destruct (getLowestEmptyRow_spec board col) as [[Hr _] | (_ & _ & Habove)].
    + fold r0 in Hr. apply wf_cell_is_Some in Hs; [unfold ROWS in *; lia | done].
    + fold r0 in Habove. destruct (decide (row' < ROWS)); [apply Habove; lia |].
      intros Hc. assert (is_Some (cell board row' col)) as Hs' by eauto.
      apply wf_cell_is_Some in Hs'; [lia | done].
  - rewrite bool_decide_eq_false_2 in Hv by done.
    apply (Hgrav row row' c); [done | by exists v].
Qed.

Lemma reachable_invariant s :
  reachable s →
  wf_board (board s) ∧ gravity (board s) ∧ is_player (currentPlayer s).
Proof.
  induction 1 as [|s col _ (Hwf & Hgrav & Hp)].
  - split_and!; [apply wf_createBoard | apply gravity_createBoard | by left].
  - split_and!.
    + destruct (makeMove_board_cells s col) as [-> | (_ & _ & _ & ->)]; [done |].
      by apply wf_set_cell.
    + destruct (makeMove_board_cells s col) as [-> | (_ & _ & Hc & ->)]; [done |].
      apply gravity_set_cell; try done.
      destruct Hp as [-> | ->]; done.
    + destruct (makeMove_currentPlayer s col) as [-> | ->]; [done |].
      apply getOtherPlayer_player.
Qed.

Lemma reachable_play cols : reachable (play cols).
Proof.
  unfold play. induction cols as [|col cols IH] using rev_ind.
  - apply reachable_reset.
  - rewrite foldl_app. simpl. by apply reachable_move.
Qed.

Lemma forallb_seqZ (f : Z → bool) (lo n x : Z) :
  forallb f (seqZ lo n) = true → lo ≤ x < lo + n → f x = true.
Proof.
  intros Hall Hx. rewrite forallb_forall in Hall. apply Hall.
  apply list_elem_of_In, elem_of_seqZ. lia.
Qed.

(** The executable check is sound on well-formed boards. *)
Lemma gravity_check_sound board :
  wf_board board → gravity_check board = true → gravity board.
Proof.
  intros Hwf Hchk row row' col Hlt (v & Hv & Hne) Hc.
  assert (is_Some (cell board row col)) as [Hr Hcol]%wf_cell_is_Some by eauto; [| done].
  assert (is_Some (cell board row' col)) as [Hr' _]%wf_cell_is_Some by eauto; [| done].
  unfold gravity_check in Hchk.
  apply (forallb_seqZ _ _ _ col) in Hchk; [| lia].
  apply (forallb_seqZ _ _ _ row) in Hchk; [| lia].
  apply (forallb_seqZ _ _ _ row') in Hchk; [| lia].
  unfold occupied_b in Hchk. rewrite Hv, Hc in Hchk.
  destruct (Z.ltb_spec row row'); [| lia].
  destruct (Z.eqb_spec v EMPTY); [done |].
  done.
Qed.

(** ** Illegal moves *)

(** C1.  On a state whose board is a 6 x 7 grid, if the game is over, or the
    column is outside [0, COLS), or the column already holds [ROWS] pieces,
    then [makeMove] returns the failure result (success false, row -1, no
    winner, no winning cells, no draw) and the state after the call is the
    state before it, field for field. *)
Theorem makeMove_rejects_illegal this col :
  wf_board (board this) →
  gameOver this = true ∨ col < 0 ∨ COLS ≤ col ∨ pieces (board this) col = ROWS →
  makeMove this col = (this, mkResult false (-1) None [] false).
Proof.
  intros Hwf Hcase.
  destruct (makeMove_cases this col) as [[_ ->] | Hok]; [done | exfalso].
  assert (gameOver this = false ∧
          drop_success (dropPiece (board this) col (currentPlayer this)) = true)
    as [Hover Hd] by (destruct Hok as [(? & ? & _) | [(? & ? & _) | (? & ? & _)]]; done).
  apply dropPiece_success in Hd as (Hcol & Hcell & _).
  destruct Hcase as [Hg | [Hlo | [Hhi | Hfull]]]; [congruence | lia | lia |].
  apply pieces_full_scan in Hfull; [| done | done].
  rewrite Hfull in Hcell.
  assert (is_Some (cell (board this) (-1) col)) as Hs by eauto.
  apply wf_cell_is_Some in Hs; [lia | done].
Qed.

Lemma makeMove_rejects_illegal_witness :
  makeMove (play [3; 3; 3; 3; 3; 3]) 3 =
    (play [3; 3; 3; 3; 3; 3], mkResult false (-1) None [] false).
Proof.
  apply (makeMove_rejects_illegal (play [3; 3; 3; 3; 3; 3]) 3).
  - split; [vm_compute; reflexivity | vm_compute; repeat constructor].
  - right. right. right. vm_compute. reflexivity.
Defined.

(** ** Turn alternation *)

(** C4.  After a successful [makeMove] whose result carries neither a winner
    nor a draw, [currentPlayer] differs from its value before the call: it
    is [getOtherPlayer] of it, hence yellow after red and red after yellow.
    After a failed [makeMove], [currentPlayer] is unchanged.  Such moves are
    the rule, not the exception: a move succeeds without ending the game
    exactly when the game is not over, the piece can be dropped, the mover
    has no line on the new board and the new board is not full; in a fresh
    game every column of the board gives one, handing the turn to yellow, and
    every reply to it hands the turn back to red. *)
Theorem makeMove_turn_alternation this col :
  (res_success (makeMove this col).2 = true ∧
   res_winner (makeMove this col).2 = None ∧
   res_isDraw (makeMove this col).2 = false →
     currentPlayer (makeMove this col).1 ≠ currentPlayer this ∧
     currentPlayer (makeMove this col).1 = getOtherPlayer (currentPlayer this) ∧
     (currentPlayer this = PLAYER_RED →
        currentPlayer (makeMove this col).1 = PLAYER_YELLOW) ∧
     (currentPlayer this = PLAYER_YELLOW →
        currentPlayer (makeMove this col).1 = PLAYER_RED)) ∧
  (res_success (makeMove this col).2 = false →
     currentPlayer (makeMove this col).1 = currentPlayer this) ∧
  (res_success (makeMove this col).2 = true ∧
   res_winner (makeMove this col).2 = None ∧
   res_isDraw (makeMove this col).2 = false ↔
   gameOver this = false ∧
   drop_success (dropPiece (board this) col (currentPlayer this)) = true ∧
   won (checkWin (drop_board (dropPiece (board this) col (currentPlayer this)))
                 (currentPlayer this)) = false ∧
   isBoardFull (drop_board (dropPiece (board this) col (currentPlayer this))) = false) ∧
  (∀ first, 0 ≤ first < COLS →
     res_success (makeMove newGameState first).2 = true ∧
     res_winner (makeMove newGameState first).2 = None ∧
     res_isDraw (makeMove newGameState first).2 = false ∧
     currentPlayer newGameState = PLAYER_RED ∧
     currentPlayer (makeMove newGameState first).1 = PLAYER_YELLOW ∧
     ∀ reply, 0 ≤ reply < COLS →
       res_success (makeMove (makeMove newGameState first).1 reply).2 = true ∧
       currentPlayer (makeMove (makeMove newGameState first).1 reply).1 = PLAYER_RED).
Proof.
  split_and!.
  - destruct (makeMove_cases this col)
      as [[_ ->] | [(_ & _ & _ & ->) | [(_ & _ & _ & _ & ->) | (_ & _ & _ & _ & ->)]]];
      simpl; intros (? & ? & ?); try done.
    split_and!; [apply getOtherPlayer_differs | done | by intros -> | by intros ->].
  - intros Hfail. by rewrite makeMove_failed_state.
  - destruct (makeMove_cases this col)
      as [[Hno ->] | [(Hover & Hd & Hw & ->) | [(Hover & Hd & Hw & Hfull & ->)
                                               | (Hover & Hd & Hw & Hfull & ->)]]];
      simpl.
    + split; [by intros (? & _) |]. intros (Hover & Hd & _).
      destruct Hno; congruence.
    + split; [by intros (_ & ? & _) |]. intros (_ & _ & Hw' & _). congruence.
    + split; [by intros (_ & _ & ?) |]. intros (_ & _ & _ & Hfull'). congruence.
    + done.
  - intros first Hfirst.
    assert (first = 0 ∨ first = 1 ∨ first = 2 ∨ first = 3 ∨ first = 4 ∨
            first = 5 ∨ first = 6)
      as [-> | [-> | [-> | [-> | [-> | [-> | ->]]]]]] by (unfold COLS in *; lia);
      (split_and!; [by vm_compute | by vm_compute | by vm_compute | done
                   | by vm_compute |]);
      intros reply Hreply;
      (assert (reply = 0 ∨ reply = 1 ∨ reply = 2 ∨ reply = 3 ∨ reply = 4 ∨
               reply = 5 ∨ reply = 6)
         as [-> | [-> | [-> | [-> | [-> | [-> | ->]]]]]]
         by (unfold COLS in *; lia)); by vm_compute.
Qed.

Lemma makeMove_turn_alternation_witness :
  res_success (makeMove (play [3; 3; 4]) 4).2 = true ∧
  currentPlayer (play [3; 3; 4]) = PLAYER_YELLOW ∧
  currentPlayer (makeMove (play [3; 3; 4]) 4).1 = PLAYER_RED.
Proof.
  destruct (makeMove_turn_alternation (play [3; 3; 4]) 4)
    as (Hswitch & _ & Hiff & _).
  assert (res_success (makeMove (play [3; 3; 4]) 4).2 = true ∧
          res_winner (makeMove (play [3; 3; 4]) 4).2 = None ∧
          res_isDraw (makeMove (play [3; 3; 4]) 4).2 = false) as Hmove.
  { apply Hiff. vm_compute. split_and!; reflexivity. }
  destruct (Hswitch Hmove) as (_ & _ & _ & Hyellow).
  split_and!.
  - apply Hmove.
  - vm_compute. reflexivity.
  - apply Hyellow. vm_compute. reflexivity.
Defined.

(** ** Serialisation *)

Lemma deserialize_serialize this s : deserialize this (serialize s) = s.
Proof. by destruct s. Qed.

(** C5.  For every state reached from a fresh game by calls of [makeMove],
    terminal states included, loading [serialize s] into any [GameState]
    object yields a state equal to [s] in all seven fields. *)
Theorem serialize_roundtrip_reachable s this :
  reachable s →
  deserialize this (serialize s) = s ∧
  board (deserialize this (serialize s)) = board s ∧
  currentPlayer (deserialize this (serialize s)) = currentPlayer s ∧
  winner (deserialize this (serialize s)) = winner s ∧
  winningCells (deserialize this (serialize s)) = winningCells s ∧
  isDraw (deserialize this (serialize s)) = isDraw s ∧
  moveHistory (deserialize this (serialize s)) = moveHistory s ∧
  gameOver (deserialize this (serialize s)) = gameOver s.
Proof. intros _. by rewrite deserialize_serialize. Qed.

Lemma serialize_roundtrip_reachable_witness :
  gameOver (play [0; 0; 1; 1; 2; 2; 3]) = true ∧
  deserialize (play [4; 4]) (serialize (play [0; 0; 1; 1; 2; 2; 3]))
    = play [0; 0; 1; 1; 2; 2; 3].
Proof.
  split; [vm_compute; reflexivity |].
  apply (serialize_roundtrip_reachable (play [0; 0; 1; 1; 2; 2; 3]) (play [4; 4])).
  apply reachable_play.
Defined.

(** ** Gravity and monotone fill *)

(** C6.  The board of every state reached from a fresh game by calls of
    [makeMove] obeys gravity (no cell below an occupied cell of its column is
    [EMPTY]), and a successful [makeMove] from such a state leaves every
    cell that was not [EMPTY] with the value it had. *)
Theorem reachable_gravity_monotone_fill s :
  reachable s →
  gravity (board s) ∧
  ∀ col, res_success (makeMove s col).2 = true →
    ∀ row c v, cell (board s) row c = Some v → v ≠ EMPTY →
      cell (board (makeMove s col).1) row c = Some v.
Proof.
  intros Hs. split; [by apply reachable_invariant |].
  intros col _ row c v Hv Hne.
  destruct (makeMove_board_cells s col) as [-> | (_ & _ & Hc & ->)]; [done |].
  rewrite cell_set_cell by eauto.
  rewrite bool_decide_eq_false_2; [done |].
  intros [-> ->]. congruence.
Qed.

Lemma reachable_gravity_monotone_fill_witness :
  gravity (board (play [3; 3; 4; 0])) ∧
  cell (board (makeMove (play [3; 3; 4; 0]) 3).1) 4 3 = Some PLAYER_YELLOW.
Proof.
  destruct (reachable_gravity_monotone_fill (play [3; 3; 4; 0]) (reachable_play _))
    as [Hg Hfill].
  split; [exact Hg |].
  apply (Hfill 3); [vm_compute; reflexivity | vm_compute; reflexivity | done].
Defined.

(** ** Valid columns *)

(** C10.  On a 6 x 7 board that obeys gravity, for every integer column and
    every player: the column is listed by [getValidColumns] exactly when
    [dropPiece] succeeds on it, and [isColumnFull] (top cell not [EMPTY])
    is false exactly when [dropPiece] succeeds. *)
Theorem valid_column_iff_drop_succeeds this col player :
  wf_board (board this) → gravity (board this) →
  (col ∈ getValidColumns this ↔
     drop_success (dropPiece (board this) col player) = true) ∧
  (isColumnFull (board this) col = false ↔
     drop_success (dropPiece (board this) col player) = true).
Proof.
  intros Hwf Hgrav.
  assert (isColumnFull (board this) col = false ↔
          drop_success (dropPiece (board this) col player) = true) as Hiff.
  { unfold isColumnFull. rewrite negb_false_iff, is_val_true. split.
    - intros Htop.
      assert (is_Some (cell (board this) 0 col)) as [_ Hcol]%wf_cell_is_Some by eauto;
        [| done].
      rewrite dropPiece_in_range by done. simpl.
      destruct (getLowestEmptyRow_spec (board this) col) as [[_ Hall] | (Hr & _)].
      + exfalso. apply (Hall 0); [unfold ROWS; lia | done].
      + by destruct (Z.eqb_spec (getLowestEmptyRow (board this) col) (-1)); [lia |].
    - intros (Hcol & Hcell & _)%dropPiece_success.
      set (r0 := getLowestEmptyRow (board this) col) in *.
      assert (is_Some (cell (board this) r0 col)) as [Hr0 _]%wf_cell_is_Some by eauto;
        [| done].
      destruct (proj2 (wf_cell_is_Some (board this) 0 col Hwf)) as [v Hv].
      { unfold ROWS. lia. }
      destruct (decide (v = EMPTY)) as [-> | Hne]; [done | exfalso].
      destruct (decide (r0 = 0)) as [Hz | Hnz]; [rewrite Hz in Hcell; congruence |].
      apply (Hgrav 0 r0 col); [lia | by exists v | done]. }
  split; [| done].
  unfold getValidColumns. rewrite list_elem_of_filter, elem_of_seqZ, Hiff.
  split; [tauto |]. intros Hd. split; [done |].
  apply dropPiece_success in Hd. lia.
Qed.

Lemma valid_column_iff_drop_succeeds_witness :
  3 ∈ getValidColumns (play [3; 3; 3]) ∧
  drop_success (dropPiece (board (play [3; 3; 3])) 3 PLAYER_YELLOW) = true.
Proof.
  assert (wf_board (board (play [3; 3; 3]))) as Hwf
    by (split; [vm_compute; reflexivity | vm_compute; repeat constructor]).
  assert (gravity (board (play [3; 3; 3]))) as Hgrav
    by (apply gravity_check_sound; [exact Hwf | vm_compute; reflexivity]).
  destruct (valid_column_iff_drop_succeeds (play [3; 3; 3]) 3 PLAYER_YELLOW Hwf Hgrav)
    as [Hvalid _].
  split; [apply Hvalid |]; vm_compute; reflexivity.
Defined.

(** ** Win detection: the loops against the scanning order *)

Section loops.
Context {X R : Type} (P : X → bool) (W : X → R).

Lemma find_app (l1 l2 : list X) :
  find P (l1 ++ l2) = match find P l1 with Some x => Some x | None => find P l2 end.
Proof.
  induction l1 as [|x l1 IH]; [done |]. simpl. by destruct (P x).
Qed.

(** An inner loop that tests one candidate per index. *)
Lemma for_from_find (L : Z → X) (body : Z → option R) (n : nat) (i : Z) :
  (∀ c, body c = if P (L c) then Some (W (L c)) else None) →
  for_from n i body = W <$> find P (L <$> seqZ i (Z.of_nat n)).
Proof.
  intros Hbody. revert i. induction n as [|n IH]; intros i; [done |].
  rewrite seqZ_cons by lia. simpl for_from. rewrite fmap_cons. simpl find.
  rewrite Hbody. destruct (P (L i)); [done |].
  rewrite IH. do 4 f_equal; lia.
Qed.

(** An outer loop whose body is itself a search. *)
Lemma for_from_bind (ls : Z → list X) (body : Z → option R) (n : nat) (i : Z) :
  (∀ r, body r = W <$> find P (ls r)) →
  for_from n i body = W <$> find P (seqZ i (Z.of_nat n) ≫= ls).
Proof.
  intros Hbody. revert i. induction n as [|n IH]; intros i; [done |].
  rewrite seqZ_cons by lia. simpl for_from. rewrite bind_cons, find_app.
  rewrite Hbody. destruct (find P (ls i)); [done |].
  simpl. rewrite IH. do 4 f_equal; lia.
Qed.

Lemma for_range_nested (L : Z → Z → X) (body : Z → Z → option R)
    (rlo rhi clo chi : Z) :
  (∀ r c, body r c = if P (L r c) then Some (W (L r c)) else None) →
  for_range rlo rhi (λ r, for_range clo chi (body r)) =
  W <$> find P (seqZ rlo (rhi - rlo) ≫= λ r, L r <$> seqZ clo (chi - clo)).
Proof.
  intros Hbody. unfold for_range.
  rewrite (for_from_bind (λ r, L r <$> seqZ clo (Z.of_nat (Z.to_nat (chi - clo))))).
  - destruct (decide (0 ≤ rhi - rlo)), (decide (0 ≤ chi - clo)).
    + by rewrite !Z2Nat.id by done.
    + rewrite (Z2Nat.id (rhi - rlo)) by done.
      replace (Z.to_nat (chi - clo)) with 0%nat by lia.
      by rewrite (seqZ_nil clo (chi - clo)) by lia.
    + replace (Z.to_nat (rhi - rlo)) with 0%nat by lia.
      by rewrite (seqZ_nil rlo (rhi - rlo)) by lia.
    + replace (Z.to_nat (rhi - rlo)) with 0%nat by lia.
      by rewrite (seqZ_nil rlo (rhi - rlo)) by lia.
  - intros r. by apply for_from_find.
Qed.
End loops.

Lemma line_owned_4 board player (c1 c2 c3 c4 : Cell) :
  line_owned board player [c1; c2; c3; c4] =
  owns board player (cell_row c1) (cell_col c1)
  && owns board player (cell_row c2) (cell_col c2)
  && owns board player (cell_row c3) (cell_col c3)
  && owns board player (cell_row c4) (cell_col c4).
Proof. simpl. by rewrite andb_true_r, !andb_assoc. Qed.

Lemma line_from_cells o row col :
  line_from o row col =
  [ mkCell row col;
    mkCell (row + (step o).1) (col + (step o).2);
    mkCell (row + 2 * (step o).1) (col + 2 * (step o).2);
    mkCell (row + 3 * (step o).1) (col + 3 * (step o).2) ].
Proof. unfold line_from. simpl. repeat f_equal; lia. Qed.

Lemma checkHorizontal_scan board player :
  checkHorizontal board player =
  win_with <$> find (line_owned board player) (lines_of Horizontal).
Proof.
  unfold checkHorizontal.
  rewrite (for_range_nested (line_owned board player) win_with (line_from Horizontal)).
  - done.
  - intros r c. rewrite line_from_cells, line_owned_4. simpl.
    by rewrite !Z.add_0_r.
Qed.

Lemma checkVertical_scan board player :
  checkVertical board player =
  win_with <$> find (line_owned board player) (lines_of Vertical).
Proof.
  unfold checkVertical.
  rewrite (for_range_nested (line_owned board player) win_with (line_from Vertical)).
  - done.
  - intros r c. rewrite line_from_cells, line_owned_4. simpl.
    by rewrite !Z.add_0_r.
Qed.

Lemma checkDiagonalUp_scan board player :
  checkDiagonalUp board player =
  win_with <$> find (line_owned board player) (lines_of DiagonalUp).
Proof.
  unfold checkDiagonalUp.
  rewrite (for_range_nested (line_owned board player) win_with (line_from DiagonalUp)).
  - done.
  - intros r c. rewrite line_from_cells, line_owned_4. simpl. done.
Qed.

Lemma checkDiagonalDown_scan board player :
  checkDiagonalDown board player =
  win_with <$> find (line_owned board player) (lines_of DiagonalDown).
Proof.
  unfold checkDiagonalDown.
  rewrite (for_range_nested (line_owned board player) win_with (line_from DiagonalDown)).
  - done.
  - intros r c. rewrite line_from_cells, line_owned_4. simpl. done.
Qed.

Lemma checkWin_scan board player :
  checkWin board player =
  match find (line_owned board player) scan_order with
  | Some l => {| won := true; cells := l |}
  | None => {| won := false; cells := [] |}
  end.
Proof.
  unfold checkWin, scan_order.
  rewrite checkHorizontal_scan, checkVertical_scan,
    checkDiagonalUp_scan, checkDiagonalDown_scan.
  rewrite !find_app.
  destruct (find _ (lines_of Horizontal)); [done |].
  destruct (find _ (lines_of Vertical)); [done |].
  destruct (find _ (lines_of DiagonalUp)); [done |].
  by destruct (find _ (lines_of DiagonalDown)).
Qed.

Lemma line_owned_spec board player l :
  line_owned board player l = true ↔
  ∀ c, c ∈ l → cell board (cell_row c) (cell_col c) = Some player.
Proof.
  unfold line_owned, owns. rewrite forallb_forall. split.
  - intros H c Hc. apply is_val_true, H. by apply list_elem_of_In.
  - intros H c Hc. apply is_val_true, H. by apply list_elem_of_In.
Qed.

Lemma owns_on_grid board player c :
  wf_board board →
  cell board (cell_row c) (cell_col c) = Some player → on_grid c = true.
Proof.
  intros Hwf Hc.
  assert (is_Some (cell board (cell_row c) (cell_col c))) as Hs by eauto.
  apply wf_cell_is_Some in Hs as [Hr Hcol]; [| done].
  unfold on_grid.
  destruct (Z.leb_spec 0 (cell_row c)), (Z.ltb_spec (cell_row c) ROWS),
    (Z.leb_spec 0 (cell_col c)), (Z.ltb_spec (cell_col c) COLS); simpl; done || lia.
Qed.

Lemma lines_of_elem o l :
  l ∈ lines_of o ↔
  ∃ row col, l = line_from o row col ∧ forallb on_grid l = true.
Proof.
  unfold lines_of. split.
  - intros (row & Hl & _)%list_elem_of_bind.
    apply list_elem_of_bind in Hl as (col & Hl & _).
    destruct (forallb on_grid (line_from o row col)) eqn:Hfit.
    + apply list_elem_of_singleton in Hl as ->. eauto.
    + by apply not_elem_of_nil in Hl.
  - intros (row & col & -> & Hfit).
    assert (on_grid (mkCell row col) = true) as Hfirst.
    { rewrite line_from_cells in Hfit. simpl in Hfit.
      by apply andb_true_iff in Hfit as [? _]. }
    unfold on_grid in Hfirst. simpl in Hfirst.
    apply andb_true_iff in Hfirst as [[[Hr1 Hr2]%andb_true_iff Hc1]%andb_true_iff Hc2].
    apply list_elem_of_bind. exists row. split; [| apply elem_of_seqZ; lia].
    apply list_elem_of_bind. exists col. split; [| apply elem_of_seqZ; lia].
    rewrite Hfit. by apply list_elem_of_singleton.
Qed.

Lemma scan_order_elem l :
  l ∈ scan_order ↔
  ∃ o row col, l = line_from o row col ∧ forallb on_grid l = true.
Proof.
  unfold scan_order. rewrite !elem_of_app, !lines_of_elem. split.
  - intros [H | [H | [H | H]]]; destruct H as (row & col & ? & ?); eauto 6.
  - intros ([] & row & col & ? & ?); eauto 8.
Qed.

(** ** The win check *)

(** C3.  On a 6 x 7 board, [checkWin] returns [won = true] with the four
    coordinates of the first line of four cells of the player in the
    scanning order (horizontal lines by rows top to bottom and columns left
    to right, then vertical lines, then the diagonals going up to the right,
    then the diagonals going down to the right), and it returns [won = false]
    with no cells exactly when the board has no four consecutive cells of the
    player in any of the four orientations. *)
Theorem checkWin_first_line_in_scan_order board player :
  wf_board board →
  checkWin board player =
    match find (line_owned board player) scan_order with
    | Some l => {| won := true; cells := l |}
    | None => {| won := false; cells := [] |}
    end ∧
  (won (checkWin board player) = false ∧ cells (checkWin board player) = [] ↔
   ¬ four_in_a_row board player).
Proof.
  intros Hwf. split; [apply checkWin_scan |].
  rewrite checkWin_scan.
  destruct (find (line_owned board player) scan_order) as [l|] eqn:Hfind; simpl.
  - apply find_some in Hfind as [Hin Howned].
    apply list_elem_of_In, scan_order_elem in Hin as (o & row & col & -> & _).
    split; [by intros [? _] |]. intros Hnone. exfalso. apply Hnone.
    exists o, row, col. by apply line_owned_spec.
  - split; [| done]. intros _ (o & row & col & Hline).
    pose proof (find_none _ _ Hfind (line_from o row col)) as Hnot.
    rewrite (proj2 (line_owned_spec board player _)) in Hnot by done.
    assert (false = true); [| done]. symmetry. apply Hnot.
    apply list_elem_of_In, scan_order_elem. exists o, row, col. split; [done |].
    apply forallb_forall. intros c Hc%list_elem_of_In.
    eapply owns_on_grid; eauto.
Qed.

Lemma checkWin_first_line_in_scan_order_witness :
  checkWin two_lines_board PLAYER_RED =
    {| won := true; cells := [mkCell 5 0; mkCell 5 1; mkCell 5 2; mkCell 5 3] |}.
Proof.
  destruct (checkWin_first_line_in_scan_order two_lines_board PLAYER_RED) as [-> _].
  - split; [vm_compute; reflexivity | vm_compute; repeat constructor].
  - vm_compute. reflexivity.
Defined.

(** ** The engine on the store: what a drop reads, allocates and writes *)

Lemma load_row_extend σ ext l cs :
  load_row σ l = Some cs → load_row (σ ++ ext) l = Some cs.
Proof.
  unfold load_row. destruct (σ !! l) as [o|] eqn:Ho; [| done].
  by rewrite (lookup_app_l_Some _ _ _ _ Ho).
Qed.

Lemma load_grid_extend σ ext b rows :
  load_grid σ b = Some rows → load_grid (σ ++ ext) b = Some rows.
Proof.
  unfold load_grid. destruct (σ !! b) as [o|] eqn:Ho; [| done].
  by rewrite (lookup_app_l_Some _ _ _ _ Ho).
Qed.

(** A board stays readable, with the same value, when the store grows. *)
Lemma read_board_extend σ ext b board :
  read_board σ b = Some board → read_board (σ ++ ext) b = Some board.
Proof.
  unfold read_board. destruct (load_grid σ b) as [rows|] eqn:Hg; [| done].
  rewrite (load_grid_extend _ ext _ _ Hg). simpl.
  rewrite !mapM_Some. intros Hrows. eapply Forall2_impl; [exact Hrows |].
  intros l cs. apply load_row_extend.
Qed.

Lemma read_board_rows σ b board :
  read_board σ b = Some board →
  ∃ rows, load_grid σ b = Some rows ∧ Forall2 (λ l cs, load_row σ l = Some cs) rows board.
Proof.
  unfold read_board. destruct (load_grid σ b) as [rows|]; [| done].
  simpl. rewrite mapM_Some. eauto.
Qed.

(** Reading a cell through the store is reading it in the board value. *)
Lemma load_cell_read σ b board row col :
  read_board σ b = Some board → load_cell σ b row col = cell board row col.
Proof.
  intros (rows & Hg & Hrows)%read_board_rows. unfold load_cell, cell.
  rewrite Hg. simpl.
  destruct (at_ board row) as [cs|] eqn:Hcs.
  - apply at_Some in Hcs as [Hrow Hcs].
    destruct (Forall2_lookup_r _ _ _ _ _ Hrows Hcs) as (l & Hl & Hload).
    rewrite (proj2 (at_Some rows row l)) by done. simpl. by rewrite Hload.
  - destruct (at_ rows row) as [l|] eqn:Hl; [exfalso | done].
    assert (is_Some (at_ rows row)) as Hs%at_is_Some by eauto.
    rewrite (Forall2_length _ _ _ Hrows) in Hs.
    apply at_is_Some in Hs as [? ?]. congruence.
Qed.

Lemma getLowestEmptyRow_st_read σ b board col :
  read_board σ b = Some board →
  getLowestEmptyRow_st σ b col = getLowestEmptyRow board col.
Proof.
  intros Hb. unfold getLowestEmptyRow_st, getLowestEmptyRow.
  induction (Z.to_nat ROWS) as [|n IH]; [done |].
  simpl. by rewrite (load_cell_read _ _ _ _ _ Hb), IH.
Qed.

Lemma clone_rows_spec σ rows board :
  Forall2 (λ l cs, load_row σ l = Some cs) rows board →
  clone_rows σ rows = (σ ++ (Row <$> board), seq (length σ) (length board)).
Proof.
  revert σ board. induction rows as [|l rows IH]; intros σ board Hrows.
  - apply Forall2_nil_inv_l in Hrows as ->. simpl. by rewrite app_nil_r.
  - apply Forall2_cons_inv_l in Hrows as (cs & board' & Hcs & Hrest & ->).
    simpl. rewrite Hcs. simpl.
    rewrite (IH (σ ++ [Row cs]) board').
    + rewrite length_app. simpl. rewrite <- app_assoc. simpl.
      by replace (length σ + 1)%nat with (S (length σ)) by lia.
    + eapply Forall2_impl; [exact Hrest |]. intros ? ?. apply load_row_extend.
Qed.

Lemma cloneBoard_st_spec σ b board :
  read_board σ b = Some board →
  cloneBoard_st σ b = (cloned σ board, (length σ + length board)%nat).
Proof.
  intros (rows & Hg & Hrows)%read_board_rows. unfold cloneBoard_st, cloned, alloc.
  rewrite Hg. simpl. rewrite (clone_rows_spec _ _ _ Hrows).
  by rewrite <- app_assoc, length_app, length_fmap.
Qed.

Lemma cloned_grid σ board :
  load_grid (cloned σ board) (length σ + length board) =
    Some (seq (length σ) (length board)).
Proof.
  unfold load_grid, cloned.
  rewrite lookup_app_r by lia. rewrite lookup_app_r by (rewrite length_fmap; lia).
  rewrite length_fmap.
  by replace (length σ + length board - length σ - length board)%nat with 0%nat by lia.
Qed.

Lemma cloned_row σ board i cs :
  board !! i = Some cs → load_row (cloned σ board) (length σ + i) = Some cs.
Proof.
  intros Hi. unfold load_row, cloned.
  rewrite lookup_app_r by lia.
  replace (length σ + i - length σ)%nat with i by lia.
  rewrite lookup_app_l by (rewrite length_fmap; by eapply lookup_lt_Some).
  by rewrite list_lookup_fmap, Hi.
Qed.

(** The fresh board denotes the value that was cloned. *)
Lemma read_board_cloned σ board :
  read_board (cloned σ board) (length σ + length board) = Some board.
Proof.
  unfold read_board. rewrite cloned_grid. simpl. apply mapM_Some.
  apply Forall2_same_length_lookup. split; [by rewrite length_seq |].
  intros i l cs [-> _]%lookup_seq Hcs. by apply cloned_row.
Qed.

Lemma set_cell_insert board row col v cs :
  0 ≤ row → board !! Z.to_nat row = Some cs →
  set_cell board row col v = <[Z.to_nat row := <[Z.to_nat col := v]> cs]> board.
Proof.
  intros Hrow Hcs. unfold set_cell. apply list_eq. intros i.
  rewrite list_lookup_alter, list_lookup_insert.
  case_decide as Hi.
  - subst i. rewrite Hcs. simpl.
    rewrite decide_True; [done |]. split; [done | by eapply lookup_lt_Some].
  - rewrite decide_False; [done | tauto].
Qed.

(** Writing a cell of the fresh board only touches the fresh row. *)
Lemma store_cell_cloned σ board row col v :
  is_Some (cell board row col) →
  store_cell (cloned σ board) (length σ + length board) row col v =
    cloned σ (set_cell board row col v).
Proof.
  intros [w (cs & [Hrow Hcs]%at_Some & _)%cell_Some].
  unfold store_cell. rewrite cloned_grid. simpl.
  assert (at_ (seq (length σ) (length board)) row = Some (length σ + Z.to_nat row)%nat)
    as ->.
  { apply at_Some. split; [done |]. apply lookup_seq.
    split; [done | by eapply lookup_lt_Some]. }
  rewrite (cloned_row _ _ _ _ Hcs).
  rewrite (set_cell_insert _ _ _ _ _ Hrow Hcs).
  unfold cloned. rewrite insert_app_r.
  rewrite insert_app_l by (rewrite length_fmap; by eapply lookup_lt_Some).
  by rewrite list_fmap_insert, length_insert.
Qed.

(** The call on the store computes what [dropPiece] computes on values,
    and the store it leaves is the old one, extended. *)
Lemma dropPiece_st_refines σ b board col player :
  read_board σ b = Some board →
  let d := dropPiece board col player in
  let '(σ', res) := dropPiece_st σ b col player in
  dropref_success res = drop_success d ∧
  dropref_row res = drop_row d ∧
  read_board σ' (dropref_board res) = Some (drop_board d) ∧
  (drop_success d = false → σ' = σ ∧ dropref_board res = b) ∧
  σ `prefix_of` σ'.
Proof.
  intros Hb. unfold dropPiece_st, dropPiece.
  rewrite (getLowestEmptyRow_st_read _ _ _ _ Hb).
  destruct ((col <? 0) || (col >=? COLS)); simpl; [done |].
  destruct (Z.eqb_spec (getLowestEmptyRow board col) (-1)) as [|Hne]; simpl; [done |].
  rewrite (cloneBoard_st_spec _ _ _ Hb), cloneBoard_id.
  rewrite store_cell_cloned by (rewrite getLowestEmptyRow_cell; eauto).
  simpl. split_and!; try done.
  - assert (length board =
            length (set_cell board (getLowestEmptyRow board col) col player)) as ->
      by (unfold set_cell; by rewrite length_alter).
    apply read_board_cloned.
  - by apply prefix_app_r.
Qed.

(** ** Dropping a piece *)

(** C2.  Let a board reference denote a 6 x 7 board that obeys gravity and
    whose column [col] holds [N] pieces.  If [col] is in [0, COLS) and
    [N < ROWS], [dropPiece] succeeds with row [ROWS - 1 - N] and returns a
    board that reads as the input everywhere except at ([ROWS - 1 - N], [col]),
    which holds the player.  If [N = ROWS] or [col] is out of range it fails
    (row -1, the input reference returned, nothing allocated).  In every case
    the store after the call extends the store before it, so the input board
    and its rows are not written.  The call on the store returns what
    [dropPiece] returns on board values. *)
Theorem dropPiece_lands_on_stack σ b board col player :
  read_board σ b = Some board → wf_board board → gravity board →
  let N := pieces board col in
  let σ' := (dropPiece_st σ b col player).1 in
  let res := (dropPiece_st σ b col player).2 in
  (0 ≤ col < COLS ∧ N < ROWS →
     dropref_success res = true ∧ dropref_row res = ROWS - 1 - N ∧
     ∃ board', read_board σ' (dropref_board res) = Some board' ∧
       wf_board board' ∧
       ∀ r c, cell board' r c =
              if bool_decide (r = ROWS - 1 - N ∧ c = col) then Some player
              else cell board r c) ∧
  (N = ROWS ∨ col < 0 ∨ COLS ≤ col →
     dropref_success res = false ∧ dropref_row res = -1 ∧
     dropref_board res = b ∧ σ' = σ) ∧
  (σ `prefix_of` σ' ∧ read_board σ' b = Some board) ∧
  (dropref_success res = drop_success (dropPiece board col player) ∧
   dropref_row res = drop_row (dropPiece board col player) ∧
   read_board σ' (dropref_board res) = Some (drop_board (dropPiece board col player))).
Proof.
  intros Hb Hwf Hgrav N σ' res.
  pose proof (dropPiece_st_refines σ b board col player Hb) as Href.
  simpl in Href. subst σ' res.
  destruct (dropPiece_st σ b col player) as [σ' res]. simpl.
  destruct Href as (Hsucc & Hrow & Hread & Hfail & Hpre).
  split_and!; try done.
  - intros [Hcol HN].
    pose proof (getLowestEmptyRow_pieces board col Hwf Hgrav Hcol) as Hscan.
    pose proof (pieces_range board col Hwf Hcol) as Hrange. fold N in Hscan, Hrange.
    rewrite dropPiece_in_range in Hsucc, Hrow, Hread by done. simpl in *.
    rewrite Hscan in Hsucc, Hrow, Hread.
    destruct (Z.eqb_spec (ROWS - 1 - N) (-1)) as [|_]; [lia |]. simpl in *.
    assert (is_Some (cell board (ROWS - 1 - N) col)) as Hs
      by (apply wf_cell_is_Some; [done | unfold ROWS in *; lia]).
    split_and!; [done | done |].
    eexists. split_and!; [exact Hread | by apply wf_set_cell |].
    intros r c. by apply cell_set_cell.
  - intros Hcase.
    assert (drop_success (dropPiece board col player) = false ∧
            drop_row (dropPiece board col player) = -1) as [Hs Hr].
    { destruct (decide (0 ≤ col < COLS)) as [Hcol|Hcol].
      - destruct Hcase as [HN | Hout]; [| lia].
        rewrite dropPiece_in_range by done. simpl.
        rewrite (pieces_full_scan board col) by done. done.
      - rewrite dropPiece_out_of_range by lia. done. }
    destruct (Hfail Hs) as [-> ->]. split_and!; congruence.
  - destruct Hpre as [ext ->]. by apply read_board_extend.
Qed.

Lemma dropPiece_lands_on_stack_witness :
  dropref_success (dropPiece_st sample_store 6 3 PLAYER_YELLOW).2 = true ∧
  dropref_row (dropPiece_st sample_store 6 3 PLAYER_YELLOW).2 = 2 ∧
  read_board (dropPiece_st sample_store 6 3 PLAYER_YELLOW).1 6 =
    Some (board (play [3; 3; 3])).
Proof.
  assert (read_board sample_store 6 = Some (board (play [3; 3; 3]))) as Hb
    by (vm_compute; reflexivity).
  assert (wf_board (board (play [3; 3; 3]))) as Hwf
    by (split; [vm_compute; reflexivity | vm_compute; repeat constructor]).
  assert (gravity (board (play [3; 3; 3]))) as Hgrav
    by (apply gravity_check_sound; [exact Hwf | vm_compute; reflexivity]).
  destruct (dropPiece_lands_on_stack sample_store 6 _ 3 PLAYER_YELLOW Hb Hwf Hgrav)
    as (Hok & _ & [_ Hkept] & _).
  destruct Hok as (Hs & Hr & _).
  { split; [unfold COLS; lia | vm_compute; reflexivity]. }
  split_and!; [exact Hs | exact Hr | exact Hkept].
Defined.

(** ** Room codes *)

Lemma string_length_append (s1 s2 : string) :
  String.length (s1 +:+ s2) = (String.length s1 + String.length s2)%nat.
Proof. induction s1 as [|c s1 IH]; simpl; [done | by rewrite IH]. Qed.

Lemma list_ascii_append (s1 s2 : string) :
  String.list_ascii_of_string (s1 +:+ s2) =
  String.list_ascii_of_string s1 ++ String.list_ascii_of_string s2.
Proof. induction s1 as [|c s1 IH]; simpl; [done | by rewrite IH]. Qed.

Lemma string_get_elem (s : string) (n : nat) (c : Ascii.ascii) :
  String.get n s = Some c → c ∈ String.list_ascii_of_string s.
Proof.
  revert n. induction s as [|a s IH]; intros n; simpl; [done |].
  destruct n as [|n].
  - intros [= ->]. apply list_elem_of_here.
  - intros Hn. apply list_elem_of_further. by eapply IH.
Qed.

Lemma string_get_lt (s : string) (n : nat) :
  (n < String.length s)%nat → is_Some (String.get n s).
Proof.
  revert n. induction s as [|a s IH]; intros n; simpl; [lia |].
  destruct n as [|n]; [eauto | intros; apply IH; lia].
Qed.

Lemma random_index_range (r : Q) :
  (0 <= r)%Q → (r < 1)%Q → 0 ≤ random_index r < 32.
Proof.
  intros Hlo Hhi. unfold random_index.
  change (inject_Z (Z.of_nat (String.length chars))) with (inject_Z 32).
  split.
  - rewrite <- (Qfloor_Z 0). apply Qfloor_resp_le.
    apply Qmult_le_0_compat; [done | by unfold Qle].
  - rewrite Zlt_Qlt. eapply Qle_lt_trans; [apply Qfloor_le |].
    apply Qlt_le_trans with (1 * inject_Z 32)%Q.
    + apply Qmult_lt_compat_r; [by unfold Qlt | done].
    + rewrite Qmult_1_l. apply Qle_refl.
Qed.

(** A draw in range appends exactly one character of the alphabet. *)
Lemma char_at_alphabet (i : Z) :
  0 ≤ i < 32 →
  ∃ c, char_at chars i = String c EmptyString ∧ c ∈ alphabet.
Proof.
  intros Hi. unfold char_at.
  destruct (Z.ltb_spec i 0); [lia |].
  destruct (string_get_lt chars (Z.to_nat i)) as [c Hc].
  { change (String.length chars) with 32%nat. lia. }
  rewrite Hc. exists c. split; [done | by eapply string_get_elem].
Qed.

Lemma draw_code_spec rand pos n code :
  fair rand →
  String.length (draw_code rand pos n code) = (String.length code + n)%nat ∧
  (over_alphabet code → over_alphabet (draw_code rand pos n code)).
Proof.
  intros Hfair. revert pos code. induction n as [|n IH]; intros pos code; simpl.
  - split; [lia | done].
  - destruct (Hfair pos) as [Hlo Hhi].
    destruct (char_at_alphabet _ (random_index_range _ Hlo Hhi)) as (c & -> & Hc).
    destruct (IH (S pos) (code +:+ String c EmptyString)) as [Hlen Halpha].
    split.
    + rewrite Hlen, string_length_append. simpl. lia.
    + intros Hcode. apply Halpha. unfold over_alphabet.
      rewrite list_ascii_append. apply Forall_app. split; [done |].
      simpl. constructor; [done | constructor].
Qed.

Lemma attempt_shape rand pos k :
  fair rand →
  String.length (attempt rand pos k) = 6%nat ∧ over_alphabet (attempt rand pos k).
Proof.
  intros Hfair. unfold attempt.
  destruct (draw_code_spec rand (6 * k + pos) 6 "" Hfair) as [Hlen Halpha].
  split; [done | apply Halpha; constructor].
Qed.

Lemma attempt_shift rand pos j :
  attempt rand (pos + 6) j = attempt rand pos (S j).
Proof. unfold attempt. f_equal. lia. Qed.

Lemma generateGameCode_step fuel games rand pos :
  generateGameCode (S fuel) games rand pos =
  if bool_decide (is_Some (games !! attempt rand pos 0))
  then generateGameCode fuel games rand (pos + 6)
  else Some (attempt rand pos 0, (pos + 6)%nat).
Proof. done. Qed.

(** The loop tries the attempts in order: after [n] collisions it is where
    a fresh call started [6 * n] draws further would be. *)
Lemma generateGameCode_skip games rand pos n fuel :
  (∀ j, (j < n)%nat → is_Some (games !! attempt rand pos j)) →
  generateGameCode (n + fuel) games rand pos =
  generateGameCode fuel games rand (pos + 6 * n).
Proof.
  revert pos. induction n as [|n IH]; intros pos Hcoll.
  - by rewrite Nat.mul_0_r, Nat.add_0_r.
  - replace (S n + fuel)%nat with (S (n + fuel)) by lia.
    rewrite generateGameCode_step.
    rewrite bool_decide_eq_true_2 by (apply Hcoll; lia).
    rewrite IH.
    + f_equal. lia.
    + intros j Hj. rewrite attempt_shift. apply Hcoll. lia.
Qed.

(** The loop returns at the first attempt that is not a key of the
    registry, and not before. *)
Lemma generateGameCode_first_free games rand pos k :
  (∀ j, (j < k)%nat → is_Some (games !! attempt rand pos j)) →
  games !! attempt rand pos k = None →
  (∀ fuel, (fuel ≤ k)%nat → generateGameCode fuel games rand pos = None) ∧
  (∀ fuel, (k < fuel)%nat →
     generateGameCode fuel games rand pos =
       Some (attempt rand pos k, (pos + 6 * (k + 1))%nat)).
Proof.
  intros Hcoll Hfree. split; intros fuel Hfuel.
  - replace fuel with (fuel + 0)%nat by lia.
    rewrite generateGameCode_skip; [done |]. intros j Hj. apply Hcoll. lia.
  - replace fuel with (k + S (fuel - k - 1))%nat by lia.
    rewrite generateGameCode_skip by done.
    rewrite generateGameCode_step.
    assert (attempt rand (pos + 6 * k) 0 = attempt rand pos k) as ->
      by (unfold attempt; f_equal; lia).
    rewrite Hfree.
    rewrite bool_decide_eq_false_2 by (by intros [? ?]).
    do 2 f_equal. lia.
Qed.

(** While every attempt collides, the loop goes on. *)
Lemma generateGameCode_all_taken games rand pos :
  (∀ j, is_Some (games !! attempt rand pos j)) →
  ∀ fuel, generateGameCode fuel games rand pos = None.
Proof.
  intros Hcoll fuel. replace fuel with (fuel + 0)%nat by lia.
  rewrite generateGameCode_skip; [done |]. intros j _. apply Hcoll.
Qed.

(** A returned code is one of the attempts, the first free one. *)
Lemma generateGameCode_returns games rand pos fuel code pos' :
  generateGameCode fuel games rand pos = Some (code, pos') →
  ∃ k, (k < fuel)%nat ∧ code = attempt rand pos k ∧ pos' = (pos + 6 * (k + 1))%nat ∧
       games !! code = None ∧
       ∀ j, (j < k)%nat → is_Some (games !! attempt rand pos j).
Proof.
  revert pos. induction fuel as [|fuel IH]; intros pos; [done |].
  rewrite generateGameCode_step.
  case_bool_decide as Htaken.
  - intros (k & Hk & -> & -> & Hfree & Hcoll)%IH.
    exists (S k). rewrite attempt_shift in Hfree |- *.
    split_and!; [lia | done | lia | done |].
    intros [|j] Hj; [done |].
    rewrite <- attempt_shift. apply Hcoll. lia.
  - intros [= <- <-]. exists 0%nat.
    split_and!; [lia | done | lia | | intros; lia].
    destruct (games !! attempt rand pos 0) eqn:Hg; [| done].
    exfalso. apply Htaken. eauto.
Qed.

Lemma fair_cycling : fair cycling.
Proof.
  intros i. unfold cycling, Qle, Qlt. simpl.
  pose proof (Nat.mod_upper_bound i 32). lia.
Qed.

Lemma fair_stuck : fair stuck.
Proof. intros i. by unfold stuck, Qle, Qlt. Qed.

(** C8.  With [Math.random()] in [0, 1): every code the generator returns
    has length 6, all its characters belong to the alphabet
    ABCDEFGHJKLMNPQRSTUVWXYZ23456789, and it is not a key of the registry, so
    it differs from the code of every live room; and the generator does
    return, with the first drawn code that is free, as soon as one is. *)
Theorem generateGameCode_fresh_code games rand pos :
  fair rand →
  (∀ fuel code pos', generateGameCode fuel games rand pos = Some (code, pos') →
     String.length code = 6%nat ∧ over_alphabet code ∧
     games !! code = None ∧
     ∀ c g, games !! c = Some g → c ≠ code ∧ (game_code g = c → game_code g ≠ code)) ∧
  (∀ k, (∀ j, (j < k)%nat → is_Some (games !! attempt rand pos j)) →
        games !! attempt rand pos k = None →
        ∀ fuel, (k < fuel)%nat →
          generateGameCode fuel games rand pos =
            Some (attempt rand pos k, (pos + 6 * (k + 1))%nat)).
Proof.
  intros Hfair. split.
  - intros fuel code pos' (k & _ & -> & _ & Hfree & _)%generateGameCode_returns.
    destruct (attempt_shape rand pos k Hfair) as [Hlen Halpha].
    split_and!; try done.
    intros c g Hg. assert (c ≠ attempt rand pos k) by congruence.
    split; [done | congruence].
  - intros k Hcoll Hfree. by apply generateGameCode_first_free.
Qed.

Lemma generateGameCode_fresh_code_witness :
  generateGameCode 2 {[ "ABCDEF" := lone_game "ABCDEF" ]} cycling 0
    = Some ("GHJKLM", 12%nat) ∧
  String.length "GHJKLM" = 6%nat ∧
  ({[ "ABCDEF" := lone_game "ABCDEF" ]} : gmap string Game) !! "GHJKLM" = None.
Proof.
  destruct (generateGameCode_fresh_code
              {[ "ABCDEF" := lone_game "ABCDEF" ]} cycling 0 fair_cycling)
    as [Hshape Hreturns].
  assert (generateGameCode 2 {[ "ABCDEF" := lone_game "ABCDEF" ]} cycling 0
          = Some ("GHJKLM", 12%nat)) as Hrun.
  { apply (Hreturns 1%nat); [| by vm_compute | lia].
    intros j Hj. replace j with 0%nat by lia. vm_compute. eauto. }
  destruct (Hshape _ _ _ Hrun) as (Hlen & _ & Hfree & _).
  split_and!; [exact Hrun | exact Hlen | exact Hfree].
Defined.

(** ** The retry loop *)

(** C9, counterexample.  A registry state and a stream of draws, each in
    [0, 1), on which no number of attempts ends the loop: the registry holds
    AAAAAA and every draw is 0.  There is no cap on the retries, and neither
    the generator nor [createGame] has an error result to report. *)
Lemma generateGameCode_no_retry_cap :
  fair stuck ∧
  (∀ fuel,
     generateGameCode fuel {[ "AAAAAA" := lone_game "AAAAAA" ]} stuck 0 = None) ∧
  (∀ fuel,
     createGame fuel {[ "AAAAAA" := lone_game "AAAAAA" ]} stuck 0 "host" 0 = None).
Proof.
  assert (∀ fuel,
            generateGameCode fuel {[ "AAAAAA" := lone_game "AAAAAA" ]} stuck 0 = None)
    as Hloop.
  { apply generateGameCode_all_taken. intros j.
    assert (attempt stuck 0 j = "AAAAAA") as -> by done.
    rewrite lookup_singleton_eq. eauto. }
  split_and!; [apply fair_stuck | exact Hloop |].
  intros fuel. unfold createGame. by rewrite Hloop.
Qed.

(** C9 (amended).  The retry loop of room creation has no cap and no error
    path.  It ends exactly at the first attempt whose code is not a key of
    the registry: when the first [k] drawn codes collide and the next one is
    free, [k] attempts or fewer do not end it and any larger number does,
    [createGame] then registering a room under that code with the host as
    its only player; while every drawn code collides it does not end. *)
Theorem createGame_retries_until_free games rand pos host now :
  (∀ k, (∀ j, (j < k)%nat → is_Some (games !! attempt rand pos j)) →
        games !! attempt rand pos k = None →
        (∀ fuel, (fuel ≤ k)%nat → createGame fuel games rand pos host now = None) ∧
        (∀ fuel, (k < fuel)%nat →
           createGame fuel games rand pos host now =
             let game := mkGame (attempt rand pos k) host [host] None 1 now ∅ in
             Some (<[attempt rand pos k := game]> games, game,
                   (pos + 6 * (k + 1))%nat))) ∧
  ((∀ j, is_Some (games !! attempt rand pos j)) →
   ∀ fuel, createGame fuel games rand pos host now = None).
Proof.
  split.
  - intros k Hcoll Hfree.
    destruct (generateGameCode_first_free games rand pos k Hcoll Hfree) as [Hlow Hhigh].
    split; intros fuel Hfuel; unfold createGame.
    + by rewrite Hlow.
    + by rewrite Hhigh.
  - intros Hcoll fuel. unfold createGame.
    by rewrite generateGameCode_all_taken.
Qed.

Lemma createGame_retries_until_free_witness :
  createGame 1 {[ "ABCDEF" := lone_game "ABCDEF" ]} cycling 0 "h" 7 = None ∧
  createGame 2 {[ "ABCDEF" := lone_game "ABCDEF" ]} cycling 0 "h" 7 =
    Some (<["GHJKLM" := mkGame "GHJKLM" "h" ["h"] None 1 7 ∅]>
            {[ "ABCDEF" := lone_game "ABCDEF" ]},
          mkGame "GHJKLM" "h" ["h"] None 1 7 ∅, 12%nat).
Proof.
  destruct (createGame_retries_until_free
              {[ "ABCDEF" := lone_game "ABCDEF" ]} cycling 0 "h" 7) as [Hfirst _].
  destruct (Hfirst 1%nat) as [Hlow Hhigh].
  - intros j Hj. replace j with 0%nat by lia. vm_compute. eauto.
  - by vm_compute.
  - split; [apply Hlow; lia | apply (Hhigh 2%nat); lia].
Defined.

(** ** Rematch *)

Lemma set_rematchRequests_same game :
  set_rematchRequests (rematchRequests game) game = game.
Proof. by destruct game. Qed.

Lemma on_rematch_unknown srv socket gameCode :
  games srv !! gameCode = None → on_rematch srv socket gameCode = (srv, []).
Proof. intros Hnone. unfold on_rematch. by rewrite Hnone. Qed.

(** The handler decides on the size of the request set once the sender is in it. *)
Lemma on_rematch_cases srv socket gameCode game :
  games srv !! gameCode = Some game →
  let requests := {[socket]} ∪ rematchRequests game in
  ((2 ≤ size requests)%nat ∧
   on_rematch srv socket gameCode =
     (mkServer (<[gameCode := mkGame (game_code game) (hostId game) (players game)
                                None 1 (createdAt game) ∅]> (games srv))
               (channels srv),
      [ToRoom gameCode (EvRematch None)])) ∨
  ((size requests < 2)%nat ∧
   on_rematch srv socket gameCode =
     (mkServer (<[gameCode := set_rematchRequests requests game]> (games srv))
               (channels srv),
      [ToOthers socket gameCode (EvRematchRequested socket)])).
Proof.
  intros Hgame requests. unfold on_rematch. rewrite Hgame. simpl. fold requests.
  case_bool_decide as Hsize; [left | right]; (split; [lia | done]).
Qed.

(** The handler in a room whose two occupants are the sockets of its
    channel: a rematch request by an occupant puts the sender in the request
    set.  The handler then goes by the number of socket ids on record, the
    sender included, whoever they belong to.  With two or more, that is when
    some other socket's request is on record, as it is when the other
    occupant had requested, it empties the set, sets the cached game state to
    null and emits exactly one rematch-started broadcast, received by both
    occupants.  With the sender alone on record it emits one
    rematch-requested notice, received by the other occupant only, leaves the
    cached game state as it was and keeps the set non-empty.  A request
    repeated by the only requester changes nothing and starts no rematch. *)
Theorem on_rematch_two_occupants srv socket other gameCode game :
  games srv !! gameCode = Some game →
  socket ≠ other →
  list_to_set (players game) = ({[socket; other]} : gset SocketId) →
  channel srv gameCode = list_to_set (players game) →
  let requests := {[socket]} ∪ rematchRequests game in
  let srv' := (on_rematch srv socket gameCode).1 in
  let out := (on_rematch srv socket gameCode).2 in
  socket ∈ requests ∧
  ((2 ≤ size requests)%nat →
     games srv' =
       <[gameCode := mkGame (game_code game) (hostId game) (players game)
                       None 1 (createdAt game) ∅]> (games srv) ∧
     channels srv' = channels srv ∧
     out = [ToRoom gameCode (EvRematch None)] ∧
     recipients srv' (ToRoom gameCode (EvRematch None)) = {[socket; other]}) ∧
  ((size requests < 2)%nat →
     requests = {[socket]} ∧
     games srv' = <[gameCode := set_rematchRequests {[socket]} game]> (games srv) ∧
     channels srv' = channels srv ∧
     out = [ToOthers socket gameCode (EvRematchRequested socket)] ∧
     recipients srv' (ToOthers socket gameCode (EvRematchRequested socket)) = {[other]}) ∧
  ((2 ≤ size requests)%nat ↔ ∃ x, x ∈ rematchRequests game ∧ x ≠ socket) ∧
  (other ∈ rematchRequests game → (2 ≤ size requests)%nat) ∧
  (rematchRequests game ⊆ {[socket]} → (size requests < 2)%nat) ∧
  (rematchRequests game = {[socket]} →
     srv' = srv ∧ out = [ToOthers socket gameCode (EvRematchRequested socket)]).
Proof.
  intros Hgame Hne Hplayers Hchan. cbv zeta.
  assert (∀ s, channels s = channels srv →
               channel s gameCode = {[socket; other]}) as Hsame.
  { intros s Hs. unfold channel in *. rewrite Hs. congruence. }
  pose proof (on_rematch_cases srv socket gameCode game Hgame) as Hcases.
  cbv zeta in Hcases. clear Hchan Hplayers.
  remember ({[socket]} ∪ rematchRequests game) as requests eqn:Hreq.
  assert ((size requests < 2)%nat → requests = {[socket]}) as Hone.
  { intros Hsize. apply set_eq. intros x. split; [| set_solver].
    intros Hx. destruct (decide (x = socket)) as [-> | Hxs]; [set_solver | exfalso].
    assert ({[socket; x]} ⊆ requests) as Hsub by set_solver.
    apply subseteq_size in Hsub.
    rewrite size_union in Hsub by set_solver.
    rewrite !size_singleton in Hsub. lia. }
  split_and!.
  - set_solver.
  - intros Hsize. destruct Hcases as [[_ ->] | [Hlt _]]; [| lia].
    simpl. split_and!; try done. by apply Hsame.
  - intros Hsize. destruct Hcases as [[Hge _] | [_ ->]]; [lia |].
    rewrite (Hone Hsize). simpl. split_and!; try done.
    rewrite Hsame by done. set_solver.
  - split.
    + intros Hsize.
      destruct (set_choose_or_empty (rematchRequests game ∖ {[socket]}))
        as [[x Hx] | Hempty]; [exists x; set_solver | exfalso].
      assert (requests = {[socket]}) as Heq.
      { apply set_eq. intros y. split; [| set_solver].
        intros Hy. destruct (decide (y = socket)) as [-> | Hys]; [set_solver |].
        exfalso. apply (proj1 (elem_of_equiv_empty _) Hempty y). set_solver. }
      rewrite Heq, size_singleton in Hsize. lia.
    + intros (x & Hx & Hxs).
      assert ({[socket; x]} ⊆ requests) as Hsub by set_solver.
      apply subseteq_size in Hsub.
      rewrite size_union in Hsub by set_solver.
      by rewrite !size_singleton in Hsub.
  - intros Hother.
    assert ({[socket; other]} ⊆ requests) as Hsub by set_solver.
    apply subseteq_size in Hsub.
    rewrite size_union in Hsub by set_solver.
    by rewrite !size_singleton in Hsub.
  - intros Hsub.
    assert (requests = {[socket]}) as -> by set_solver.
    rewrite size_singleton. lia.
  - intros Hrep.
    assert (requests = rematchRequests game) as Heq by set_solver.
    destruct Hcases as [[Hge _] | [_ ->]].
    + rewrite Heq, Hrep, size_singleton in Hge. lia.
    + rewrite Heq, set_rematchRequests_same. simpl.
      rewrite insert_id by done. by destruct srv.
Qed.

Lemma on_rematch_two_occupants_witness :
  (on_rematch rematch_server "a" "ROOM42").2 = [ToRoom "ROOM42" (EvRematch None)] ∧
  games (on_rematch rematch_server "a" "ROOM42").1 =
    <["ROOM42" := mkGame "ROOM42" "a" ["a"; "b"] None 1 0 ∅]> (games rematch_server).
Proof.
  destruct (on_rematch_two_occupants rematch_server "a" "b" "ROOM42" rematch_room)
    as (_ & Hboth & _ & _ & Hother & _).
  - apply lookup_singleton_eq.
  - done.
  - simpl. set_solver.
  - unfold channel. simpl. rewrite lookup_singleton_eq. simpl. set_solver.
  - destruct (Hboth (Hother ltac:(simpl; set_solver))) as (Hgames & _ & Hout & _).
    split; [exact Hout | exact Hgames].
Defined.

(** The run create(a), join(b), move(a) leaves the room ABCDEF with the
    occupants a and b, both in its channel, a cached state and no request
    on record. *)
Example server_playing_room :
  (players <$> games server_playing !! "ABCDEF") = Some ["a"; "b"] ∧
  (rematchRequests <$> games server_playing !! "ABCDEF") = Some ∅ ∧
  (gameState <$> games server_playing !! "ABCDEF") = Some (Some (serialize (play [3]))) ∧
  channel server_playing "ABCDEF" = {["a"; "b"]}.
Proof. vm_compute. split_and!; done. Qed.

(** A request from outside the room counts as well.  A socket x that is
    not in the room sends a rematch request for it, then occupant a does: the
    first request is announced to both occupants, and the second starts the
    rematch (state reset, set emptied, broadcast) although a is the only
    occupant to have requested. *)
Lemma on_rematch_counts_any_sender :
  (players <$> games server_playing !! "ABCDEF") = Some ["a"; "b"] ∧
  (on_rematch server_playing "x" "ABCDEF").2 =
    [ToOthers "x" "ABCDEF" (EvRematchRequested "x")] ∧
  recipients (on_rematch server_playing "x" "ABCDEF").1
    (ToOthers "x" "ABCDEF" (EvRematchRequested "x")) = {["a"; "b"]} ∧
  (on_rematch (on_rematch server_playing "x" "ABCDEF").1 "a" "ABCDEF").2 =
    [ToRoom "ABCDEF" (EvRematch None)] ∧
  (gameState <$>
     games (on_rematch (on_rematch server_playing "x" "ABCDEF").1 "a" "ABCDEF").1
       !! "ABCDEF") = Some None ∧
  (rematchRequests <$>
     games (on_rematch (on_rematch server_playing "x" "ABCDEF").1 "a" "ABCDEF").1
       !! "ABCDEF") = Some ∅.
Proof. vm_compute. split_and!; done. Qed.

(** C7.  The handler's comment reads "If both players requested rematch",
    and the claim says the same: the rematch starts when both occupants have
    requested, and while only one occupant has requested the other one is
    notified and nothing else changes.  The code tests the number of socket
    ids on record instead.  After create(a), join(b), move(a), rematch(b),
    leave(b), join(c), the room ABCDEF has the occupants a and c, and the
    request on record is the one of b, who is gone.  The request of a is
    then the only one made by an occupant; the handler does not notify c of
    it but starts the rematch: one rematch-started broadcast to the room, the
    cached game state set to null, the request set emptied. *)
Theorem on_rematch_starts_on_stale_request :
  let s1 := (on_rematch server_playing "b" "ABCDEF").1 in
  let s2 := (leaveGame s1 "b" "ABCDEF").1 in
  let s3 := (on_join s2 "c" "ABCDEF").1 in
  let s4 := (on_rematch s3 "a" "ABCDEF").1 in
  (players <$> games s3 !! "ABCDEF") = Some ["a"; "c"] ∧
  channel s3 "ABCDEF" = {["a"; "c"]} ∧
  (rematchRequests <$> games s2 !! "ABCDEF") = Some {["b"]} ∧
  (rematchRequests <$> games s3 !! "ABCDEF") = Some {["b"]} ∧
  (gameState <$> games s3 !! "ABCDEF") = Some (Some (serialize (play [3]))) ∧
  (on_rematch s3 "a" "ABCDEF").2 = [ToRoom "ABCDEF" (EvRematch None)] ∧
  (on_rematch s3 "a" "ABCDEF").2 ≠
    [ToOthers "a" "ABCDEF" (EvRematchRequested "a")] ∧
  recipients s4 (ToRoom "ABCDEF" (EvRematch None)) = {["a"; "c"]} ∧
  (gameState <$> games s4 !! "ABCDEF") = Some None ∧
  (rematchRequests <$> games s4 !! "ABCDEF") = Some ∅.
Proof. vm_compute. split_and!; done. Qed.

(** * Further properties *)

(** ** Stacking pieces *)

Lemma filter_length_insert {A : Type} (P : A → Prop) `{!∀ x, Decision (P x)}
    (l : list A) (i : nat) (x y : A) :
  l !! i = Some x → ¬ P x → P y →
  length (filter P (<[i := y]> l)) = S (length (filter P l)).
Proof.
  intros Hi Hx Hy.
  rewrite <- (take_drop_middle l i x Hi) at 2.
  rewrite insert_take_drop by (by eapply lookup_lt_Some).
  rewrite !filter_app, !length_app.
  rewrite filter_cons_True, filter_cons_False by done.
  simpl. lia.
Qed.

Lemma column_set_cell board row col v c :
  wf_board board → 0 ≤ c < COLS → is_Some (cell board row col) →
  column (set_cell board row col v) c =
  if bool_decide (c = col) then <[Z.to_nat row := v]> (column board c)
  else column board c.
Proof.
  intros Hwf Hc Hs. apply list_eq. intros k.
  rewrite column_lookup by (done || by apply wf_set_cell).
  rewrite cell_set_cell by done.
  assert (0 ≤ row) as Hrow by (apply wf_cell_is_Some in Hs; [lia | done]).
  destruct (decide (c = col)) as [-> | Hcol].
  - rewrite (bool_decide_eq_true_2 (col = col)) by done.
    rewrite list_lookup_insert, column_lookup by done.
    destruct (decide (Z.to_nat row = k)) as [<- | Hk].
    + rewrite Z2Nat.id by done.
      rewrite bool_decide_eq_true_2 by done.
      rewrite decide_True; [done |]. split; [done |].
      rewrite column_length by done.
      apply wf_cell_is_Some in Hs; [| done]. unfold ROWS in *. lia.
    + rewrite bool_decide_eq_false_2 by lia.
      by rewrite decide_False by tauto.
  - rewrite (bool_decide_eq_false_2 (c = col)) by done.
    rewrite bool_decide_eq_false_2 by tauto. by rewrite column_lookup.
Qed.

(** Writing a piece on an [EMPTY] cell adds one piece to its column. *)
Lemma pieces_set_cell board row col player c :
  wf_board board → cell board row col = Some EMPTY → player ≠ EMPTY →
  pieces (set_cell board row col player) c =
  if bool_decide (c = col) then pieces board c + 1 else pieces board c.
Proof.
  intros Hwf Hcell Hp.
  assert (is_Some (cell board row col)) as Hs by eauto.
  assert (0 ≤ row < ROWS ∧ 0 ≤ col < COLS) as [Hrow Hcol]
    by (by apply (wf_cell_is_Some board)).
  destruct (decide (0 ≤ c < COLS)) as [Hc | Hc].
  - unfold pieces. rewrite column_set_cell by done.
    case_bool_decide as Heq; [subst c | done].
    rewrite (filter_length_insert _ _ _ EMPTY).
    + lia.
    + rewrite column_lookup by done. by rewrite Z2Nat.id by lia.
    + by intros ?.
    + done.
  - rewrite bool_decide_eq_false_2 by lia.
    rewrite (pieces_out_of_range board) by (done || lia).
    apply pieces_out_of_range; [by apply wf_set_cell | lia].
Qed.




(** ** The invariant of a game *)

Lemma mover_at_player i : is_player (mover_at i).
Proof. unfold mover_at. destruct (Nat.even i); [by left | by right]. Qed.

Lemma mover_at_S i : mover_at (S i) = getOtherPlayer (mover_at i).
Proof.
  unfold mover_at. rewrite Nat.even_succ, <- Nat.negb_even.
  by destruct (Nat.even i).
Qed.

Lemma is_player_not_empty p : is_player p → p ≠ EMPTY.
Proof. by intros [-> | ->]. Qed.

(** [won] is raised exactly on four in a row, and then [cells] is a line
    of the scanning order held by the player. *)
Lemma checkWin_won_iff board player :
  wf_board board →
  (won (checkWin board player) = true ↔ four_in_a_row board player) ∧
  (won (checkWin board player) = true →
     cells (checkWin board player) ∈ scan_order ∧
     line_owned board player (cells (checkWin board player)) = true).
Proof.
  intros Hwf. rewrite checkWin_scan.
  destruct (find (line_owned board player) scan_order) as [l|] eqn:Hfind; simpl.
  - apply find_some in Hfind as [Hin Howned]. apply list_elem_of_In in Hin.
    split; [| done]. split; [intros _ | done].
    apply scan_order_elem in Hin as (o & row & col & -> & _).
    exists o, row, col. by apply line_owned_spec.
  - split; [| done]. split; [done |]. intros (o & row & col & Hline).
    pose proof (find_none _ _ Hfind (line_from o row col)) as Hnot.
    rewrite (proj2 (line_owned_spec board player _)) in Hnot by done.
    symmetry. apply Hnot.
    apply list_elem_of_In, scan_order_elem. exists o, row, col. split; [done |].
    apply forallb_forall. intros c Hc%list_elem_of_In.
    eapply owns_on_grid; eauto.
Qed.

(** A piece of one player gives no line to the other. *)
Lemma four_in_a_row_set_cell board row col v p :
  is_Some (cell board row col) → p ≠ v →
  four_in_a_row (set_cell board row col v) p → four_in_a_row board p.
Proof.
  intros Hs Hne (o & r & c & Hline). exists o, r, c. intros x Hx.
  specialize (Hline x Hx). rewrite cell_set_cell in Hline by done.
  case_bool_decide; [congruence | done].
Qed.

Lemma total_pieces_set_cell board row col player :
  wf_board board → cell board row col = Some EMPTY → player ≠ EMPTY →
  total_pieces (set_cell board row col player) = total_pieces board + 1.
Proof.
  intros Hwf Hcell Hp.
  assert (0 ≤ row < ROWS ∧ 0 ≤ col < COLS) as [_ Hcol]
    by (apply (wf_cell_is_Some board); eauto).
  unfold total_pieces. change (seqZ 0 COLS) with [0; 1; 2; 3; 4; 5; 6]. simpl.
  rewrite !(pieces_set_cell board row col player) by done.
  unfold COLS in Hcol. repeat case_bool_decide; lia.
Qed.

Lemma total_pieces_bound board :
  wf_board board → 0 ≤ total_pieces board ≤ ROWS * COLS.
Proof.
  intros Hwf. unfold total_pieces.
  change (seqZ 0 COLS) with [0; 1; 2; 3; 4; 5; 6]. simpl.
  pose proof (pieces_range board 0 Hwf). pose proof (pieces_range board 1 Hwf).
  pose proof (pieces_range board 2 Hwf). pose proof (pieces_range board 3 Hwf).
  pose proof (pieces_range board 4 Hwf). pose proof (pieces_range board 5 Hwf).
  pose proof (pieces_range board 6 Hwf). unfold ROWS, COLS in *. lia.
Qed.

(** One more move on the board and in the history. *)
Lemma history_ok_step s s' col :
  wf_board (board s) → history_ok s →
  cell (board s) (getLowestEmptyRow (board s) col) col = Some EMPTY →
  currentPlayer s = mover_at (length (moveHistory s)) →
  board s' = set_cell (board s) (getLowestEmptyRow (board s) col) col (currentPlayer s) →
  moveHistory s' =
    moveHistory s ++ [mkMove col (getLowestEmptyRow (board s) col) (currentPlayer s)] →
  history_ok s'.
Proof.
  intros Hwf [Hcount Hentries] Hcell Hcur Hboard Hhist.
  set (r0 := getLowestEmptyRow (board s) col) in *.
  assert (currentPlayer s ≠ EMPTY) as Hp
    by (rewrite Hcur; apply is_player_not_empty, mover_at_player).
  assert (is_Some (cell (board s) r0 col)) as Hs by eauto.
  split.
  - rewrite Hhist, Hboard, length_app, total_pieces_set_cell by done.
    simpl. lia.
  - intros i m. rewrite Hhist, Hboard. intros Hm.
    apply lookup_app_Some in Hm as [Hold | [Hlen Hnew]].
    + destruct (Hentries i m Hold) as [Hplayer Hheld]. split; [done |].
      rewrite cell_set_cell by done.
      rewrite bool_decide_eq_false_2; [done |].
      intros [Hr Hc]. rewrite Hr, Hc, Hcell in Hheld.
      injection Hheld as Hheld. rewrite Hplayer in Hheld.
      by apply (is_player_not_empty _ (mover_at_player i)).
    + apply list_lookup_singleton_Some in Hnew as [Hi <-]. simpl.
      split.
      * rewrite Hcur. f_equal. lia.
      * rewrite cell_set_cell by done. by rewrite bool_decide_eq_true_2.
Qed.

Lemma lines_ok_step s s' col :
  wf_board (board s) → lines_ok s → winner s = None →
  is_player (currentPlayer s) →
  cell (board s) (getLowestEmptyRow (board s) col) col = Some EMPTY →
  board s' = set_cell (board s) (getLowestEmptyRow (board s) col) col (currentPlayer s) →
  (winner s' = Some (currentPlayer s) ∨
   won (checkWin (board s') (currentPlayer s)) = false) →
  lines_ok s'.
Proof.
  intros Hwf Hlines Hnone Hcur Hcell Hboard Hresult p Hp Hfour.
  destruct (decide (p = currentPlayer s)) as [-> | Hne].
  - destruct Hresult as [Hw | Hlost]; [done | exfalso].
    assert (wf_board (board s')) as Hwf' by (rewrite Hboard; by apply wf_set_cell).
    apply (checkWin_won_iff _ _ Hwf') in Hfour. congruence.
  - exfalso. rewrite Hboard in Hfour.
    apply four_in_a_row_set_cell in Hfour; [| eauto | done].
    specialize (Hlines p Hp Hfour). congruence.
Qed.

Lemma reachable_game_inv s :
  reachable s → history_ok s ∧ status_ok s ∧ lines_ok s.
Proof.
  induction 1 as [|s col Hreach (Hhist & Hstatus & Hlines)].
  - split_and!.
    + split; [done |]. intros i m Hm. by destruct i.
    + unfold status_ok. simpl. done.
    + intros p Hp Hfour. exfalso.
      apply (checkWin_won_iff _ _ wf_createBoard) in Hfour.
      by destruct Hp as [-> | ->].
  - destruct (reachable_invariant s Hreach) as (Hwf & Hgrav & Hplayer).
    destruct (makeMove_cases s col)
      as [[_ ->] | [(Hover & Hd & Hw & ->) |
                    [(Hover & Hd & Hw & Hfull & ->) | (Hover & Hd & Hw & Hfull & ->)]]];
      [done | | |];
      apply dropPiece_success in Hd as (Hcol & Hcell & Hd);
      rewrite Hd in Hw |- *; try rewrite Hd in Hfull; simpl in *;
      unfold status_ok in Hstatus; rewrite Hover in Hstatus;
      destruct Hstatus as (Hcur & Hnone & Hnodraw & Hnocells).
    + split_and!.
      * by eapply (history_ok_step s _ col).
      * unfold status_ok. simpl. split; [| by left].
        exists (length (moveHistory s)). split; [| done].
        rewrite length_app. simpl. lia.
      * eapply (lines_ok_step s _ col); eauto.
    + split_and!.
      * by eapply (history_ok_step s _ col).
      * unfold status_ok. simpl. split; [| by right].
        exists (length (moveHistory s)). split; [| done].
        rewrite length_app. simpl. lia.
      * eapply (lines_ok_step s _ col); eauto.
    + split_and!.
      * by eapply (history_ok_step s _ col).
      * unfold status_ok. simpl. split_and!; try done.
        rewrite length_app. simpl.
        replace (length (moveHistory s) + 1)%nat with (S (length (moveHistory s))) by lia.
        by rewrite mover_at_S, Hcur.
      * eapply (lines_ok_step s _ col); eauto.
Qed.

(** ** A full board *)

Lemma isBoardFull_top_row board :
  wf_board board →
  isBoardFull board = true ↔ ∀ c, 0 ≤ c < COLS → cell board 0 c ≠ Some EMPTY.
Proof.
  intros Hwf. destruct (proj2 (at_is_Some board 0)) as [row0 Hrow0].
  { destruct Hwf as [-> _]. unfold ROWS. lia. }
  assert (∀ c, cell board 0 c = at_ row0 c) as Hcell
    by (intros c; unfold cell; by rewrite Hrow0).
  assert (length row0 = Z.to_nat COLS) as Hlen.
  { destruct Hwf as [_ Hrows]. rewrite Forall_lookup in Hrows.
    apply at_Some in Hrow0 as [_ Hrow0]. by apply (Hrows _ _ Hrow0). }
  unfold isBoardFull. rewrite Hrow0, forallb_forall. split.
  - intros Hall c Hc. rewrite Hcell. intros [_ Hv]%at_Some.
    apply list_elem_of_lookup_2, list_elem_of_In, Hall in Hv. done.
  - intros Htop v Hv%list_elem_of_In.
    apply list_elem_of_lookup in Hv as [k Hk].
    destruct (Z.eqb_spec v EMPTY) as [-> |]; [exfalso | done].
    apply (Htop (Z.of_nat k)).
    + apply lookup_lt_Some in Hk. unfold COLS in *. lia.
    + by rewrite Hcell, at_of_nat.
Qed.

(** Under gravity a column holds [ROWS] pieces exactly when its top cell
    is taken. *)
Lemma column_full_iff_top board c :
  wf_board board → gravity board → 0 ≤ c < COLS →
  pieces board c = ROWS ↔ cell board 0 c ≠ Some EMPTY.
Proof.
  intros Hwf Hgrav Hc.
  pose proof (getLowestEmptyRow_pieces board c Hwf Hgrav Hc) as Hscan.
  destruct (getLowestEmptyRow_spec board c) as [[Hr Hall] | (Hr & Hcell & _)].
  - split; [intros _ | lia]. apply Hall. unfold ROWS. lia.
  - split; [unfold ROWS in *; lia |]. intros Htop. exfalso.
    set (r0 := getLowestEmptyRow board c) in *.
    destruct (decide (r0 = 0)) as [Hz | Hnz]; [rewrite Hz in Hcell; done |].
    destruct (proj2 (wf_cell_is_Some board 0 c Hwf)) as [v Hv].
    { unfold ROWS. lia. }
    apply (Hgrav 0 r0 c); [lia | | done].
    exists v. split; [done | congruence].
Qed.

(** Under gravity a taken top row means that no cell at all is empty. *)
Lemma isBoardFull_no_empty_cell board :
  wf_board board → gravity board →
  isBoardFull board = true ↔ ∀ row col, cell board row col ≠ Some EMPTY.
Proof.
  intros Hwf Hgrav. rewrite isBoardFull_top_row by done.
  split; [| by intros Hall c _].
  intros Htop row col Hcell.
  assert (0 ≤ row < ROWS ∧ 0 ≤ col < COLS) as [Hrow Hcol]
    by (apply (wf_cell_is_Some board); eauto).
  destruct (decide (row = 0)) as [-> | Hnz]; [by apply (Htop col) |].
  destruct (proj2 (wf_cell_is_Some board 0 col Hwf)) as [v Hv].
  { unfold ROWS. lia. }
  apply (Hgrav 0 row col); [lia | | done].
  exists v. split; [done |]. intros ->. by apply (Htop col).
Qed.

(** ... and that every column holds [ROWS] pieces. *)
Lemma isBoardFull_total_pieces board :
  wf_board board → gravity board →
  isBoardFull board = true ↔ total_pieces board = ROWS * COLS.
Proof.
  intros Hwf Hgrav. rewrite isBoardFull_top_row by done.
  assert (∀ c, 0 ≤ c < COLS → 0 ≤ pieces board c ≤ ROWS) as Hrange
    by (intros; by apply pieces_range).
  assert (∀ c, 0 ≤ c < COLS →
               (pieces board c = ROWS ↔ cell board 0 c ≠ Some EMPTY)) as Hcol
    by (intros; by apply column_full_iff_top).
  unfold total_pieces. change (seqZ 0 COLS) with [0; 1; 2; 3; 4; 5; 6]. simpl.
  unfold COLS, ROWS in *. split.
  - intros Htop.
    pose proof (proj2 (Hcol 0 ltac:(lia)) (Htop 0 ltac:(lia))).
    pose proof (proj2 (Hcol 1 ltac:(lia)) (Htop 1 ltac:(lia))).
    pose proof (proj2 (Hcol 2 ltac:(lia)) (Htop 2 ltac:(lia))).
    pose proof (proj2 (Hcol 3 ltac:(lia)) (Htop 3 ltac:(lia))).
    pose proof (proj2 (Hcol 4 ltac:(lia)) (Htop 4 ltac:(lia))).
    pose proof (proj2 (Hcol 5 ltac:(lia)) (Htop 5 ltac:(lia))).
    pose proof (proj2 (Hcol 6 ltac:(lia)) (Htop 6 ltac:(lia))).
    lia.
  - intros Hsum c Hc. apply Hcol; [done |].
    pose proof (Hrange 0 ltac:(lia)). pose proof (Hrange 1 ltac:(lia)).
    pose proof (Hrange 2 ltac:(lia)). pose proof (Hrange 3 ltac:(lia)).
    pose proof (Hrange 4 ltac:(lia)). pose proof (Hrange 5 ltac:(lia)).
    pose proof (Hrange 6 ltac:(lia)).
    assert (c = 0 ∨ c = 1 ∨ c = 2 ∨ c = 3 ∨ c = 4 ∨ c = 5 ∨ c = 6)
      as [-> | [-> | [-> | [-> | [-> | [-> | ->]]]]]] by lia; lia.
Qed.

(** [isBoardFull] looks at the top row only.  On a 6 x 7 board that obeys
    gravity it is true exactly when no cell of the board is [EMPTY], which
    is when the board holds [ROWS * COLS] pieces. *)
Theorem isBoardFull_iff_no_empty_cell board :
  wf_board board → gravity board →
  (isBoardFull board = true ↔ ∀ row col, cell board row col ≠ Some EMPTY) ∧
  (isBoardFull board = true ↔ total_pieces board = ROWS * COLS).
Proof.
  intros Hwf Hgrav. split.
  - by apply isBoardFull_no_empty_cell.
  - by apply isBoardFull_total_pieces.
Qed.

Lemma isBoardFull_iff_no_empty_cell_witness :
  isBoardFull (board (play [3; 3; 3; 3; 3; 3])) = false ∧
  total_pieces (board (play [3; 3; 3; 3; 3; 3])) ≠ ROWS * COLS.
Proof.
  assert (wf_board (board (play [3; 3; 3; 3; 3; 3]))) as Hwf
    by (split; [vm_compute; reflexivity | vm_compute; repeat constructor]).
  assert (gravity (board (play [3; 3; 3; 3; 3; 3]))) as Hgrav
    by (apply gravity_check_sound; [exact Hwf | vm_compute; reflexivity]).
  destruct (isBoardFull_iff_no_empty_cell _ Hwf Hgrav) as [_ Hcount].
  split; [vm_compute; reflexivity |].
  intros Hfull. apply Hcount in Hfull. vm_compute in Hfull. discriminate.
Defined.

(** [getValidColumns] lists, in increasing order and without repeats, the
    columns of [0, COLS) whose top cell is [EMPTY]; it is empty exactly when
    [isBoardFull] holds. *)
Theorem getValidColumns_top_cells this :
  wf_board (board this) →
  (∀ col, col ∈ getValidColumns this ↔
          0 ≤ col < COLS ∧ cell (board this) 0 col = Some EMPTY) ∧
  getValidColumns this `sublist_of` [0; 1; 2; 3; 4; 5; 6] ∧
  (getValidColumns this = [] ↔ isBoardFull (board this) = true).
Proof.
  intros Hwf.
  assert (∀ col, col ∈ getValidColumns this ↔
                 0 ≤ col < COLS ∧ cell (board this) 0 col = Some EMPTY) as Helem.
  { intros col. unfold getValidColumns, isColumnFull.
    rewrite list_elem_of_filter, elem_of_seqZ, negb_false_iff, is_val_true.
    unfold COLS. split; intros [? ?]; (split; [lia || done | lia || done]). }
  split_and!; [done | apply sublist_filter |].
  rewrite isBoardFull_top_row by done. split.
  - intros Hnil col Hcol Htop.
    assert (col ∈ getValidColumns this) as Hin by (by apply Helem).
    rewrite Hnil in Hin. by apply not_elem_of_nil in Hin.
  - intros Htop. destruct (getValidColumns this) as [|col l] eqn:Hl; [done | exfalso].
    destruct (proj1 (Helem col)) as [Hcol Hcell]; [apply list_elem_of_here |].
    by apply (Htop col).
Qed.

Lemma getValidColumns_top_cells_witness :
  getValidColumns (play [3; 3; 3; 3; 3; 3]) = [0; 1; 2; 4; 5; 6] ∧
  3 ∉ getValidColumns (play [3; 3; 3; 3; 3; 3]).
Proof.
  assert (wf_board (board (play [3; 3; 3; 3; 3; 3]))) as Hwf
    by (split; [vm_compute; reflexivity | vm_compute; repeat constructor]).
  destruct (getValidColumns_top_cells _ Hwf) as [Helem _].
  split; [vm_compute; reflexivity |].
  intros [_ Hcell]%Helem. vm_compute in Hcell. discriminate.
Defined.

(** ** Games from the first move to the last *)

(** In every state reached by [makeMove] from a fresh game, the history
    has one entry per piece on the board, at most [ROWS * COLS] of them; the
    entry number [i] was played by red when [i] is even and by yellow when
    it is odd, and the cell it names still holds that player. *)
Theorem reachable_history_matches_board s :
  reachable s →
  Z.of_nat (length (moveHistory s)) = total_pieces (board s) ∧
  Z.of_nat (length (moveHistory s)) ≤ ROWS * COLS ∧
  ∀ i m, moveHistory s !! i = Some m →
    move_player m = mover_at i ∧
    cell (board s) (move_row m) (move_col m) = Some (move_player m).
Proof.
  intros Hreach.
  destruct (reachable_game_inv s Hreach) as ([Hcount Hentries] & _ & _).
  destruct (reachable_invariant s Hreach) as (Hwf & _ & _).
  split_and!; [done | | done].
  rewrite Hcount. by apply total_pieces_bound.
Qed.

Lemma reachable_history_matches_board_witness :
  length (moveHistory (play [3; 3; 4; 0])) = 4%nat ∧
  total_pieces (board (play [3; 3; 4; 0])) = 4.
Proof.
  destruct (reachable_history_matches_board (play [3; 3; 4; 0]) (reachable_play _))
    as (Hcount & _ & _).
  split; [vm_compute; reflexivity |].
  rewrite <- Hcount. vm_compute. reflexivity.
Defined.

(** While a reachable game is not over, red is to move after an even
    number of moves and yellow after an odd number.  Once it is over,
    [currentPlayer] is not switched any more: it is the player who made the
    last move. *)
Theorem reachable_turn_parity s :
  reachable s →
  (gameOver s = false →
     currentPlayer s = mover_at (length (moveHistory s))) ∧
  (gameOver s = true →
     ∃ m, last (moveHistory s) = Some m ∧ currentPlayer s = move_player m).
Proof.
  intros Hreach.
  destruct (reachable_game_inv s Hreach) as ([_ Hentries] & Hstatus & _).
  unfold status_ok in Hstatus.
  destruct (gameOver s); split; try done.
  - intros _. destruct Hstatus as [(n & Hlen & Hcur) _].
    destruct (moveHistory s) as [|m0 l] eqn:Hh using rev_ind; [done |].
    exists m0. rewrite last_snoc. split; [done |].
    rewrite length_app in Hlen. simpl in Hlen.
    destruct (Hentries (length l) m0) as [-> _].
    + by apply list_lookup_middle.
    + rewrite Hcur. f_equal. lia.
  - intros _. by destruct Hstatus as [? _].
Qed.

Lemma reachable_turn_parity_witness :
  currentPlayer (play [3; 3; 4]) = PLAYER_YELLOW ∧
  currentPlayer (play [0; 0; 1; 1; 2; 2; 3]) = PLAYER_RED.
Proof.
  destruct (reachable_turn_parity (play [3; 3; 4]) (reachable_play _)) as [Hon _].
  split; [| vm_compute; reflexivity].
  rewrite Hon by (vm_compute; reflexivity). vm_compute. reflexivity.
Defined.

(** The flags of a reachable state agree: the game is over exactly when a
    winner is set or a draw is declared, never both; the winning cells are
    empty unless there is a winner; and a declared draw means that all
    [ROWS * COLS] cells are taken, after as many moves. *)
Theorem reachable_flags_coherent s :
  reachable s →
  (gameOver s = true ↔ winner s ≠ None ∨ isDraw s = true) ∧
  (winner s ≠ None → isDraw s = false) ∧
  (winner s = None → winningCells s = []) ∧
  (isDraw s = true →
     isBoardFull (board s) = true ∧
     (∀ row col, cell (board s) row col ≠ Some EMPTY) ∧
     Z.of_nat (length (moveHistory s)) = ROWS * COLS).
Proof.
  intros Hreach.
  destruct (reachable_game_inv s Hreach) as ([Hcount _] & Hstatus & _).
  destruct (reachable_invariant s Hreach) as (Hwf & Hgrav & _).
  pose proof (isBoardFull_no_empty_cell _ Hwf Hgrav) as Hcells.
  pose proof (isBoardFull_total_pieces _ Hwf Hgrav) as Hsum.
  unfold status_ok in Hstatus.
  assert (isDraw s = true → isBoardFull (board s) = true) as Hdraw.
  { destruct (gameOver s).
    - destruct Hstatus as [_ [(_ & -> & _) | (_ & _ & _ & ?)]]; done.
    - destruct Hstatus as (_ & _ & -> & _). done. }
  destruct (gameOver s).
  - destruct Hstatus as [_ [(Hw & Hd & _ & _) | (Hw & Hd & Hc & Hfull)]].
    + split_and!; [by rewrite Hw; split; [left |] | done | by rewrite Hw | ].
      by rewrite Hd.
    + split_and!; [split; [by right | done] | by rewrite Hw | done |].
      intros _. split_and!; [done | by apply Hcells | ].
      rewrite Hcount. by apply Hsum.
  - destruct Hstatus as (_ & Hw & Hd & Hc).
    split_and!; [| by rewrite Hw | done | by rewrite Hd].
    rewrite Hw, Hd. split; [done | by intros [? | ?]].
Qed.

Lemma reachable_flags_coherent_witness :
  gameOver (play [0; 0; 1; 1; 2; 2; 3]) = true ∧
  isDraw (play [0; 0; 1; 1; 2; 2; 3]) = false.
Proof.
  destruct (reachable_flags_coherent (play [0; 0; 1; 1; 2; 2; 3]) (reachable_play _))
    as (_ & Hnodraw & _).
  split; [vm_compute; reflexivity |].
  apply Hnodraw. vm_compute. discriminate.
Defined.

(** In every reachable state a player (red or yellow) is the recorded
    winner exactly when that player has four in a row on the board.  The
    winner is then the player who moved last, and the winning cells are a
    line of the scanning order whose four cells all hold the winner. *)
Theorem reachable_winner_iff_four_in_a_row s p :
  reachable s → is_player p →
  (winner s = Some p ↔ four_in_a_row (board s) p) ∧
  (winner s = Some p →
     gameOver s = true ∧ p = currentPlayer s ∧
     winningCells s ∈ scan_order ∧
     line_owned (board s) p (winningCells s) = true).
Proof.
  intros Hreach Hp.
  destruct (reachable_game_inv s Hreach) as (_ & Hstatus & Hlines).
  destruct (reachable_invariant s Hreach) as (Hwf & _ & _).
  assert (winner s = Some p →
          gameOver s = true ∧ p = currentPlayer s ∧
          won (checkWin (board s) p) = true ∧
          winningCells s = cells (checkWin (board s) p)) as Hwin.
  { intros Hw. unfold status_ok in Hstatus. destruct (gameOver s).
    - destruct Hstatus as [_ [(Hw' & _ & Hwon & Hcells) | (Hw' & _)]]; [| congruence].
      assert (p = currentPlayer s) as -> by congruence. done.
    - destruct Hstatus as (_ & Hw' & _). congruence. }
  destruct (checkWin_won_iff (board s) p Hwf) as [Hiff Hline].
  split.
  - split; [| by apply Hlines].
    intros (_ & _ & Hwon & _)%Hwin. by apply Hiff.
  - intros (Hover & Hcur & Hwon & Hcells)%Hwin. rewrite Hcells.
    destruct (Hline Hwon). done.
Qed.

Lemma reachable_winner_iff_four_in_a_row_witness :
  winner (play [0; 0; 1; 1; 2; 2; 3]) = Some PLAYER_RED ∧
  four_in_a_row (board (play [0; 0; 1; 1; 2; 2; 3])) PLAYER_RED ∧
  ¬ four_in_a_row (board (play [0; 0; 1; 1; 2; 2; 3])) PLAYER_YELLOW.
Proof.
  destruct (reachable_winner_iff_four_in_a_row (play [0; 0; 1; 1; 2; 2; 3]) PLAYER_RED
              (reachable_play _) (or_introl eq_refl)) as [Hred _].
  destruct (reachable_winner_iff_four_in_a_row (play [0; 0; 1; 1; 2; 2; 3]) PLAYER_YELLOW
              (reachable_play _) (or_intror eq_refl)) as [Hyellow _].
  split_and!; [vm_compute; reflexivity | apply Hred; vm_compute; reflexivity |].
  intros Hfour%Hyellow. vm_compute in Hfour. discriminate.
Defined.

(** ** The colour of the dropped piece *)

Lemma getPlayerColor_differs p :
  getPlayerColor (getOtherPlayer p) ≠ getPlayerColor p.
Proof.
  unfold getPlayerColor, getOtherPlayer.
  destruct (Z.eqb_spec p PLAYER_RED) as [-> | Hne]; [done |].
  by rewrite Z.eqb_refl.
Qed.

(** After a successful move the client animates the drop in the colour of
    the player other than [currentPlayer].  From a reachable state this is
    the colour of the player who moved when the game goes on, and the
    colour of the opponent when the move won or drew the game, since
    [currentPlayer] is then left on the mover. *)
Theorem dropColor_mover_unless_terminal s col :
  reachable s → res_success (makeMove s col).2 = true →
  (gameOver (makeMove s col).1 = false →
     dropColor (makeMove s col).1 = getPlayerColor (currentPlayer s)) ∧
  (gameOver (makeMove s col).1 = true →
     dropColor (makeMove s col).1 = getPlayerColor (getOtherPlayer (currentPlayer s)) ∧
     dropColor (makeMove s col).1 ≠ getPlayerColor (currentPlayer s)).
Proof.
  intros Hreach Hok.
  destruct (reachable_invariant s Hreach) as (_ & _ & Hp).
  assert (∀ p, is_player p →
               (if p =? PLAYER_RED then PLAYER_YELLOW else PLAYER_RED) = getOtherPlayer p)
    as Hother by done.
  unfold dropColor.
  destruct (makeMove_cases s col)
    as [[_ Hm] | [(_ & _ & _ & Hm) | [(_ & _ & _ & _ & Hm) | (_ & _ & _ & _ & Hm)]]];
    rewrite Hm in Hok |- *; simpl in *; [done | | |].
  - split; [done |]. intros _. rewrite Hother by done.
    split; [done | apply getPlayerColor_differs].
  - split; [done |]. intros _. rewrite Hother by done.
    split; [done | apply getPlayerColor_differs].
  - split; [| done]. intros _.
    rewrite Hother by apply getOtherPlayer_player.
    destruct Hp as [-> | ->]; done.
Qed.

Lemma dropColor_mover_unless_terminal_witness :
  currentPlayer (play [0; 0; 1; 1; 2; 2]) = PLAYER_RED ∧
  res_winner (makeMove (play [0; 0; 1; 1; 2; 2]) 3).2 = Some PLAYER_RED ∧
  dropColor (makeMove (play [0; 0; 1; 1; 2; 2]) 3).1 = "yellow".
Proof.
  destruct (dropColor_mover_unless_terminal (play [0; 0; 1; 1; 2; 2]) 3
              (reachable_play _)) as [_ Hend].
  - vm_compute. reflexivity.
  - destruct Hend as [Hcolor _]; [vm_compute; reflexivity |].
    split_and!; [vm_compute; reflexivity | vm_compute; reflexivity |].
    rewrite Hcolor. vm_compute. reflexivity.
Defined.

(** ** Copies and new boards on the store *)

(** [cloneBoard] is a deep copy.  The reference it returns denotes the
    board value of its argument; the outer array and every row array of the
    copy are new objects, distinct from each other; nothing of the store is
    overwritten; and a later write to a cell of the copy shows in the copy
    and not in the original. *)
Theorem cloneBoard_st_deep_copy σ b board :
  read_board σ b = Some board →
  let σ' := (cloneBoard_st σ b).1 in
  let b' := (cloneBoard_st σ b).2 in
  read_board σ' b' = Some board ∧
  σ `prefix_of` σ' ∧
  (∃ rows', load_grid σ' b' = Some rows' ∧ NoDup rows' ∧
            (length σ ≤ b')%nat ∧ ∀ l, l ∈ rows' → (length σ ≤ l < b')%nat) ∧
  ∀ row col v, is_Some (cell board row col) →
    read_board (store_cell σ' b' row col v) b' = Some (set_cell board row col v) ∧
    read_board (store_cell σ' b' row col v) b = Some board.
Proof.
  intros Hb. cbv zeta. rewrite (cloneBoard_st_spec _ _ _ Hb). simpl.
  split_and!.
  - apply read_board_cloned.
  - by apply prefix_app_r.
  - exists (seq (length σ) (length board)).
    split_and!; [apply cloned_grid | apply NoDup_seq | lia |].
    intros l Hl%elem_of_seq. lia.
  - intros row col v Hs. rewrite store_cell_cloned by done. split.
    + assert (length board = length (set_cell board row col v)) as ->
        by (unfold set_cell; by rewrite length_alter).
      apply read_board_cloned.
    + by apply read_board_extend.
Qed.

Lemma cloneBoard_st_deep_copy_witness :
  read_board (cloneBoard_st sample_store 6).1 (cloneBoard_st sample_store 6).2
    = Some (board (play [3; 3; 3])) ∧
  read_board
    (store_cell (cloneBoard_st sample_store 6).1 (cloneBoard_st sample_store 6).2 0 0 9)
    6 = Some (board (play [3; 3; 3])).
Proof.
  assert (read_board sample_store 6 = Some (board (play [3; 3; 3]))) as Hb
    by (vm_compute; reflexivity).
  destruct (cloneBoard_st_deep_copy sample_store 6 _ Hb) as (Hread & _ & _ & Hwrite).
  split; [exact Hread |].
  destruct (Hwrite 0 0 9) as [_ Hkept]; [vm_compute; eauto | exact Hkept].
Defined.

Lemma new_rows_spec σ n :
  new_rows σ n =
    (σ ++ replicate n (Row (replicate (Z.to_nat COLS) EMPTY)), seq (length σ) n).
Proof.
  revert σ. induction n as [|n IH]; intros σ; simpl.
  - by rewrite app_nil_r.
  - rewrite IH. rewrite length_app. simpl. rewrite <- app_assoc. simpl.
    by replace (length σ + 1)%nat with (S (length σ)) by lia.
Qed.

Lemma createBoard_st_spec σ :
  createBoard_st σ = (cloned σ createBoard, (length σ + Z.to_nat ROWS)%nat).
Proof.
  unfold createBoard_st, cloned, createBoard, alloc. rewrite new_rows_spec.
  rewrite fmap_replicate, length_replicate, <- app_assoc, length_app, length_replicate.
  done.
Qed.

(** [createBoard] builds six distinct row arrays: the new board reads as
    all [EMPTY], nothing of the store is overwritten, and a write to one cell
    of the grid changes that cell alone, the same column of the other rows
    staying [EMPTY]. *)
Theorem createBoard_st_independent_rows σ row col v :
  0 ≤ row < ROWS → 0 ≤ col < COLS →
  let σ' := (createBoard_st σ).1 in
  let b := (createBoard_st σ).2 in
  read_board σ' b = Some createBoard ∧
  σ `prefix_of` σ' ∧
  (∀ r c, 0 ≤ r < ROWS → 0 ≤ c < COLS → load_cell σ' b r c = Some EMPTY) ∧
  (∀ r c, 0 ≤ r < ROWS → 0 ≤ c < COLS →
     load_cell (store_cell σ' b row col v) b r c =
     if bool_decide (r = row ∧ c = col) then Some v else Some EMPTY).
Proof.
  intros Hrow Hcol. cbv zeta. rewrite createBoard_st_spec. simpl.
  assert (length createBoard = Z.to_nat ROWS) as Hlen by done.
  assert (∀ r c, 0 ≤ r < ROWS → 0 ≤ c < COLS → cell createBoard r c = Some EMPTY)
    as Hempty.
  { intros r c Hr Hc.
    destruct (proj2 (wf_cell_is_Some createBoard r c wf_createBoard)) as [x Hx];
      [done |].
    rewrite Hx. f_equal.
    apply cell_Some in Hx as (cs & [_ Hcs]%at_Some & [_ Hc']%at_Some).
    unfold createBoard in Hcs. apply lookup_replicate in Hcs as [-> _].
    by apply lookup_replicate in Hc' as [-> _]. }
  assert (read_board (cloned σ createBoard) (length σ + Z.to_nat ROWS)
          = Some createBoard) as Hread
    by (rewrite <- Hlen; apply read_board_cloned).
  split_and!.
  - done.
  - by apply prefix_app_r.
  - intros r c Hr Hc. rewrite (load_cell_read _ _ _ _ _ Hread). by apply Hempty.
  - intros r c Hr Hc. rewrite <- Hlen.
    rewrite store_cell_cloned by (rewrite Hempty by done; eauto).
    assert (length createBoard = length (set_cell createBoard row col v)) as Hlen'
      by (unfold set_cell; by rewrite length_alter).
    rewrite Hlen' at 1.
    rewrite (load_cell_read _ _ _ _ _ (read_board_cloned _ _)).
    rewrite cell_set_cell by (rewrite Hempty by done; eauto).
    case_bool_decide; [done | by apply Hempty].
Qed.

Lemma createBoard_st_independent_rows_witness :
  load_cell (store_cell (createBoard_st []).1 (createBoard_st []).2 5 3 1)
    (createBoard_st []).2 5 3 = Some 1 ∧
  load_cell (store_cell (createBoard_st []).1 (createBoard_st []).2 5 3 1)
    (createBoard_st []).2 4 3 = Some EMPTY.
Proof.
  destruct (createBoard_st_independent_rows [] 5 3 1) as (_ & _ & _ & Hwrite).
  - unfold ROWS. lia.
  - unfold COLS. lia.
  - split.
    + apply (Hwrite 5 3); [unfold ROWS | unfold COLS]; lia.
    + apply (Hwrite 4 3); [unfold ROWS | unfold COLS]; lia.
Defined.

(** ** Turn helpers of the client *)

(** [getOtherPlayer] and [LocalMultiplayer.switchPlayer] are the same
    function: it swaps 1 and 2, sends every other value to 1, so applying it
    twice gives back a player number and only a player number; switching
    [n] times from player 1 gives the player of move [n].
    [getOpponentNumber] agrees with it on a client that holds a number, and
    answers 1 on a client that holds none. *)
Theorem switchPlayer_swaps_players p :
  switchPlayer p = getOtherPlayer p ∧
  is_player (getOtherPlayer p) ∧
  (getOtherPlayer (getOtherPlayer p) = p ↔ is_player p) ∧
  (¬ is_player p → getOtherPlayer p = PLAYER_RED) ∧
  (∀ n, Nat.iter n switchPlayer 1 = mover_at n) ∧
  getOpponentNumber (Some p) = getOtherPlayer p ∧
  getOpponentNumber None = 1.
Proof.
  split_and!; try done.
  - apply getOtherPlayer_player.
  - unfold getOtherPlayer, is_player, PLAYER_RED, PLAYER_YELLOW.
    destruct (Z.eqb_spec p 1) as [-> | Hne]; [simpl; tauto |].
    simpl. split; [intros <-; by right | intros [? | ->]; done].
  - unfold getOtherPlayer, is_player.
    destruct (Z.eqb_spec p PLAYER_RED) as [-> | Hne]; [intros []; by left | done].
  - induction n as [|n IH]; [done |].
    rewrite mover_at_S, <- IH. done.
Qed.

(** The turn check of the client.  A client that holds no player number
    never passes it.  For the current player of any reachable game state,
    exactly one of the clients numbered 1 and 2 passes it, and after a
    successful move that does not end the game it is the other one. *)
Theorem isMyTurn_exactly_one s :
  reachable s →
  isMyTurn None (currentPlayer s) = false ∧
  isMyTurn (Some 2) (currentPlayer s) = negb (isMyTurn (Some 1) (currentPlayer s)) ∧
  (∀ n, isMyTurn (Some (getOpponentNumber (Some n))) (currentPlayer s) = true →
        isMyTurn (Some n) (currentPlayer s) = false) ∧
  (∀ col n, is_player n →
     res_success (makeMove s col).2 = true →
     gameOver (makeMove s col).1 = false →
     isMyTurn (Some n) (currentPlayer (makeMove s col).1) =
       negb (isMyTurn (Some n) (currentPlayer s))).
Proof.
  intros Hreach.
  destruct (reachable_invariant s Hreach) as (_ & _ & Hp).
  split_and!.
  - done.
  - by destruct Hp as [-> | ->].
  - intros n. unfold isMyTurn, getOpponentNumber, is_val.
    destruct (Z.eqb_spec n 1) as [-> | Hne].
    + by destruct Hp as [-> | ->].
    + intros Heq%Z.eqb_eq. apply Z.eqb_neq. congruence.
  - intros col n Hn Hok Hon.
    destruct (makeMove_cases s col)
      as [[_ Hm] | [(_ & _ & _ & Hm) | [(_ & _ & _ & _ & Hm) | (_ & _ & _ & _ & Hm)]]];
      rewrite Hm in Hok, Hon |- *; simpl in *; try done.
    destruct Hp as [-> | ->], Hn as [-> | ->]; done.
Qed.

Lemma isMyTurn_exactly_one_witness :
  isMyTurn (Some 1) (currentPlayer (play [3])) = false ∧
  isMyTurn (Some 2) (currentPlayer (play [3])) = true.
Proof.
  destruct (isMyTurn_exactly_one (play [3]) (reachable_play _)) as (_ & Hone & _).
  split; [vm_compute; reflexivity |].
  rewrite Hone. vm_compute. reflexivity.
Defined.

(** The client-side code generator: with draws in [0, 1) it returns six
    characters of the alphabet after exactly six draws, never one of the
    look-alikes 0, O, 1 and I; the server's generator returns the very same
    code whenever the registry does not hold it. *)
Theorem generateGameCode_client_shape rand pos :
  fair rand →
  let code := (generateGameCode_client rand pos).1 in
  String.length code = 6%nat ∧
  over_alphabet code ∧
  (generateGameCode_client rand pos).2 = (pos + 6)%nat ∧
  (∀ c, c ∈ String.list_ascii_of_string code →
        c ∉ String.list_ascii_of_string "0O1I") ∧
  (∀ games fuel, games !! code = None →
     generateGameCode (S fuel) games rand pos = Some (generateGameCode_client rand pos)).
Proof.
  intros Hfair. cbv zeta. unfold generateGameCode_client. simpl fst. simpl snd.
  destruct (attempt_shape rand pos 0 Hfair) as [Hlen Halpha].
  change (attempt rand pos 0) with (draw_code rand pos 6 "") in *.
  split_and!; try done.
  - intros c Hc. unfold over_alphabet in Halpha. rewrite Forall_forall in Halpha.
    specialize (Halpha c Hc). revert Halpha. generalize c. clear.
    intros c Hin Hbad. unfold alphabet in Hin.
    apply list_elem_of_In in Hbad. simpl in Hbad.
    destruct Hbad as [<- | [<- | [<- | [<- | []]]]];
      apply list_elem_of_In in Hin; simpl in Hin;
      repeat (destruct Hin as [Hin | Hin]; [discriminate Hin |]); done.
  - intros games fuel Hfree. rewrite generateGameCode_step.
    change (games !! attempt rand pos 0 = None) in Hfree.
    rewrite Hfree. by rewrite bool_decide_eq_false_2 by (by intros [? ?]).
Qed.

Lemma generateGameCode_client_shape_witness :
  generateGameCode_client cycling 6 = ("GHJKLM", 12%nat) ∧
  String.length "GHJKLM" = 6%nat.
Proof.
  destruct (generateGameCode_client_shape cycling 6 fair_cycling) as (Hlen & _).
  split; [vm_compute; reflexivity | exact Hlen].
Defined.

(** ** The handlers of the server, case by case *)

Lemma on_create_inv fuel srv rand pos socket now srv' out pos' :
  on_create fuel srv rand pos socket now = Some (srv', out, pos') →
  ∃ code,
    games srv !! code = None ∧
    srv' = mkServer (<[code := mkGame code socket [socket] None 1 now ∅]> (games srv))
                    (channel_join srv socket code) ∧
    out = [Ack socket (ReplyCreated code); ToSocket socket (EvCreated code 1)] ∧
    generateGameCode fuel (games srv) rand pos = Some (code, pos').
Proof.
  unfold on_create, createGame.
  destruct (generateGameCode fuel (games srv) rand pos) as [[code p]|] eqn:Hgen;
    [| done].
  intros [= <- <- <-]. exists code.
  apply generateGameCode_returns in Hgen as Hret.
  destruct Hret as (k & _ & _ & _ & Hfree & _). done.
Qed.

Lemma on_join_cases srv socket gameCode :
  (games srv !! gameCode = None ∧
   on_join srv socket gameCode = (srv, [Ack socket (ReplyError "Game not found")])) ∨
  (∃ game, games srv !! gameCode = Some game ∧ (2 ≤ length (players game))%nat ∧
   on_join srv socket gameCode = (srv, [Ack socket (ReplyError "Game is full")])) ∨
  (∃ game, games srv !! gameCode = Some game ∧ (length (players game) < 2)%nat ∧
   on_join srv socket gameCode =
     (mkServer (<[gameCode := set_players (players game ++ [socket]) game]> (games srv))
               (channel_join srv socket gameCode),
      [Ack socket (ReplyJoined gameCode 2);
       ToSocket socket (EvJoined gameCode 2);
       ToOthers socket gameCode (EvOpponentJoined socket)])).
Proof.
  unfold on_join. destruct (games srv !! gameCode) as [game|]; [| by left].
  right. case_bool_decide; [left | right]; exists game; split_and!; done || lia.
Qed.

Lemma leaveGame_cases srv socket gameCode :
  (games srv !! gameCode = None ∧ leaveGame srv socket gameCode = (srv, [])) ∨
  (∃ game, games srv !! gameCode = Some game ∧
     filter (λ id, id ≠ socket) (players game) = [] ∧
     leaveGame srv socket gameCode =
       (mkServer (delete gameCode (games srv)) (channel_leave srv socket gameCode),
        [ToOthers socket gameCode (EvOpponentLeft socket)])) ∨
  (∃ game, games srv !! gameCode = Some game ∧
     filter (λ id, id ≠ socket) (players game) ≠ [] ∧
     leaveGame srv socket gameCode =
       (mkServer (<[gameCode :=
                     set_players (filter (λ id, id ≠ socket) (players game)) game]>
                    (games srv))
                 (channel_leave srv socket gameCode),
        [ToOthers socket gameCode (EvOpponentLeft socket)])).
Proof.
  unfold leaveGame. destruct (games srv !! gameCode) as [game|]; [| by left].
  right. simpl.
  destruct (filter (λ id, id ≠ socket) (players game)) as [|x l] eqn:Hf.
  - left. exists game. by rewrite Hf.
  - right. exists game. by rewrite Hf.
Qed.

Lemma on_move_cases srv socket gameCode column row state :
  (games srv !! gameCode = None ∧
   on_move srv socket gameCode column row state = (srv, [])) ∨
  (∃ game, games srv !! gameCode = Some game ∧
   on_move srv socket gameCode column row state =
     (mkServer (<[gameCode := set_gameState state game]> (games srv)) (channels srv),
      [ToOthers socket gameCode (EvMove column row state)])).
Proof.
  unfold on_move. destruct (games srv !! gameCode) as [game|]; [right | by left].
  by exists game.
Qed.

Lemma channel_insert srv games' room members code :
  channel (mkServer games' (<[room := members]> (channels srv))) code =
  if decide (room = code) then members else channel srv code.
Proof.
  unfold channel. simpl. rewrite lookup_insert. by case_decide.
Qed.

Lemma list_to_set_filter_ne (l : list SocketId) (socket : SocketId) :
  (list_to_set (filter (λ id, id ≠ socket) l) : gset SocketId) =
  list_to_set l ∖ {[socket]}.
Proof.
  apply set_eq. intros x.
  rewrite elem_of_difference, !elem_of_list_to_set, list_elem_of_filter.
  set_solver.
Qed.

(** ** Invariants of the registry *)

(** Reduces the projections of a room that was just rebuilt. *)
Ltac room_fields :=
  unfold set_players, set_rematchRequests, set_gameState, set_game_currentPlayer;
  cbn [game_code hostId players gameState game_currentPlayer createdAt
       rematchRequests].

(** Whatever the clients send, and whether or not rooms expire and
    connections close: every room of the registry is filed under its own
    code, has one or two players, and has at most one rematch request on
    record between two handler calls. *)
Theorem runs_registry_ok rough srv :
  runs rough srv → registry_ok srv.
Proof.
  induction 1 as [| srv fuel rand pos socket now srv' out pos' _ IH Hcreate
                  | srv socket gameCode _ IH
                  | srv socket gameCode _ IH
                  | srv socket gameCode column row state _ IH
                  | srv socket gameCode _ IH
                  | srv now _ _ IH
                  | srv socket _ _ IH ].
  - intros code g Hg. done.
  - apply on_create_inv in Hcreate as (c & _ & -> & _ & _).
    intros code g. simpl. rewrite lookup_insert. case_decide as Hc; [| apply IH].
    intros [= <-]. subst. unfold room_ok. room_fields.
    rewrite size_empty. split_and!; simpl; done || lia.
  - destruct (on_join_cases srv socket gameCode)
      as [[_ ->] | [(g0 & _ & _ & ->) | (g0 & Hg0 & Hlen & ->)]]; [done | done |].
    intros code g. simpl. rewrite lookup_insert. case_decide as Hc; [| apply IH].
    intros [= <-]. subst. destruct (IH _ _ Hg0) as (Hcode & Hpl & Hreq).
    unfold room_ok. room_fields. rewrite length_app. simpl.
    split_and!; simpl; done || lia.
  - destruct (leaveGame_cases srv socket gameCode)
      as [[_ ->] | [(g0 & Hg0 & Hnil & ->) | (g0 & Hg0 & Hsome & ->)]]; [done | |].
    + intros code g. simpl. rewrite lookup_delete. case_decide; [done | apply IH].
    + intros code g. simpl. rewrite lookup_insert. case_decide as Hc; [| apply IH].
      intros [= <-]. subst. destruct (IH _ _ Hg0) as (Hcode & Hpl & Hreq).
      unfold room_ok. room_fields.
      pose proof (length_filter (λ id, id ≠ socket) (players g0)).
      destruct (filter (λ id, id ≠ socket) (players g0)); [done |].
      simpl in *. split_and!; simpl; done || lia.
  - destruct (on_move_cases srv socket gameCode column row state)
      as [[_ ->] | (g0 & Hg0 & ->)]; [done |].
    intros code g. simpl. rewrite lookup_insert. case_decide as Hc; [| apply IH].
    intros [= <-]. subst. by destruct (IH _ _ Hg0).
  - destruct (games srv !! gameCode) as [g0|] eqn:Hg0;
      [| by rewrite on_rematch_unknown].
    destruct (IH _ _ Hg0) as (Hcode & Hpl & Hreq).
    destruct (on_rematch_cases srv socket gameCode g0 Hg0) as [[_ ->] | [Hlt ->]];
      intros code g; simpl; rewrite lookup_insert; (case_decide as Hc; [| apply IH]);
      intros [= <-]; subst; unfold room_ok; room_fields.
    + rewrite size_empty. split_and!; simpl; done || lia.
    + split_and!; simpl; done || lia.
  - intros code g. unfold cleanupOldGames. simpl.
    intros [Hg _]%map_lookup_filter_Some. by apply IH.
  - intros code g. simpl. apply IH.
Qed.

(** As long as no room expires and no connection closes without leaving,
    the channel of every room holds exactly the players of the room, so a
    broadcast to the room reaches its occupants and nobody else, and no
    socket is left in the channel of a code that has no room. *)
Theorem runs_channels_ok srv :
  runs false srv → channels_ok srv.
Proof.
  induction 1 as [| srv fuel rand pos socket now srv' out pos' _ IH Hcreate
                  | srv socket gameCode _ IH
                  | srv socket gameCode _ IH
                  | srv socket gameCode column row state _ IH
                  | srv socket gameCode _ IH
                  | srv now Hrough _ IH
                  | srv socket Hrough _ IH ]; try done.
  - apply on_create_inv in Hcreate as (c & Hfree & -> & _ & _).
    intros code. cbn [fst]. unfold channel_join. rewrite channel_insert. simpl.
    rewrite lookup_insert. case_decide as Hc; [subst code | apply IH].
    rewrite IH, Hfree. simpl. set_solver.
  - destruct (on_join_cases srv socket gameCode)
      as [[_ ->] | [(g0 & _ & _ & ->) | (g0 & Hg0 & Hlen & ->)]]; [done | done |].
    intros code. cbn [fst]. unfold channel_join. rewrite channel_insert. simpl.
    rewrite lookup_insert. case_decide as Hc; [subst code | apply IH].
    rewrite IH, Hg0. simpl. rewrite list_to_set_app_L. set_solver.
  - destruct (leaveGame_cases srv socket gameCode)
      as [[_ ->] | [(g0 & Hg0 & Hnil & ->) | (g0 & Hg0 & Hsome & ->)]]; [done | |].
    + intros code. cbn [fst]. unfold channel_leave. rewrite channel_insert. simpl.
      rewrite lookup_delete. case_decide as Hc; [subst code | apply IH].
      rewrite IH, Hg0, <- list_to_set_filter_ne, Hnil. done.
    + intros code. cbn [fst]. unfold channel_leave. rewrite channel_insert. simpl.
      rewrite lookup_insert. case_decide as Hc; [subst code | apply IH].
      rewrite IH, Hg0. simpl. by rewrite list_to_set_filter_ne.
  - destruct (on_move_cases srv socket gameCode column row state)
      as [[_ ->] | (g0 & Hg0 & ->)]; [done |].
    intros code. unfold channel. simpl. rewrite lookup_insert.
    case_decide as Hc; [subst code | apply IH].
    specialize (IH gameCode). unfold channel in IH. by rewrite IH, Hg0.
  - destruct (games srv !! gameCode) as [g0|] eqn:Hg0;
      [| by rewrite on_rematch_unknown].
    destruct (on_rematch_cases srv socket gameCode g0 Hg0) as [[_ ->] | [Hlt ->]];
      intros code; unfold channel; simpl; rewrite lookup_insert;
      (case_decide as Hc; [subst code | apply IH]);
      specialize (IH gameCode); unfold channel in IH; by rewrite IH, Hg0.
Qed.

Lemma runs_server_playing rough : runs rough server_playing.
Proof.
  apply runs_move, runs_join.
  apply (runs_create rough empty_server 1 cycling 0 "a" 0 server_a
           [Ack "a" (ReplyCreated "ABCDEF"); ToSocket "a" (EvCreated "ABCDEF" 1)]
           6%nat (runs_start rough)).
  vm_compute. reflexivity.
Qed.

Lemma runs_registry_ok_witness :
  room_ok "ABCDEF" (mkGame "ABCDEF" "a" ["a"; "b"] (Some (serialize (play [3]))) 1 0 ∅).
Proof.
  apply (runs_registry_ok true server_playing (runs_server_playing true) "ABCDEF").
  vm_compute. reflexivity.
Defined.

Lemma runs_channels_ok_witness :
  channel server_playing "ABCDEF" = {["a"; "b"]} ∧
  channel server_playing "GHJKLM" = ∅.
Proof.
  pose proof (runs_channels_ok server_playing (runs_server_playing false)) as Hok.
  split.
  - rewrite (Hok "ABCDEF"). vm_compute. reflexivity.
  - rewrite (Hok "GHJKLM"). vm_compute. reflexivity.
Defined.

(** ** Joining *)

(** [game:join] fails with "Game not found" on a code without a room and
    with "Game is full" on a room of two players, changing nothing.
    Otherwise it appends the socket to the players (without checking
    whether it is there already), adds it to the channel, answers with
    player number 2 and announces it to the other sockets of the channel;
    no other room is touched.  Once a one-player room has been joined, every
    further join to it fails with "Game is full". *)
Theorem on_join_outcomes srv socket gameCode :
  (games srv !! gameCode = None →
     on_join srv socket gameCode =
       (srv, [Ack socket (ReplyError "Game not found")])) ∧
  (∀ game, games srv !! gameCode = Some game →
     ((2 ≤ length (players game))%nat →
        on_join srv socket gameCode =
          (srv, [Ack socket (ReplyError "Game is full")])) ∧
     ((length (players game) < 2)%nat →
        games (on_join srv socket gameCode).1 !! gameCode =
          Some (set_players (players game ++ [socket]) game) ∧
        (∀ code, code ≠ gameCode →
           games (on_join srv socket gameCode).1 !! code = games srv !! code ∧
           channel (on_join srv socket gameCode).1 code = channel srv code) ∧
        channel (on_join srv socket gameCode).1 gameCode =
          {[socket]} ∪ channel srv gameCode ∧
        (on_join srv socket gameCode).2 =
          [Ack socket (ReplyJoined gameCode 2);
           ToSocket socket (EvJoined gameCode 2);
           ToOthers socket gameCode (EvOpponentJoined socket)] ∧
        recipients (on_join srv socket gameCode).1
          (ToOthers socket gameCode (EvOpponentJoined socket)) =
          channel srv gameCode ∖ {[socket]} ∧
        (length (players game) = 1%nat →
           ∀ late, on_join (on_join srv socket gameCode).1 late gameCode =
                   ((on_join srv socket gameCode).1,
                    [Ack late (ReplyError "Game is full")])))).
Proof.
  split.
  - intros Hnone.
    destruct (on_join_cases srv socket gameCode)
      as [[_ ->] | [(g & Hg & _) | (g & Hg & _)]]; [done | congruence | congruence].
  - intros game Hgame. split.
    + intros Hfull.
      destruct (on_join_cases srv socket gameCode)
        as [[Hn _] | [(g & Hg & _ & ->) | (g & Hg & Hlt & _)]]; [congruence | done |].
      assert (g = game) as -> by congruence. lia.
    + intros Hroom.
      destruct (on_join_cases srv socket gameCode)
        as [[Hn _] | [(g & Hg & Hge & _) | (g & Hg & _ & ->)]]; [congruence | |].
      { assert (g = game) as -> by congruence. lia. }
      assert (g = game) as -> by congruence. cbn [fst snd].
      unfold channel_join. split_and!.
      * simpl. by rewrite lookup_insert_eq.
      * intros code Hcode. rewrite channel_insert. simpl.
        rewrite lookup_insert_ne by done. by rewrite decide_False.
      * rewrite channel_insert. by rewrite decide_True.
      * done.
      * unfold recipients. rewrite channel_insert, decide_True by done. set_solver.
      * intros Hone late.
        destruct (on_join_cases
                    (mkServer (<[gameCode := set_players (players game ++ [socket]) game]>
                                 (games srv))
                              (<[gameCode := {[socket]} ∪ channel srv gameCode]>
                                 (channels srv)))
                    late gameCode)
          as [[Hn _] | [(g' & Hg' & _ & ->) | (g' & Hg' & Hlt & _)]]; [| done |];
          simpl in *; rewrite lookup_insert_eq in *; [done |].
        injection Hg' as <-. revert Hlt. room_fields. rewrite length_app. simpl. lia.
Qed.

(** After the first of two players leaves, the room stays open with the
    other one, and whoever joins next is accepted and told player number 2,
    as every joiner is.  When the remaining player had itself joined, the
    room then holds two clients numbered 2, and neither passes the turn
    check of a fresh game, in which red (player 1) moves first. *)
Theorem join_after_leave_is_number_two srv gameCode game first second :
  games srv !! gameCode = Some game →
  players game = [first; second] → first ≠ second →
  (players <$> games (leaveGame srv first gameCode).1 !! gameCode) = Some [second] ∧
  (∀ late,
     (on_join (leaveGame srv first gameCode).1 late gameCode).2 =
       [Ack late (ReplyJoined gameCode 2);
        ToSocket late (EvJoined gameCode 2);
        ToOthers late gameCode (EvOpponentJoined late)] ∧
     (players <$>
        games (on_join (leaveGame srv first gameCode).1 late gameCode).1 !! gameCode)
       = Some [second; late]) ∧
  (∀ srv0 socket0 code0 code n,
     Ack socket0 (ReplyJoined code n) ∈ (on_join srv0 socket0 code0).2 ∨
     ToSocket socket0 (EvJoined code n) ∈ (on_join srv0 socket0 code0).2 →
     n = 2) ∧
  isMyTurn (Some 2) (currentPlayer newGameState) = false.
Proof.
  intros Hgame Hplayers Hne.
  assert (filter (λ id, id ≠ first) (players game) = [second]) as Hfilter.
  { rewrite Hplayers. rewrite filter_cons_False by (by intros ?).
    by rewrite filter_cons_True by done. }
  assert ((leaveGame srv first gameCode).1 =
          mkServer (<[gameCode := set_players [second] game]> (games srv))
                   (channel_leave srv first gameCode)) as Hleft.
  { destruct (leaveGame_cases srv first gameCode)
      as [[Hn _] | [(g & Hg & Hnil & _) | (g & Hg & _ & ->)]]; [congruence | |].
    - assert (g = game) as -> by congruence. congruence.
    - assert (g = game) as -> by congruence. by rewrite Hfilter. }
  rewrite Hleft. split_and!.
  - simpl. by rewrite lookup_insert_eq.
  - intros late.
    destruct (on_join_cases
                (mkServer (<[gameCode := set_players [second] game]> (games srv))
                          (channel_leave srv first gameCode)) late gameCode)
      as [[Hn _] | [(g & Hg & Hge & _) | (g & Hg & _ & ->)]];
      simpl in *; rewrite lookup_insert_eq in *; [done | |].
    + injection Hg as <-. revert Hge. room_fields. simpl. lia.
    + by injection Hg as <-.
  - intros srv0 socket0 code0 code n.
    destruct (on_join_cases srv0 socket0 code0)
      as [[_ ->] | [(g & _ & _ & ->) | (g & _ & _ & ->)]]; cbn [snd];
      rewrite !elem_of_cons, !elem_of_nil; intros [Hin | Hin];
      repeat (destruct Hin as [Hin | Hin]); congruence || done.
  - done.
Qed.

Lemma join_after_leave_is_number_two_witness :
  (on_join (leaveGame server_playing "a" "ABCDEF").1 "c" "ABCDEF").2 =
    [Ack "c" (ReplyJoined "ABCDEF" 2);
     ToSocket "c" (EvJoined "ABCDEF" 2);
     ToOthers "c" "ABCDEF" (EvOpponentJoined "c")].
Proof.
  destruct (join_after_leave_is_number_two server_playing "ABCDEF"
              (mkGame "ABCDEF" "a" ["a"; "b"] (Some (serialize (play [3]))) 1 0 ∅)
              "a" "b") as (_ & Hjoin & _).
  - vm_compute. reflexivity.
  - reflexivity.
  - done.
  - apply (Hjoin "c").
Defined.

(** ** Leaving *)

Lemma leaveGame_other srv socket gameCode code :
  code ≠ gameCode →
  games (leaveGame srv socket gameCode).1 !! code = games srv !! code ∧
  channel (leaveGame srv socket gameCode).1 code = channel srv code.
Proof.
  intros Hcode.
  destruct (leaveGame_cases srv socket gameCode)
    as [[_ ->] | [(g & _ & _ & ->) | (g & _ & _ & ->)]]; cbn [fst]; [done | |];
    unfold channel_leave; rewrite channel_insert, decide_False by done; simpl.
  - by rewrite lookup_delete_ne.
  - by rewrite lookup_insert_ne.
Qed.

Lemma filter_ne_absent (l : list SocketId) (socket : SocketId) :
  socket ∉ l → filter (λ id, id ≠ socket) l = l.
Proof.
  induction l as [|x l IH]; [done |]. intros Hnot.
  rewrite filter_cons_True by set_solver. f_equal. apply IH. set_solver.
Qed.

Lemma set_players_same game : set_players (players game) game = game.
Proof. by destruct game. Qed.

(** [leaveGame] does nothing on a code without a room.  On a room it takes
    the socket out of the players and of the channel and emits one
    opponent-left notice to the rest of the channel.  The room is deleted
    exactly when no player other than the socket was in it; otherwise it
    stays with the remaining players in their order and with its host id,
    cached game state and rematch requests as they were, also when the one
    who left is the host or has a request on record.  No other room changes. *)
Theorem leaveGame_effects srv socket gameCode :
  (games srv !! gameCode = None → leaveGame srv socket gameCode = (srv, [])) ∧
  (∀ game, games srv !! gameCode = Some game →
     games (leaveGame srv socket gameCode).1 !! gameCode =
       (if decide (filter (λ id, id ≠ socket) (players game) = []) then None
        else Some (mkGame (game_code game) (hostId game)
                          (filter (λ id, id ≠ socket) (players game))
                          (gameState game) (game_currentPlayer game)
                          (createdAt game) (rematchRequests game))) ∧
     (games (leaveGame srv socket gameCode).1 !! gameCode = None ↔
      ∀ id, id ∈ players game → id = socket) ∧
     channel (leaveGame srv socket gameCode).1 gameCode =
       channel srv gameCode ∖ {[socket]} ∧
     (leaveGame srv socket gameCode).2 =
       [ToOthers socket gameCode (EvOpponentLeft socket)]) ∧
  (∀ code, code ≠ gameCode →
     games (leaveGame srv socket gameCode).1 !! code = games srv !! code ∧
     channel (leaveGame srv socket gameCode).1 code = channel srv code).
Proof.
  split_and!.
  - intros Hnone.
    destruct (leaveGame_cases srv socket gameCode)
      as [[_ ->] | [(g & Hg & _) | (g & Hg & _)]]; [done | congruence | congruence].
  - intros game Hgame.
    assert (filter (λ id, id ≠ socket) (players game) = [] ↔
            ∀ id, id ∈ players game → id = socket) as Hall.
    { split.
      - intros Hnil id Hin. destruct (decide (id = socket)) as [|Hne]; [done |].
        assert (id ∈ filter (λ id, id ≠ socket) (players game)) as Hf
          by (apply list_elem_of_filter; done).
        rewrite Hnil in Hf. by apply elem_of_nil in Hf.
      - intros Hall.
        destruct (filter (λ id, id ≠ socket) (players game)) as [|x l] eqn:Hf; [done |].
        assert (x ∈ filter (λ id, id ≠ socket) (players game)) as Hx
          by (rewrite Hf; apply list_elem_of_here).
        apply list_elem_of_filter in Hx as [Hne Hin]. by apply Hall in Hin. }
    destruct (leaveGame_cases srv socket gameCode)
      as [[Hn _] | [(g & Hg & Hf & ->) | (g & Hg & Hf & ->)]]; [congruence | |];
      assert (g = game) as -> by congruence; cbn [fst snd];
      unfold channel_leave; rewrite channel_insert;
      rewrite (decide_True (P := gameCode = gameCode)) by done; simpl.
    + rewrite decide_True by done. rewrite lookup_delete_eq.
      split_and!; try done. split; [intros _; by apply Hall | done].
    + rewrite decide_False by done. rewrite lookup_insert_eq.
      split_and!; try done. split; [done |]. intros Hx. by apply Hall in Hx.
  - intros code Hcode. by apply leaveGame_other.
Qed.

(** [leaveGame] does not check that the socket is a player of the room.
    For a socket that is none, the registry stays as it is, and the
    opponent-left notice is emitted all the same; when the channel holds the
    players of the room, every one of them receives it. *)
Theorem leaveGame_by_outsider_still_notifies srv socket gameCode game :
  games srv !! gameCode = Some game →
  socket ∉ players game →
  players game ≠ [] →
  games (leaveGame srv socket gameCode).1 = games srv ∧
  (leaveGame srv socket gameCode).2 =
    [ToOthers socket gameCode (EvOpponentLeft socket)] ∧
  (channel srv gameCode = list_to_set (players game) →
   recipients (leaveGame srv socket gameCode).1
     (ToOthers socket gameCode (EvOpponentLeft socket)) =
     list_to_set (players game)).
Proof.
  intros Hgame Hout Hsome.
  pose proof (filter_ne_absent _ _ Hout) as Hfilter.
  destruct (leaveGame_cases srv socket gameCode)
    as [[Hn _] | [(g & Hg & Hf & _) | (g & Hg & Hf & ->)]]; [congruence | |];
    assert (g = game) as -> by congruence.
  { congruence. }
  cbn [fst snd]. rewrite Hfilter, set_players_same. split_and!.
  - simpl. by apply insert_id.
  - done.
  - intros Hchan. unfold recipients, channel_leave.
    rewrite channel_insert, decide_True by done. rewrite Hchan.
    apply set_eq. intros x. rewrite !elem_of_difference, elem_of_list_to_set.
    set_solver.
Qed.

Lemma leaveGame_by_outsider_still_notifies_witness :
  games (leaveGame server_playing "x" "ABCDEF").1 = games server_playing ∧
  (leaveGame server_playing "x" "ABCDEF").2 =
    [ToOthers "x" "ABCDEF" (EvOpponentLeft "x")].
Proof.
  destruct (leaveGame_by_outsider_still_notifies server_playing "x" "ABCDEF"
              (mkGame "ABCDEF" "a" ["a"; "b"] (Some (serialize (play [3]))) 1 0 ∅))
    as (Hgames & Hout & _).
  - vm_compute. reflexivity.
  - simpl. rewrite !elem_of_cons, elem_of_nil. intros [[=] | [[=] | []]].
  - done.
  - split; [exact Hgames | exact Hout].
Defined.

(** A rematch request stays on record when its sender leaves the room.
    When somebody else remains, the room is kept with the request, and also
    after a new player has joined: the first request of any other socket then
    starts the rematch at once, with a single request from the present
    occupants. *)
Theorem leaveGame_keeps_rematch_request srv leaver gameCode game :
  games srv !! gameCode = Some game →
  leaver ∈ rematchRequests game →
  filter (λ id, id ≠ leaver) (players game) ≠ [] →
  (rematchRequests <$> games (leaveGame srv leaver gameCode).1 !! gameCode) =
    Some (rematchRequests game) ∧
  ∀ late requester, requester ≠ leaver →
    (on_rematch (on_join (leaveGame srv leaver gameCode).1 late gameCode).1
                requester gameCode).2 = [ToRoom gameCode (EvRematch None)] ∧
    (on_rematch (leaveGame srv leaver gameCode).1 requester gameCode).2 =
      [ToRoom gameCode (EvRematch None)].
Proof.
  intros Hgame Hreq Hrest.
  destruct (leaveGame_cases srv leaver gameCode)
    as [[Hn _] | [(g & Hg & Hf & _) | (g & Hg & Hf & ->)]]; [congruence | |];
    assert (g = game) as -> by congruence.
  { congruence. }
  cbn [fst]. set (srv1 := mkServer _ _).
  assert (games srv1 !! gameCode =
          Some (set_players (filter (λ id, id ≠ leaver) (players game)) game)) as H1
    by (subst srv1; simpl; by rewrite lookup_insert_eq).
  split; [by rewrite H1 |].
  intros late requester Hne.
  assert (∀ s g1, games s !! gameCode = Some g1 →
            rematchRequests g1 = rematchRequests game →
            (on_rematch s requester gameCode).2 = [ToRoom gameCode (EvRematch None)])
    as Hstart.
  { intros s g1 Hs Hsame.
    destruct (on_rematch_cases s requester gameCode g1 Hs) as [[_ ->] | [Hlt _]];
      [done |].
    rewrite Hsame in Hlt.
    assert (size ({[requester; leaver]} : gset SocketId) ≤
            size ({[requester]} ∪ rematchRequests game))%nat as Hle
      by (apply subseteq_size; set_solver).
    rewrite size_union in Hle by set_solver. rewrite !size_singleton in Hle. lia. }
  split; [| by apply (Hstart srv1 _ H1)].
  destruct (on_join_cases srv1 late gameCode)
    as [[Hn _] | [(g & Hg' & _ & ->) | (g & Hg' & _ & ->)]]; [congruence | |];
    cbn [fst].
  - by apply (Hstart srv1 _ H1).
  - apply (Hstart _ (set_players (players g ++ [late]) g)).
    + simpl. by rewrite lookup_insert_eq.
    + rewrite H1 in Hg'. by injection Hg' as <-.
Qed.

Lemma leaveGame_keeps_rematch_request_witness :
  (on_rematch (on_join (leaveGame rematch_server "b" "ROOM42").1 "c" "ROOM42").1
              "a" "ROOM42").2 = [ToRoom "ROOM42" (EvRematch None)].
Proof.
  destruct (leaveGame_keeps_rematch_request rematch_server "b" "ROOM42" rematch_room)
    as [_ Hstart].
  - vm_compute. reflexivity.
  - vm_compute. reflexivity.
  - by vm_compute.
  - apply (Hstart "c" "a"). done.
Defined.

(** ** Expiry of rooms *)

Lemma cleanupOldGames_lookup srv now code :
  games (cleanupOldGames srv now) !! code =
    match games srv !! code with
    | Some game =>
        if decide (createdAt game < now - 3600000) then None else Some game
    | None => None
    end.
Proof.
  unfold cleanupOldGames. cbn [games].
  rewrite map_lookup_filter.
  destruct (games srv !! code) as [game|]; [| done]. simpl.
  change (60 * 60 * 1000) with 3600000.
  case_decide as Hold.
  - by rewrite option_guard_False by (intros Hkeep; by apply Hkeep).
  - by rewrite option_guard_True.
Qed.

(** [cleanupOldGames] deletes exactly the rooms created more than an hour
    (3600000 ms) before the time of the call: a room created exactly one hour
    before stays, younger rooms stay as they are, and an older room goes
    whether or not players are in it and a game is under way.  The channels
    keep their sockets.  Afterwards a join to an expired room fails with
    "Game not found", and moves and rematch requests for it are dropped
    without an answer. *)
Theorem cleanupOldGames_expires_by_age srv now code :
  games (cleanupOldGames srv now) !! code =
    match games srv !! code with
    | Some game =>
        if decide (createdAt game < now - 3600000) then None else Some game
    | None => None
    end ∧
  (∀ game, games srv !! code = Some game → createdAt game = now - 3600000 →
     games (cleanupOldGames srv now) !! code = Some game) ∧
  channel (cleanupOldGames srv now) code = channel srv code ∧
  (∀ game, games srv !! code = Some game → createdAt game < now - 3600000 →
     ∀ socket column row state,
       on_join (cleanupOldGames srv now) socket code =
         (cleanupOldGames srv now, [Ack socket (ReplyError "Game not found")]) ∧
       on_move (cleanupOldGames srv now) socket code column row state =
         (cleanupOldGames srv now, []) ∧
       on_rematch (cleanupOldGames srv now) socket code =
         (cleanupOldGames srv now, []) ∧
       leaveGame (cleanupOldGames srv now) socket code =
         (cleanupOldGames srv now, [])).
Proof.
  split_and!.
  - apply cleanupOldGames_lookup.
  - intros game Hgame Hage. rewrite cleanupOldGames_lookup, Hgame.
    rewrite decide_False by lia. done.
  - done.
  - intros game Hgame Hage socket column row state.
    assert (games (cleanupOldGames srv now) !! code = None) as Hgone
      by (rewrite cleanupOldGames_lookup, Hgame; by rewrite decide_True).
    unfold on_join, on_move, on_rematch, leaveGame. by rewrite Hgone.
Qed.

(** The code of an expired room is free again, and the sockets of the old
    room are still in its channel: when a later [game:create] draws the same
    code, its creator joins them, so that what the new room sends to its
    channel also reaches the sockets of the expired one. *)
Theorem expired_code_reused_keeps_channel
    srv now code game fuel rand pos socket now' srv' pos' :
  games srv !! code = Some game →
  createdAt game < now - 3600000 →
  on_create fuel (cleanupOldGames srv now) rand pos socket now' =
    Some (srv', [Ack socket (ReplyCreated code); ToSocket socket (EvCreated code 1)],
          pos') →
  (players <$> games srv' !! code) = Some [socket] ∧
  channel srv' code = {[socket]} ∪ channel srv code ∧
  ∀ sender ev,
    recipients srv' (ToOthers sender code ev) =
      ({[socket]} ∪ channel srv code) ∖ {[sender]}.
Proof.
  intros Hgame Hage Hcreate.
  apply on_create_inv in Hcreate as (code' & _ & -> & Hout & _).
  injection Hout as <-.
  assert (channel (mkServer
                     (<[code := mkGame code socket [socket] None 1 now' ∅]>
                        (games (cleanupOldGames srv now)))
                     (channel_join (cleanupOldGames srv now) socket code)) code =
          {[socket]} ∪ channel srv code) as Hchan.
  { unfold channel_join. rewrite channel_insert. by rewrite decide_True. }
  split_and!.
  - cbn [games]. by rewrite lookup_insert_eq.
  - exact Hchan.
  - intros sender ev. unfold recipients. by rewrite Hchan.
Qed.

Lemma expired_code_reused_keeps_channel_witness :
  recipients
    (match on_create 1 (cleanupOldGames server_playing 3600001) cycling 0 "c" 3600001
     with Some (srv', _, _) => srv' | None => empty_server end)
    (ToOthers "c" "ABCDEF" (EvMove 3 5 None)) = {["a"; "b"]}.
Proof.
  destruct (expired_code_reused_keeps_channel server_playing 3600001 "ABCDEF"
              (mkGame "ABCDEF" "a" ["a"; "b"] (Some (serialize (play [3]))) 1 0 ∅)
              1 cycling 0 "c" 3600001
              (match on_create 1 (cleanupOldGames server_playing 3600001)
                                cycling 0 "c" 3600001
               with Some (srv', _, _) => srv' | None => empty_server end)
              6%nat) as (_ & _ & Hrec).
  - vm_compute. reflexivity.
  - simpl. lia.
  - vm_compute. reflexivity.
  - rewrite Hrec. vm_compute. reflexivity.
Defined.

(** ** Closed connections *)

Lemma channel_drop_socket srv socket code :
  channel (drop_socket srv socket) code = channel srv code ∖ {[socket]}.
Proof.
  unfold channel, drop_socket. simpl. rewrite lookup_fmap.
  destruct (channels srv !! code); simpl; set_solver.
Qed.

Lemma conn_disconnect_cases r socket :
  ((current r !! socket = None ∨ current r !! socket = Some EmptyString) ∧
   conn_disconnect r socket =
     (mkRelay (drop_socket (server r) socket) (delete socket (current r)), [])) ∨
  (∃ gameCode, current r !! socket = Some gameCode ∧ gameCode ≠ EmptyString ∧
   conn_disconnect r socket =
     (mkRelay (leaveGame (drop_socket (server r) socket) socket gameCode).1
              (delete socket (current r)),
      (leaveGame (drop_socket (server r) socket) socket gameCode).2)).
Proof.
  unfold conn_disconnect.
  destruct (current r !! socket) as [gameCode|]; [| left; split; [by left | done]].
  case_bool_decide as Hempty.
  - left. subst. split; [by right | done].
  - right. exists gameCode.
    by destruct (leaveGame (drop_socket (server r) socket) socket gameCode).
Qed.



(** [game:leave] does not clear [currentGameCode].  When a socket leaves its
    current room by request and its connection closes afterwards, as it does
    when the client leaves the game and then drops the connection, the
    players who remain get the opponent-left notice a second time; the
    registry is the same after the second as after the first. *)
Theorem conn_leave_then_disconnect_notifies_twice r socket gameCode game :
  current r !! socket = Some gameCode →
  gameCode ≠ EmptyString →
  games (server r) !! gameCode = Some game →
  filter (λ id, id ≠ socket) (players game) ≠ [] →
  (conn_leave r socket gameCode).2 =
    [ToOthers socket gameCode (EvOpponentLeft socket)] ∧
  (conn_disconnect (conn_leave r socket gameCode).1 socket).2 =
    [ToOthers socket gameCode (EvOpponentLeft socket)] ∧
  games (server (conn_disconnect (conn_leave r socket gameCode).1 socket).1) =
    games (server (conn_leave r socket gameCode).1) ∧
  recipients (server (conn_disconnect (conn_leave r socket gameCode).1 socket).1)
    (ToOthers socket gameCode (EvOpponentLeft socket)) =
    channel (server r) gameCode ∖ {[socket]}.
Proof.
  intros Hcur Hnonempty Hgame Hrest.
  assert (conn_leave r socket gameCode =
          (mkRelay (mkServer
                      (<[gameCode :=
                           set_players (filter (λ id, id ≠ socket) (players game)) game]>
                         (games (server r)))
                      (channel_leave (server r) socket gameCode))
                   (current r),
           [ToOthers socket gameCode (EvOpponentLeft socket)])) as ->.
  { unfold conn_leave.
    destruct (leaveGame_cases (server r) socket gameCode)
      as [[Hn _] | [(g & Hg & Hf & _) | (g & Hg & Hf & ->)]]; [congruence | |];
      assert (g = game) as -> by congruence; [congruence | done]. }
  cbn [fst snd]. set (r1 := mkRelay _ _).
  destruct (conn_disconnect_cases r1 socket)
    as [[[Hc | Hc] _] | (code & Hc & _ & ->)]; subst r1; cbn [current] in Hc;
    [congruence | congruence |].
  assert (code = gameCode) as -> by congruence. cbn [fst snd server].
  set (srv1 := drop_socket _ _).
  assert (games srv1 !! gameCode =
          Some (set_players (filter (λ id, id ≠ socket) (players game)) game)) as H1
    by (subst srv1; simpl; by rewrite lookup_insert_eq).
  destruct (leaveGame_cases srv1 socket gameCode)
    as [[Hn _] | [(g & Hg & Hf & _) | (g & Hg & Hf & ->)]]; [congruence | |];
    rewrite H1 in Hg; injection Hg as <-; revert Hf; room_fields;
    rewrite list_filter_filter;
    rewrite (list_filter_iff (λ id, id ≠ socket ∧ id ≠ socket) (λ id, id ≠ socket))
      by (intros id; tauto); intros Hf; [done |].
  cbn [fst snd]. split_and!; try done.
  - subst srv1. simpl. rewrite insert_insert_eq. room_fields. done.
  - unfold recipients, channel_leave. rewrite channel_insert, decide_True by done.
    subst srv1. rewrite channel_drop_socket. unfold channel_leave.
    rewrite channel_insert, decide_True by done. set_solver.
Qed.

Lemma conn_leave_then_disconnect_notifies_twice_witness :
  (conn_leave relay_playing "b" "ABCDEF").2 =
    [ToOthers "b" "ABCDEF" (EvOpponentLeft "b")] ∧
  (conn_disconnect (conn_leave relay_playing "b" "ABCDEF").1 "b").2 =
    [ToOthers "b" "ABCDEF" (EvOpponentLeft "b")].
Proof.
  destruct (conn_leave_then_disconnect_notifies_twice relay_playing "b" "ABCDEF"
              (mkGame "ABCDEF" "a" ["a"; "b"] (Some (serialize (play [3]))) 1 0 ∅))
    as (Hfirst & Hsecond & _).
  - vm_compute. reflexivity.
  - done.
  - vm_compute. reflexivity.
  - by vm_compute.
  - split; [exact Hfirst | exact Hsecond].
Defined.

(** ** What the server keeps of a game *)

(** The [currentPlayer] field of a room is 1 from creation on: no handler
    writes anything else to it, whatever moves are relayed and whoever is to
    move in the cached game state. *)
Theorem runs_currentPlayer_one rough srv :
  runs rough srv →
  ∀ code game, games srv !! code = Some game → game_currentPlayer game = 1.
Proof.
  induction 1 as [| srv fuel rand pos socket now srv' out pos' _ IH Hcreate
                  | srv socket gameCode _ IH | srv socket gameCode _ IH
                  | srv socket gameCode column row state _ IH
                  | srv socket gameCode _ IH
                  | srv now _ _ IH | srv socket _ _ IH]; intros code game.
  - done.
  - apply on_create_inv in Hcreate as (c & _ & -> & _). cbn [games].
    destruct (decide (c = code)) as [-> |].
    + rewrite lookup_insert_eq. by intros [= <-].
    + rewrite lookup_insert_ne by done. apply IH.
  - destruct (on_join_cases srv socket gameCode)
      as [[_ ->] | [(g & _ & _ & ->) | (g & Hg & _ & ->)]]; cbn [fst games];
      [apply IH | apply IH |].
    destruct (decide (gameCode = code)) as [-> |].
    + rewrite lookup_insert_eq. intros [= <-]. room_fields. by apply (IH code).
    + rewrite lookup_insert_ne by done. apply IH.
  - destruct (leaveGame_cases srv socket gameCode)
      as [[_ ->] | [(g & _ & _ & ->) | (g & Hg & _ & ->)]]; cbn [fst games];
      [apply IH | |].
    + intros Hl. apply lookup_delete_Some in Hl as [_ Hl]. by apply (IH code).
    + destruct (decide (gameCode = code)) as [-> |].
      * rewrite lookup_insert_eq. intros [= <-]. room_fields. by apply (IH code).
      * rewrite lookup_insert_ne by done. apply IH.
  - destruct (on_move_cases srv socket gameCode column row state)
      as [[_ ->] | (g & Hg & ->)]; cbn [fst games]; [apply IH |].
    destruct (decide (gameCode = code)) as [-> |].
    + rewrite lookup_insert_eq. intros [= <-]. room_fields. by apply (IH code).
    + rewrite lookup_insert_ne by done. apply IH.
  - destruct (games srv !! gameCode) as [g|] eqn:Hg;
      [| rewrite on_rematch_unknown by done; apply IH].
    destruct (on_rematch_cases srv socket gameCode g Hg) as [[_ ->] | [_ ->]];
      cbn [fst games]; (destruct (decide (gameCode = code)) as [-> |];
        [rewrite lookup_insert_eq; intros [= <-]
        | rewrite lookup_insert_ne by done; apply IH]).
    + done.
    + room_fields. by apply (IH code).
  - rewrite cleanupOldGames_lookup.
    destruct (games srv !! code) as [g|] eqn:Hg; [| done].
    case_decide; [done |]. intros [= <-]. by apply (IH code).
  - apply IH.
Qed.

Lemma runs_currentPlayer_one_witness :
  (gameState <$> games server_playing !! "ABCDEF") = Some (Some (serialize (play [3]))) ∧
  ser_currentPlayer (serialize (play [3])) = 2 ∧
  (game_currentPlayer <$> games server_playing !! "ABCDEF") = Some 1.
Proof.
  split_and!; [by vm_compute | by vm_compute |].
  destruct (games server_playing !! "ABCDEF") as [game|] eqn:Hgame; [| by vm_compute in Hgame].
  simpl. f_equal.
  exact (runs_currentPlayer_one true server_playing (runs_server_playing true)
           "ABCDEF" game Hgame).
Defined.

Lemma blank_lookup srv code :
  games (blank_server srv) !! code = blank <$> games srv !! code.
Proof. unfold blank_server. cbn [games]. apply lookup_fmap. Qed.

Lemma blank_idemp game : blank (blank game) = blank game.
Proof. done. Qed.

Lemma blank_server_idemp srv : blank_server (blank_server srv) = blank_server srv.
Proof.
  unfold blank_server. cbn [games channels]. f_equal.
  rewrite <- map_fmap_compose. apply map_fmap_ext. done.
Qed.

Lemma generateGameCode_blank fuel (registry : gmap string Game) rand pos :
  generateGameCode fuel (blank <$> registry) rand pos =
  generateGameCode fuel registry rand pos.
Proof.
  revert pos. induction fuel as [|fuel IH]; intros pos; [done |].
  rewrite !generateGameCode_step, IH.
  rewrite lookup_fmap.
  by destruct (registry !! attempt rand pos 0) as [g|].
Qed.

(** The server never reads the game state it caches, nor the
    [currentPlayer] field of a room: with both blanked in every room, each
    handler emits exactly what it emits otherwise and leaves the same
    registry and channels, up to the blanked fields.  In particular no move
    is checked against the cached game, and nobody who joins is sent it. *)
Theorem handlers_ignore_cached_state srv socket gameCode :
  ((on_join (blank_server srv) socket gameCode).2 = (on_join srv socket gameCode).2 ∧
   (on_join (blank_server srv) socket gameCode).1 =
     blank_server (on_join srv socket gameCode).1) ∧
  ((leaveGame (blank_server srv) socket gameCode).2 =
     (leaveGame srv socket gameCode).2 ∧
   (leaveGame (blank_server srv) socket gameCode).1 =
     blank_server (leaveGame srv socket gameCode).1) ∧
  ((on_rematch (blank_server srv) socket gameCode).2 =
     (on_rematch srv socket gameCode).2 ∧
   (on_rematch (blank_server srv) socket gameCode).1 =
     blank_server (on_rematch srv socket gameCode).1) ∧
  (∀ column row state,
     (on_move (blank_server srv) socket gameCode column row state).2 =
       (on_move srv socket gameCode column row state).2 ∧
     blank_server (on_move (blank_server srv) socket gameCode column row state).1 =
       blank_server (on_move srv socket gameCode column row state).1) ∧
  (∀ fuel rand pos now,
     on_create fuel (blank_server srv) rand pos socket now =
       (λ r, (blank_server r.1.1, r.1.2, r.2)) <$>
         on_create fuel srv rand pos socket now) ∧
  (∀ now, cleanupOldGames (blank_server srv) now =
          blank_server (cleanupOldGames srv now)) ∧
  drop_socket (blank_server srv) socket = blank_server (drop_socket srv socket).
Proof.
  split; [| split; [| split; [| split; [| split; [| split]]]]].
  - unfold on_join. rewrite blank_lookup.
    destruct (games srv !! gameCode) as [g|]; [| done]. cbn [fmap option_fmap option_map].
    change (players (blank g)) with (players g).
    case_bool_decide; [done |]. split; [done |]. cbn [fst].
    unfold blank_server. cbn [games channels]. by rewrite fmap_insert.
  - unfold leaveGame. rewrite blank_lookup.
    destruct (games srv !! gameCode) as [g|]; [| done]. cbn [fmap option_fmap option_map].
    change (players (blank g)) with (players g). cbn zeta. room_fields.
    case_bool_decide; (split; [done |]); cbn [fst];
      unfold blank_server; cbn [games channels].
    + by rewrite fmap_delete.
    + by rewrite fmap_insert.
  - unfold on_rematch. rewrite blank_lookup.
    destruct (games srv !! gameCode) as [g|]; [| done]. cbn [fmap option_fmap option_map].
    change (rematchRequests (blank g)) with (rematchRequests g). cbn zeta. room_fields.
    case_bool_decide; (split; [done |]); cbn [fst];
      unfold blank_server; cbn [games channels]; by rewrite fmap_insert.
  - intros column row state. unfold on_move. rewrite blank_lookup.
    destruct (games srv !! gameCode) as [g|];
      [| split; [done | apply blank_server_idemp]].
    cbn [fmap option_fmap option_map]. split; [done |]. cbn [fst].
    unfold blank_server. cbn [games channels]. rewrite !fmap_insert. f_equal.
    f_equal. rewrite <- map_fmap_compose. by apply map_fmap_ext.
  - intros fuel rand pos now. unfold on_create, createGame. cbn [games blank_server].
    rewrite generateGameCode_blank.
    destruct (generateGameCode fuel (games srv) rand pos) as [[code pos']|]; [| done].
    cbn [fmap option_fmap option_map fst snd game_code].
    unfold blank_server. cbn [games channels]. by rewrite fmap_insert.
  - intros now.
    assert (games (cleanupOldGames (blank_server srv) now) =
            blank <$> games (cleanupOldGames srv now)) as Hgames; last first.
    { unfold blank_server at 2. rewrite <- Hgames. done. }
    apply map_eq. intros code.
    rewrite lookup_fmap, !cleanupOldGames_lookup, blank_lookup.
    destruct (games srv !! code) as [g|]; [| done]. simpl.
    change (createdAt (blank g)) with (createdAt g). by case_decide.
  - done.
Qed.

(** ** The room codes in use *)

Lemma dom_insert_present (registry : gmap string Game) code game game' :
  registry !! code = Some game →
  dom (<[code := game']> registry) = dom registry.
Proof.
  intros Hin. rewrite dom_insert_L.
  apply elem_of_dom_2 in Hin. set_solver.
Qed.

(** Rooms enter the registry through [game:create] only, one per call and
    under a code that was free, so that no room is ever replaced by a new
    one and the number of rooms goes up by exactly one.  Joins, moves and
    rematch requests keep the set of room codes; [leaveGame] removes at most
    the code it is called with; expiry only removes codes; a closing
    connection removes none by itself. *)
Theorem room_codes_added_and_removed srv socket gameCode :
  (∀ fuel rand pos now srv' out pos',
     on_create fuel srv rand pos socket now = Some (srv', out, pos') →
     ∃ code, (code ∉ dom (games srv)) ∧
             dom (games srv') = {[code]} ∪ dom (games srv) ∧
             size (games srv') = S (size (games srv)) ∧
             ∀ c, c ≠ code → games srv' !! c = games srv !! c) ∧
  dom (games (on_join srv socket gameCode).1) = dom (games srv) ∧
  (∀ column row state,
     dom (games (on_move srv socket gameCode column row state).1) = dom (games srv)) ∧
  dom (games (on_rematch srv socket gameCode).1) = dom (games srv) ∧
  dom (games srv) ∖ {[gameCode]} ⊆ dom (games (leaveGame srv socket gameCode).1) ∧
  dom (games (leaveGame srv socket gameCode).1) ⊆ dom (games srv) ∧
  (∀ now, dom (games (cleanupOldGames srv now)) ⊆ dom (games srv)) ∧
  dom (games (drop_socket srv socket)) = dom (games srv).
Proof.
  split_and!.
  - intros fuel rand pos now srv' out pos' (code & Hfree & -> & _)%on_create_inv.
    exists code. cbn [games]. split_and!.
    + by apply not_elem_of_dom.
    + by rewrite dom_insert_L.
    + by rewrite map_size_insert_None.
    + intros c Hc. by rewrite lookup_insert_ne.
  - destruct (on_join_cases srv socket gameCode)
      as [[_ ->] | [(g & _ & _ & ->) | (g & Hg & _ & ->)]]; [done | done |].
    cbn [fst games]. by eapply dom_insert_present.
  - intros column row state.
    destruct (on_move_cases srv socket gameCode column row state)
      as [[_ ->] | (g & Hg & ->)]; [done |].
    cbn [fst games]. by eapply dom_insert_present.
  - destruct (games srv !! gameCode) as [g|] eqn:Hg;
      [| by rewrite on_rematch_unknown].
    destruct (on_rematch_cases srv socket gameCode g Hg) as [[_ ->] | [_ ->]];
      cbn [fst games]; by eapply dom_insert_present.
  - destruct (leaveGame_cases srv socket gameCode)
      as [[_ ->] | [(g & _ & _ & ->) | (g & Hg & _ & ->)]]; cbn [fst games].
    + set_solver.
    + by rewrite dom_delete_L.
    + rewrite dom_insert_L. set_solver.
  - destruct (leaveGame_cases srv socket gameCode)
      as [[_ ->] | [(g & _ & _ & ->) | (g & Hg & _ & ->)]]; cbn [fst games].
    + done.
    + rewrite dom_delete_L. set_solver.
    + by erewrite dom_insert_present.
  - intros now. unfold cleanupOldGames. cbn [games]. apply dom_filter_subseteq.
  - done.
Qed.
